(** * A bounded-load consistent hash ring: model and verified properties

    The development embeds the ring of [consistent.cpp] (class [Consistent]),
    its hashers ([hasher.cpp]) and the gateway member ([member.cpp]) as Rocq
    functions, and states the properties of the specification over them.

    Modelling conventions.
    - [uint64_t] hash positions are [N]; the FNV-1a multiplication wraps
      modulo [2^64] explicitly.  Sizes, indices, counters, partition ids and
      replication factors are [nat]: they are non-negative and far below the
      [int] range in every configuration considered, so no wrap-around
      arises.
    - [double] values.  The load factor and the average load are IEEE-754
      binary64 numbers, as the standard library specifies them ([SpecFloat],
      precision 53): the division and the multiplication that compute the
      average load round to nearest, ties to even.  A comparison of doubles
      compares what they denote, and [std::ceil] is exact.  A [double] used
      as a partition counter (the values of the load map) holds a small
      integer and is a [nat].
    - [std::unordered_map] is stdpp's [gmap], [std::unordered_set] is
      [gset], [std::vector] is [list].
    - A [Member*] is a non-owning pointer into the registry [members_],
      which is keyed by the member's name; it is modelled by that name.
    - Exceptions are the [Throw] results of [result]; a mutator also returns
      the object state it leaves behind ([outcome]).
    - A [while] loop is a recursion on a fuel argument; running out of fuel
      is the separate result [OutOfFuel], and termination is proved, not
      assumed.
    - The reader/writer lock.  The program is followed as one thread, so
      an acquisition of [mutex_] by a thread that holds nothing succeeds and
      is left out.  The one acquisition by a thread that holds the lock
      already, in [CalculatePartitionsWithNewMember] under [Add], is
      modelled: see [shared_lock].
    - The cache of [GetMembers] takes no part in the placement; its two
      fields are kept in a record of their own beside the ring state.
    - The demonstration program at the end of the sources is written for a
      different interface (shared pointers) and is not modelled. *)

From Stdlib Require Import QArith Qround DecimalString SpecFloat.
From Stdlib Require DecimalN DecimalPos DecimalFacts.
From Stdlib.Strings Require Import Byte.
From stdpp Require Import gmap strings list sorting fin_maps fin_sets.

Local Open Scope nat_scope.

(** ** Results and exceptions *)

Inductive exn : Type :=
  | InvalidArgument                    (* std::invalid_argument *)
  | InsufficientMemberCountException
  | InsufficientSpaceException
  | OutOfRange                         (* std::out_of_range, from map::at *)
  | SystemError                        (* std::system_error, from a lock *)
  | Undefined.                         (* null dereference, index out of bounds *)

Inductive result (T : Type) : Type :=
  | Ok (v : T)
  | Throw (e : exn)
  | OutOfFuel.
Arguments Ok {T} v.
Arguments Throw {T} e.
Arguments OutOfFuel {T}.

Global Instance exn_eq_dec : EqDecision exn.
Proof. solve_decision. Defined.

(** ** Hashers ([hasher.h], [hasher.cpp]) *)

(** The abstract class [Hasher]: one [Sum64] per overload. *)
Record Hasher : Type := mkHasher {
  Sum64 : list byte → N;
  Sum64_string : string → N;
}.

Definition FNV_OFFSET_BASIS : N := 14695981039346656037.
Definition FNV_PRIME : N := 1099511628211.
Definition u64 (x : N) : N := (x mod 2 ^ 64)%N.

Definition FNV_Sum64 (data : list byte) : N :=
  foldl (λ hash b, u64 (N.lxor hash (Byte.to_N b) * FNV_PRIME)) FNV_OFFSET_BASIS data.

Definition FNVHasher : Hasher :=
  {| Sum64 := FNV_Sum64;
     Sum64_string := λ data, FNV_Sum64 (String.list_byte_of_string data) |}.

Definition CreateFNVHasher : option Hasher := Some FNVHasher.

(** [CRC64Hasher].  The table is a static vector of 256 entries that the
    constructor fills once ([InitializeTable], under [std::call_once]);
    [CalculateCRC64] is private and runs on constructed hashers only, so it
    reads the table after its initialisation.  [crc64_table_] is the value
    of the table after [InitializeTable]. *)
Definition CRC64_ISO_POLY : N := 0xD800000000000000.

(** One turn of the inner loop of [InitializeTable]:
    [if (crc & 1) crc = (crc >> 1) ^ CRC64_ISO_POLY; else crc >>= 1;] *)
Definition crc64_shift (crc : N) : N :=
  if negb (N.land crc 1 =? 0)%N then N.lxor (N.shiftr crc 1) CRC64_ISO_POLY
  else N.shiftr crc 1.

Definition InitializeTable : list N :=
  (λ i, Nat.iter 8 crc64_shift (N.of_nat i)) <$> seq 0 256.

Definition crc64_table_ : list N := Eval vm_compute in InitializeTable.

(** [crc = crc64_table_[(crc ^ byte) & 0xFF] ^ (crc >> 8)] *)
Definition crc64_update (crc : N) (b : byte) : N :=
  N.lxor (crc64_table_ !!! N.to_nat (N.land (N.lxor crc (Byte.to_N b)) 255))
    (N.shiftr crc 8).

Definition CalculateCRC64 (data : list byte) : N :=
  N.lxor (foldl crc64_update 0xFFFFFFFFFFFFFFFF%N data) 0xFFFFFFFFFFFFFFFF.

Definition CRC64Hasher : Hasher :=
  {| Sum64 := CalculateCRC64;
     Sum64_string := λ data, CalculateCRC64 (String.list_byte_of_string data) |}.

Definition CreateCRC64Hasher : option Hasher := Some CRC64Hasher.

(** ** Members ([member.h], [member.cpp]) *)

Class Member (A : Type) : Type := {
  Member_String : A → string;          (* Member::String() *)
  Clone : A → A;
}.

(** [std::to_string] and [operator<<] on a non-negative [int]. *)
Definition to_string (n : N) : string := NilEmpty.string_of_uint (N.to_uint n).

Record GatewayMember : Type := mkGatewayMember {
  id_ : string;
  host_ : string;
  port_ : N;
}.

Global Instance GatewayMember_Member : Member GatewayMember := {|
  Member_String := λ m, (id_ m +:+ ":" +:+ host_ m +:+ ":" +:+ to_string (port_ m))%string;
  Clone := λ m, mkGatewayMember (id_ m) (host_ m) (port_ m);
|}.

Definition GetID (m : GatewayMember) : string := id_ m.
Definition GetHost (m : GatewayMember) : string := host_ m.
Definition GetPort (m : GatewayMember) : N := port_ m.
Definition GetAddress (m : GatewayMember) : string :=
  (host_ m +:+ ":" +:+ to_string (port_ m))%string.

(** ** Doubles

    A [double] is an IEEE-754 binary64 number in the representation of the
    standard library; [double_div] and [double_mul] are its division and
    multiplication, which round to nearest, ties to even.  An [int] or a
    [size_t] below [2^53] converts without rounding. *)

Definition double : Type := spec_float.

Definition double_of_Z (z : Z) : double := binary_normalize 53 1024 z 0 false.
Definition double_of_nat (n : nat) : double := double_of_Z (Z.of_nat n).
Definition double_div (x y : double) : double := SFdiv 53 1024 x y.
Definition double_mul (x y : double) : double := SFmul 53 1024 x y.

(** The double nearest to [a / b]: the literals [1.25] and [0.5] are
    [double_ratio 5 4] and [double_ratio 1 2], without rounding. *)
Definition double_ratio (a b : Z) : double := double_div (double_of_Z a) (double_of_Z b).

(** [x == 0.0] *)
Definition double_is_zero (x : double) : bool :=
  match x with S754_zero _ => true | _ => false end.

(** What a double denotes: a rational (in lowest terms), an infinity, or no
    number. *)
Inductive extended : Type :=
  | ext_nan
  | ext_neg_inf
  | ext_fin (q : Q)
  | ext_pos_inf.

Definition double_value (x : double) : extended :=
  match x with
  | S754_zero _ => ext_fin 0
  | S754_infinity s => if s then ext_neg_inf else ext_pos_inf
  | S754_nan => ext_nan
  | S754_finite s m e =>
    ext_fin (Qred ((if s then -1 else 1) * inject_Z (Z.pos m) * Qpower 2 e))
  end.

(** [a <= b] and [a < b] on doubles: false when either is not a number. *)
Definition ext_le (a b : extended) : bool :=
  match a, b with
  | ext_nan, _ | _, ext_nan => false
  | ext_neg_inf, _ | _, ext_pos_inf => true
  | ext_fin p, ext_fin q => Qle_bool p q
  | _, _ => false
  end.

Definition ext_lt (a b : extended) : bool :=
  match a, b with
  | ext_nan, _ | _, ext_nan => false
  | ext_neg_inf, ext_neg_inf | ext_pos_inf, ext_pos_inf => false
  | ext_neg_inf, _ | _, ext_pos_inf => true
  | ext_fin p, ext_fin q => negb (Qle_bool q p)
  | _, _ => false
  end.

(** [std::ceil]: the least integer that is not below the argument, which is
    a double again; infinities and NaN are returned as they are. *)
Definition ext_ceil (a : extended) : extended :=
  match a with
  | ext_fin q => ext_fin (inject_Z (Qceiling q))
  | _ => a
  end.

(** ** Configuration ([consistent.h]) *)

Definition DEFAULT_PARTITION_COUNT : nat := 271.
Definition DEFAULT_REPLICATION_FACTOR : nat := 20.
Definition DEFAULT_LOAD : double := double_ratio 5 4.

Record Config : Type := mkConfig {
  hasher : option Hasher;              (* std::unique_ptr<Hasher>, may be null *)
  partition_count : nat;
  replication_factor : nat;
  load : double;
}.

(** ** Library routines used by the ring *)

(** [std::sort] on a vector of [uint64_t]. *)
Definition sort (l : list N) : list N := merge_sort N.le l.

(** [std::lower_bound] followed by [std::distance]: the index of the first
    element that is not below [val], or the length when there is none.  On
    the sorted vectors the ring keeps, binary search finds this index. *)
Fixpoint lower_bound (l : list N) (val : N) : nat :=
  match l with
  | [] => 0
  | x :: l' => if (x <? val)%N then S (lower_bound l' val) else 0
  end.

(** The index computed at each start of a walk: [lower_bound], wrapped to
    [0] at the end of the vector. *)
Definition start_index (sorted_set : list N) (key : N) : nat :=
  let idx := lower_bound sorted_set key in
  if length sorted_set <=? idx then 0 else idx.

(** [idx++; if (idx >= size) idx = 0;] *)
Definition next_index (sorted_set : list N) (idx : nat) : nat :=
  let idx := S idx in
  if length sorted_set <=? idx then 0 else idx.

(** The 8 bytes [(part_id >> (i * 8)) & 0xFF], [i = 0..7]. *)
Definition byte_of_N (x : N) : byte := default Byte.x00 (Byte.of_N x).

Definition partition_bytes (part_id : nat) : list byte :=
  (λ i, byte_of_N (N.land (N.shiftr (N.of_nat part_id) (N.of_nat (i * 8))) 255)) <$> seq 0 8.

(** [load + 1 <= avg_load], for a load that counts partitions. *)
Definition fits (load : nat) (avg_load : extended) : bool :=
  ext_le (ext_fin (inject_Z (Z.of_nat load + 1))) avg_load.

Definition Qnat (n : nat) : Q := inject_Z (Z.of_nat n).

(** ** The lock ([std::shared_mutex mutex_])

    A [std::shared_mutex] is not recursive.  For a thread that owns it, in
    either mode, and locks it again the standard defines no behaviour; the
    implementations report the deadlock that [pthread_rwlock_rdlock] detects
    by throwing [std::system_error], and the model takes this exception as
    the outcome.  [owned] is what the calling thread holds when the
    [std::shared_lock] is constructed. *)
Inductive ownership : Type :=
  | NotOwned
  | OwnedExclusive.                    (* inside a std::unique_lock *)

Definition shared_lock (owned : ownership) : result unit :=
  match owned with
  | NotOwned => Ok tt
  | OwnedExclusive => Throw SystemError
  end.

(** ** The placement walk

    The loop [while (true) { count++; if (count >= size) throw ...; ... }]
    occurs twice, in [DistributeWithLoad] and inlined in
    [CalculatePartitionsWithRingAndMemberCount].  The two copies differ in
    the average load they compare with and in the ring lookup
    ([ring_[hash]], whose missing entry is a null pointer, against
    [ring.at(hash)], which throws); [missing] is the result of a failed
    lookup.  The walk returns the final value of [count] with its result. *)
Fixpoint placement_walk (fuel : nat) (missing : exn)
    (ring : gmap N string) (sorted_set : list N) (avg_load : extended) (part_id : nat)
    (count idx : nat) (partitions : gmap nat string) (loads : gmap string nat)
    : nat * result (gmap nat string * gmap string nat) :=
  match fuel with
  | 0 => (count, OutOfFuel)
  | S fuel =>
    let count := S count in
    if length sorted_set <=? count then (count, Throw InsufficientSpaceException)
    else
      match sorted_set !! idx with
      | None => (count, Throw Undefined)
      | Some hash =>
        match ring !! hash with
        | None => (count, Throw missing)
        | Some member =>
          (* loads[member->String()] creates the entry when it is absent *)
          let load := default 0 (loads !! member) in
          let loads := <[member := load]> loads in
          if fits load avg_load then
            (count, Ok (<[part_id := member]> partitions, <[member := S load]> loads))
          else
            placement_walk fuel missing ring sorted_set avg_load part_id
              count (next_index sorted_set idx) partitions loads
        end
      end
  end.

(** [for (part_id = 0; part_id < partition_count_; ++part_id) body], left
    by the first exception. *)
Fixpoint for_partitions {S : Type} (body : nat → S → result S) (ids : list nat) (s : S)
    : result S :=
  match ids with
  | [] => Ok s
  | part_id :: ids =>
    match body part_id s with
    | Ok s => for_partitions body ids s
    | Throw e => Throw e
    | OutOfFuel => OutOfFuel
    end
  end.

(** ** The ring ([consistent.h], [consistent.cpp]) *)

Section Ring.
Context {A : Type} `{Member A}.

Record Consistent : Type := mkConsistent {
  config_ : Config;
  sorted_set_ : list N;
  partition_count_ : nat;
  loads_ : gmap string nat;
  members_ : gmap string A;
  partitions_ : gmap nat string;
  ring_ : gmap N string;
}.

(** What a mutator leaves: the state after a normal return, or the state at
    the point where an exception escaped. *)
Inductive outcome : Type :=
  | Returned (c : Consistent)
  | Raised (e : exn) (c : Consistent)
  | Stuck.

(** [config_.hasher->Sum64(...)].  The hasher is checked by [ValidateConfig]
    before the first use. *)
Definition hash_bytes (c : Consistent) (data : list byte) : N :=
  match hasher (config_ c) with Some h => Sum64 h data | None => 0%N end.
Definition hash_string (c : Consistent) (data : string) : N :=
  match hasher (config_ c) with Some h => Sum64_string h data | None => 0%N end.

Definition BuildVirtualNodeKey (member_str : string) (index : nat) : list byte :=
  String.list_byte_of_string member_str ++ String.list_byte_of_string (to_string (N.of_nat index)).

(** The hashes [h] of the loop [for (i = 0; i < replication_factor; ++i)],
    in the order of the loop. *)
Definition vnode_hashes (c : Consistent) (member_name : string) : list N :=
  (λ i, hash_bytes c (BuildVirtualNodeKey member_name i))
    <$> seq 0 (replication_factor (config_ c)).

(** [ring[h] = member] for each hash, in order. *)
Definition ring_insert_all (member_name : string) (hs : list N) (ring : gmap N string)
    : gmap N string :=
  foldl (λ r h, <[h := member_name]> r) ring hs.

Definition ValidateConfig (member_count : nat) (config : Config) : result unit :=
  match hasher config with
  | None => Throw InvalidArgument
  | Some _ =>
    if member_count =? 0 then Ok tt
    else
      let avg_load :=
        double_mul
          (double_div (double_of_nat (partition_count config)) (double_of_nat member_count))
          (load config) in
      let max_load := ext_ceil (double_value avg_load) in
      if ext_lt (ext_fin (Qnat (replication_factor config) * 2)) max_load
      then Throw InvalidArgument
      else Ok tt
  end.

Definition AverageLoad (c : Consistent) : double :=
  if decide (members_ c = ∅) then S754_zero false
  else
    double_mul
      (double_div (double_of_nat (partition_count_ c)) (double_of_nat (size (members_ c))))
      (load (config_ c)).

Definition DistributeWithLoad (c : Consistent) (part_id idx : nat)
    (partitions : gmap nat string) (loads : gmap string nat)
    : nat * result (gmap nat string * gmap string nat) :=
  placement_walk (S (length (sorted_set_ c))) Undefined (ring_ c) (sorted_set_ c)
    (double_value (AverageLoad c)) part_id 0 idx partitions loads.

(** One iteration of the loop of [DistributePartitions]. *)
Definition DistributePartitions_walk (c : Consistent) (part_id : nat)
    (s : gmap nat string * gmap string nat)
    : nat * result (gmap nat string * gmap string nat) :=
  let bs := partition_bytes part_id in
  let key := hash_bytes c bs in
  let idx := start_index (sorted_set_ c) key in
  DistributeWithLoad c part_id idx s.1 s.2.

Definition DistributePartitions_body (c : Consistent) (part_id : nat)
    (s : gmap nat string * gmap string nat) : result (gmap nat string * gmap string nat) :=
  (DistributePartitions_walk c part_id s).2.

Definition DistributePartitions (c : Consistent) : result Consistent :=
  match for_partitions (DistributePartitions_body c) (seq 0 (partition_count_ c)) (∅, ∅) with
  | Ok (partitions, loads) =>
    Ok (mkConsistent (config_ c) (sorted_set_ c) (partition_count_ c) loads
          (members_ c) partitions (ring_ c))
  | Throw e => Throw e
  | OutOfFuel => OutOfFuel
  end.

(** The placement cap of the add/remove path: [std::ceil] of the average. *)
Definition ceil_avg_load (c : Consistent) (member_count : nat) : extended :=
  ext_ceil
    (double_value
       (double_mul
          (double_div (double_of_nat (partition_count_ c)) (double_of_nat member_count))
          (load (config_ c)))).

(** One iteration of the outer loop of
    [CalculatePartitionsWithRingAndMemberCount]. *)
Definition CalculatePartitions_walk (c : Consistent) (ring : gmap N string)
    (sorted_set : list N) (avg_load : extended) (part_id : nat)
    (s : gmap nat string * gmap string nat)
    : nat * result (gmap nat string * gmap string nat) :=
  let bs := partition_bytes part_id in
  let key := hash_bytes c bs in
  let idx := start_index sorted_set key in
  placement_walk (S (length sorted_set)) OutOfRange ring sorted_set avg_load part_id
    0 idx s.1 s.2.

Definition CalculatePartitions_body (c : Consistent) (ring : gmap N string)
    (sorted_set : list N) (avg_load : extended) (part_id : nat)
    (s : gmap nat string * gmap string nat) : result (gmap nat string * gmap string nat) :=
  (CalculatePartitions_walk c ring sorted_set avg_load part_id s).2.

Definition CalculatePartitionsWithRingAndMemberCount (c : Consistent)
    (ring : gmap N string) (sorted_set : list N) (member_count : nat)
    : result (gmap nat string * gmap string nat) :=
  if member_count =? 0 then Ok (∅, ∅)
  else
    for_partitions
      (CalculatePartitions_body c ring sorted_set (ceil_avg_load c member_count))
      (seq 0 (partition_count_ c)) (∅, ∅).

Definition InitMember (member : A) (c : Consistent) : Consistent :=
  let member_name := Member_String member in
  let hs := vnode_hashes c member_name in
  mkConsistent (config_ c) (sort (sorted_set_ c ++ hs)) (partition_count_ c) (loads_ c)
    (<[member_name := member]> (members_ c)) (partitions_ c)
    (ring_insert_all member_name hs (ring_ c)).

(** The constructor. *)
Definition Consistent_new (members : list A) (config : Config) : result Consistent :=
  let config :=
    mkConfig (hasher config)
      (if partition_count config =? 0 then DEFAULT_PARTITION_COUNT else partition_count config)
      (if replication_factor config =? 0 then DEFAULT_REPLICATION_FACTOR
       else replication_factor config)
      (if double_is_zero (load config) then DEFAULT_LOAD else load config) in
  match ValidateConfig (length members) config with
  | Throw e => Throw e
  | OutOfFuel => OutOfFuel
  | Ok _ =>
    let c0 := mkConsistent config [] (partition_count config) ∅ ∅ ∅ ∅ in
    let c := foldl (λ c member, InitMember (Clone member) c) c0 members in
    match members with
    | [] => Ok c
    | _ :: _ => DistributePartitions c
    end
  end.

Definition AddToRing (member_name : string) (c : Consistent) : Consistent :=
  let hs := vnode_hashes c member_name in
  mkConsistent (config_ c) (sort (sorted_set_ c ++ hs)) (partition_count_ c) (loads_ c)
    (members_ c) (partitions_ c) (ring_insert_all member_name hs (ring_ c)).

(** The first statement is [std::shared_lock lock(mutex_)]. *)
Definition CalculatePartitionsWithNewMember (owned : ownership) (member_name : string)
    (c : Consistent) : result (gmap nat string * gmap string nat) :=
  match shared_lock owned with
  | Throw e => Throw e
  | OutOfFuel => OutOfFuel
  | Ok _ =>
    match members_ c !! member_name with
    | None => Ok (partitions_ c, loads_ c)
    | Some _ =>
      let hs := vnode_hashes c member_name in
      let temp_ring := ring_insert_all member_name hs (ring_ c) in
      let temp_sorted_set := sort (sorted_set_ c ++ hs) in
      let new_member_count := size (members_ c) in
      CalculatePartitionsWithRingAndMemberCount c temp_ring temp_sorted_set new_member_count
    end
  end.

(** [Add] holds its [std::unique_lock] from the second check of the
    registry to its end, the call of [CalculatePartitionsWithNewMember]
    included. *)
Definition Add (member : A) (c : Consistent) : outcome :=
  let member_name := Member_String member in
  match members_ c !! member_name with
  | Some _ => Returned c
  | None =>
    let c1 := mkConsistent (config_ c) (sorted_set_ c) (partition_count_ c) (loads_ c)
                (<[member_name := member]> (members_ c)) (partitions_ c) (ring_ c) in
    let c2 := AddToRing member_name c1 in
    match CalculatePartitionsWithNewMember OwnedExclusive member_name c2 with
    | Ok (new_partitions, new_loads) =>
      Returned (mkConsistent (config_ c2) (sorted_set_ c2) (partition_count_ c2) new_loads
                  (members_ c2) new_partitions (ring_ c2))
    | Throw e => Raised e c2
    | OutOfFuel => Stuck
    end
  end.

Definition CalculatePartitionsWithoutMember (member_name : string) (c : Consistent)
    : result (gmap nat string * gmap string nat) :=
  let hashes_to_delete : gset N := list_to_set (vnode_hashes c member_name) in
  let temp_ring := filter (λ kv, kv.1 ∉ hashes_to_delete) (ring_ c) in
  let temp_sorted_set := sort ((map_to_list temp_ring).*1) in
  CalculatePartitionsWithRingAndMemberCount c temp_ring temp_sorted_set
    (size (members_ c) - 1).

Definition DelSlice (val : N) (sorted_set : list N) : list N :=
  let i := lower_bound sorted_set val in
  match sorted_set !! i with
  | Some x => if (x =? val)%N then delete i sorted_set else sorted_set
  | None => sorted_set
  end.

Definition RemoveFromRing (name : string) (c : Consistent) : Consistent :=
  let hs := vnode_hashes c name in
  mkConsistent (config_ c) (foldl (λ s h, DelSlice h s) (sorted_set_ c) hs)
    (partition_count_ c) (loads_ c) (members_ c) (partitions_ c)
    (foldl (λ r h, delete h r) (ring_ c) hs).

Definition RemoveByName (name : string) (c : Consistent) : outcome :=
  match members_ c !! name with
  | None => Returned c
  | Some _ =>
    match CalculatePartitionsWithoutMember name c with
    | Throw e => Raised e c
    | OutOfFuel => Stuck
    | Ok (new_partitions, new_loads) =>
      let c1 := RemoveFromRing name c in
      let last := size (members_ c1) =? 1 in
      Returned (mkConsistent (config_ c1) (sorted_set_ c1) (partition_count_ c1)
                  (if last then ∅ else new_loads)
                  (delete name (members_ c1))
                  (if last then ∅ else new_partitions)
                  (ring_ c1))
    end
  end.

Definition Remove (member : A) (c : Consistent) : outcome := RemoveByName (Member_String member) c.

(** *** Queries *)

Definition GetPartitionID (c : Consistent) (key : list byte) : nat :=
  N.to_nat (hash_bytes c key mod N.of_nat (partition_count_ c))%N.
Definition GetPartitionID_string (c : Consistent) (key : string) : nat :=
  N.to_nat (hash_string c key mod N.of_nat (partition_count_ c))%N.

Definition GetPartitionOwner (c : Consistent) (part_id : nat) : option string :=
  partitions_ c !! part_id.

Definition LocateKey (c : Consistent) (key : list byte) : option string :=
  if decide (ring_ c = ∅) then None
  else GetPartitionOwner c (GetPartitionID c key).
Definition LocateKey_string (c : Consistent) (key : string) : option string :=
  if decide (ring_ c = ∅) then None
  else GetPartitionOwner c (GetPartitionID_string c key).

(** The loop of [GetClosestN(int, int)]. *)
Fixpoint GetClosestN_loop (fuel : nat) (c : Consistent) (count : nat)
    (result_ : list string) (seen : gset string) (idx : nat) : result (list string) :=
  match fuel with
  | 0 => OutOfFuel
  | S fuel =>
    if (length result_ <? count) && (size seen <? size (members_ c)) then
      match sorted_set_ c !! idx with
      | None => Throw Undefined
      | Some hash =>
        match ring_ c !! hash with
        | None => Throw OutOfRange
        | Some member =>
          let member_key := member in
          if decide (member_key ∈ seen) then
            GetClosestN_loop fuel c count result_ seen (next_index (sorted_set_ c) idx)
          else
            GetClosestN_loop fuel c count (result_ ++ [member]) ({[member_key]} ∪ seen)
              (next_index (sorted_set_ c) idx)
        end
      end
    else Ok result_
  end.

Definition GetClosestN_part (fuel : nat) (c : Consistent) (part_id count : nat)
    : result (list string) :=
  if size (members_ c) <? count then Throw InsufficientMemberCountException
  else
    match sorted_set_ c with
    | [] => Throw InsufficientMemberCountException
    | _ :: _ =>
      match GetPartitionOwner c part_id with
      | None => Throw InsufficientMemberCountException
      | Some owner =>
        let owner_key := hash_string c owner in
        let start_idx := start_index (sorted_set_ c) owner_key in
        GetClosestN_loop fuel c count [] ∅ start_idx
      end
    end.

(** [count] is an [int] and may be negative or zero. *)
Definition GetClosestN (fuel : nat) (c : Consistent) (key : list byte) (count : Z)
    : result (list string) :=
  if (count <=? 0)%Z then Ok []
  else if (Z.of_nat (size (members_ c)) <? count)%Z then Throw InsufficientMemberCountException
  else GetClosestN_part fuel c (GetPartitionID c key) (Z.to_nat count).
Definition GetClosestN_string (fuel : nat) (c : Consistent) (key : string) (count : Z)
    : result (list string) :=
  if (count <=? 0)%Z then Ok []
  else if (Z.of_nat (size (members_ c)) <? count)%Z then Throw InsufficientMemberCountException
  else GetClosestN_part fuel c (GetPartitionID_string c key) (Z.to_nat count).

Definition LoadDistribution (c : Consistent) : gmap string nat := loads_ c.
Definition GetAverageLoad (c : Consistent) : double := AverageLoad c.

(** The states of a ring object: built by the constructor, then changed by
    [Add] and [RemoveByName], whether they return or raise. *)
Inductive reachable : Consistent → Prop :=
  | reachable_new members config c :
      Consistent_new members config = Ok c → reachable c
  | reachable_Add_returned member c c' :
      reachable c → Add member c = Returned c' → reachable c'
  | reachable_Add_raised member e c c' :
      reachable c → Add member c = Raised e c' → reachable c'
  | reachable_Remove_returned name c c' :
      reachable c → RemoveByName name c = Returned c' → reachable c'
  | reachable_Remove_raised name e c c' :
      reachable c → RemoveByName name c = Raised e c' → reachable c'.

(** What every state of a ring object satisfies: the defaults have been
    applied, a ring with members has virtual nodes, and a ring without
    members has no partition table. *)
Definition ring_invariant (c : Consistent) : Prop :=
  1 ≤ partition_count_ c
  ∧ 1 ≤ replication_factor (config_ c)
  ∧ (members_ c ≠ ∅ → ring_ c ≠ ∅)
  ∧ (members_ c = ∅ → partitions_ c = ∅).

End Ring.

Arguments Consistent A : clear implicits.
Arguments outcome A : clear implicits.

(** ** The cache of [GetMembers]

    The fields [cached_members_] and [members_dirty_] of the class take no
    part in the placement and are kept beside the state of the ring.  The
    constructor, [Add] and [RemoveByName] are the functions above, followed
    by the assignment to [members_dirty_] that their last statement makes. *)

Section Cache.
Context {A : Type} `{Member A}.

Record Cached : Type := mkCached {
  ring_state : Consistent A;
  cached_members_ : list string;       (* std::vector<Member*> *)
  members_dirty_ : bool;
}.

Inductive cached_outcome : Type :=
  | Returned_cached (s : Cached)
  | Raised_cached (e : exn) (s : Cached)
  | Stuck_cached.

(** The constructor leaves the cache empty and marked dirty (the initial
    value of [members_dirty_], set again by [InitMember]). *)
Definition Cached_new (members : list A) (config : Config) : result Cached :=
  match Consistent_new members config with
  | Ok c => Ok (mkCached c [] true)
  | Throw e => Throw e
  | OutOfFuel => OutOfFuel
  end.

(** [Add] sets [members_dirty_] in its last statement: not on the early
    return, and not when the placement has thrown. *)
Definition Add_cached (member : A) (s : Cached) : cached_outcome :=
  match members_ (ring_state s) !! Member_String member with
  | Some _ => Returned_cached s
  | None =>
    match Add member (ring_state s) with
    | Returned c => Returned_cached (mkCached c (cached_members_ s) true)
    | Raised e c => Raised_cached e (mkCached c (cached_members_ s) (members_dirty_ s))
    | Stuck => Stuck_cached
    end
  end.

Definition RemoveByName_cached (name : string) (s : Cached) : cached_outcome :=
  match members_ (ring_state s) !! name with
  | None => Returned_cached s
  | Some _ =>
    match RemoveByName name (ring_state s) with
    | Returned c => Returned_cached (mkCached c (cached_members_ s) true)
    | Raised e c => Raised_cached e (mkCached c (cached_members_ s) (members_dirty_ s))
    | Stuck => Stuck_cached
    end
  end.

(** [result.push_back(member->Clone())] for each cached pointer; a pointer
    to a member that has been erased dangles. *)
Fixpoint clone_cached (c : Consistent A) (cached : list string) : result (list A) :=
  match cached with
  | [] => Ok []
  | name :: cached =>
    match members_ c !! name with
    | None => Throw Undefined
    | Some member =>
      match clone_cached c cached with
      | Ok result_ => Ok (Clone member :: result_)
      | Throw e => Throw e
      | OutOfFuel => OutOfFuel
      end
    end
  end.

(** [GetMembers]: the clones, and the cache the call leaves.  The order in
    which [members_] is iterated is the order of [map_to_list]. *)
Definition GetMembers (s : Cached) : result (list A) * Cached :=
  if negb (members_dirty_ s) && negb (bool_decide (cached_members_ s = [])) then
    (clone_cached (ring_state s) (cached_members_ s), s)
  else
    let cached := (map_to_list (members_ (ring_state s))).*1 in
    (clone_cached (ring_state s) cached, mkCached (ring_state s) cached false).

End Cache.

Arguments Cached A : clear implicits.
Arguments cached_outcome A : clear implicits.

(** ** Quantities the properties are stated with *)



(** The sum of a load map. *)
Definition total_load (loads : gmap string nat) : nat :=
  map_fold (λ _ n acc, n + acc) 0 loads.

(** The load of a member, [0] when the map has no entry for it. *)
Definition load_of (loads : gmap string nat) (name : string) : nat :=
  default 0 (loads !! name).

(** The members found on the ring through the sorted array. *)
Definition ring_names (ring : gmap N string) (sorted_set : list N) : gset string :=
  list_to_set (omap (λ h, ring !! h) sorted_set).

(** The largest load a member can reach under [fits], for an average that
    is not [+∞]: its integer part, and 0 for a negative average, for [-∞]
    and for NaN, where no load fits.  Under [+∞] every load fits;
    [capacity] is 0 there, and what is stated with it says nothing. *)
Definition capacity (avg_load : extended) : nat :=
  match avg_load with
  | ext_fin q => Z.to_nat (Qfloor q)
  | _ => 0
  end.

(** The rational a finite double denotes, and 0 for the others. *)
Definition double_Q (x : double) : Q :=
  match double_value x with
  | ext_fin q => q
  | _ => 0
  end.

(** The cap of the specification, [⌈(P / M) · L⌉], in exact arithmetic. *)
Definition load_cap (P M : nat) (L : Q) : nat :=
  Z.to_nat (Qceiling (Qnat P / Qnat M * L)%Q).

(** Every entry of the sorted array has a ring entry. *)
Definition ring_covers (ring : gmap N string) (sorted_set : list N) : Prop :=
  Forall (λ h, is_Some (ring !! h)) sorted_set.

(** Every member on the ring is found at two entries of the sorted array at
    least. *)
Definition twice_on_ring (ring : gmap N string) (sorted_set : list N) : Prop :=
  Forall (λ h, 2 ≤ length (filter (λ h', ring !! h' = ring !! h) sorted_set)) sorted_set.

Global Instance ring_covers_dec ring sorted_set : Decision (ring_covers ring sorted_set).
Proof. unfold ring_covers. apply _. Defined.

Global Instance twice_on_ring_dec ring sorted_set :
  Decision (twice_on_ring ring sorted_set).
Proof. unfold twice_on_ring. apply _. Defined.

(** The body of the loop over the partitions, common to the two placement
    paths: a walk from the start index of the partition. *)
Definition walk_body (missing : exn) (ring : gmap N string) (sorted_set : list N)
    (avg_load : extended) (start : nat → nat) (part_id : nat)
    (s : gmap nat string * gmap string nat) : result (gmap nat string * gmap string nat) :=
  (placement_walk (S (length sorted_set)) missing ring sorted_set avg_load part_id 0
     (start part_id) s.1 s.2).2.





(** The invariant of the load map as the specification words it: in a ring
    with members, the loads sum to the partition count and none exceeds
    [⌈(P / M) · L⌉] for the current member count, [L] being the number the
    load factor denotes. *)
Definition loads_invariant {A : Type} (c : Consistent A) : Prop :=
  members_ c ≠ ∅ →
  total_load (loads_ c) = partition_count_ c
  ∧ ∀ name, load_of (loads_ c) name
            ≤ load_cap (partition_count_ c) (size (members_ c)) (double_Q (load (config_ c))).

(** The state of the loop of [GetClosestN]: the members collected so far
    are distinct, they are the members seen, and they are no more than
    asked for. *)
Definition collected (count : nat) (result_ : list string) (seen : gset string) : Prop :=
  NoDup result_ ∧ (∀ x, x ∈ result_ ↔ x ∈ seen)
  ∧ length result_ = size seen ∧ length result_ ≤ count.

(** The number of partitions the table gives to a member. *)
Definition partitions_owned (partitions : gmap nat string) (name : string) : nat :=
  length (filter (λ kv, kv.2 = name) (map_to_list partitions)).

Section RingQuantities.
Context {A : Type} `{Member A}.

(** No stale reference: the names held by the ring map, the partition table
    and the load map are registered, and a ring entry sits at one of the
    virtual-node hashes of its member. *)
Definition references_registered (c : Consistent A) : Prop :=
  (∀ h name, ring_ c !! h = Some name →
     is_Some (members_ c !! name) ∧ h ∈ vnode_hashes c name)
  ∧ (∀ p name, partitions_ c !! p = Some name → is_Some (members_ c !! name))
  ∧ (∀ name, is_Some (loads_ c !! name) → is_Some (members_ c !! name)).

(** The partition table has no entry outside [0, P) and the load map counts
    the entries of each member. *)
Definition table_matches_loads (c : Consistent A) : Prop :=
  (∀ p, is_Some (partitions_ c !! p) → p < partition_count_ c)
  ∧ (∀ name, load_of (loads_ c) name = partitions_owned (partitions_ c) name).

(** Every partition has an owner. *)
Definition table_total (c : Consistent A) : Prop :=
  ∀ p, p < partition_count_ c → is_Some (partitions_ c !! p).

(** The registered names, and the virtual-node hashes of all of them. *)
Definition member_names (c : Consistent A) : list string := (map_to_list (members_ c)).*1.

Definition vnodes_of_members (c : Consistent A) : list N :=
  member_names c ≫= vnode_hashes c.

(** The sorted array is sorted and holds the virtual-node hashes of the
    registered members, each as often as it is computed. *)
Definition sorted_set_invariant (c : Consistent A) : Prop :=
  StronglySorted N.le (sorted_set_ c) ∧ sorted_set_ c ≡ₚ vnodes_of_members c.

(** The cache is in step with the registry: a clean, non-empty cache lists
    the registered members. *)
Definition cache_coherent (s : Cached A) : Prop :=
  members_dirty_ s = false → cached_members_ s ≠ [] →
  cached_members_ s ≡ₚ member_names (ring_state s).

End RingQuantities.

(** The bit-by-bit CRC-64 with the reflected polynomial [CRC64_ISO_POLY]:
    each byte is xor-ed into the register, which then takes eight turns of
    shift and conditional xor. *)
Definition crc64_bitwise (data : list byte) : N :=
  N.lxor
    (foldl (λ crc b, Nat.iter 8 crc64_shift (N.lxor crc (Byte.to_N b)))
       0xFFFFFFFFFFFFFFFF%N data)
    0xFFFFFFFFFFFFFFFF.

(** The inverse of [FNV_PRIME] modulo [2^64]. *)
Definition FNV_PRIME_inverse : N := 14886173955864302971.

(** The number whose little-endian bytes are [data]. *)
Definition little_endian (data : list byte) : N :=
  foldr (λ b acc, N.lxor (Byte.to_N b) (N.shiftl acc 8)) 0%N data.

(** The character of the decimal digit [i < 10], and the digit itself. *)
Definition digit (i : nat) : byte := byte_of_N (48 + N.of_nat i).

Definition decimal_digit (j : N) : DecimalFacts.digits :=
  match j with
  | 0 => DecimalFacts.d0 | 1 => DecimalFacts.d1 | 2 => DecimalFacts.d2
  | 3 => DecimalFacts.d3 | 4 => DecimalFacts.d4 | 5 => DecimalFacts.d5
  | 6 => DecimalFacts.d6 | 7 => DecimalFacts.d7 | 8 => DecimalFacts.d8
  | _ => DecimalFacts.d9
  end%N.

(** ** Rings used as examples *)

Definition gateway (i : N) : GatewayMember :=
  mkGatewayMember ("gateway-" +:+ to_string i) ("192.168.1." +:+ to_string i) 8080.

Definition empty_ring (config : Config) : Consistent GatewayMember :=
  mkConsistent config [] (partition_count config) ∅ ∅ ∅ ∅.

Definition ring_of (r : result (Consistent GatewayMember)) (config : Config)
    : Consistent GatewayMember :=
  match r with Ok c => c | _ => empty_ring config end.

Definition state_of (o : outcome GatewayMember) (c : Consistent GatewayMember)
    : Consistent GatewayMember :=
  match o with Returned c' | Raised _ c' => c' | Stuck => c end.

(** How a call ended. *)
Definition is_Ok {T : Type} (r : result T) : bool :=
  match r with Ok _ => true | _ => false end.
Definition returns (o : outcome GatewayMember) : bool :=
  match o with Returned _ => true | _ => false end.
Definition raises (e : exn) (o : outcome GatewayMember) : bool :=
  match o with Raised e' _ => bool_decide (e' = e) | _ => false end.

Definition gateway_1 : string := "gateway-1:192.168.1.1:8080".
Definition gateway_2 : string := "gateway-2:192.168.1.2:8080".
Definition gateway_3 : string := "gateway-3:192.168.1.3:8080".
Definition gateway_9 : string := "gateway-9:192.168.1.9:8080".

(** Two gateways, two partitions, two virtual nodes each, load factor 1.25. *)
Definition config_2_2 : Config := mkConfig CreateFNVHasher 2 2 (double_ratio 5 4).
Definition ring_2_2 : Consistent GatewayMember :=
  ring_of (Consistent_new [gateway 1; gateway 2] config_2_2) config_2_2.

Definition ring_2_2_added : Consistent GatewayMember :=
  state_of (Add (gateway 9) ring_2_2) ring_2_2.
Definition ring_2_2_removed : Consistent GatewayMember :=
  state_of (RemoveByName (Member_String (gateway 9)) ring_2_2_added) ring_2_2_added.

(** An empty ring with four partitions, one virtual node per member and load
    factor 0.5. *)
Definition config_half : Config := mkConfig CreateFNVHasher 4 1 (double_ratio 1 2).
Definition ring_half : Consistent GatewayMember :=
  ring_of (Consistent_new [] config_half) config_half.
Definition ring_half_add : outcome GatewayMember := Add (gateway 1) ring_half.
Definition ring_half_1 : Consistent GatewayMember := state_of ring_half_add ring_half.

(** One member, four partitions, two virtual nodes, load factor 0.5. *)
Definition config_half_2 : Config := mkConfig CreateFNVHasher 4 2 (double_ratio 1 2).

(** One gateway, two partitions, two virtual nodes, load factor 1; then a
    second gateway added. *)
Definition config_whole : Config := mkConfig CreateFNVHasher 2 2 (double_of_Z 1).
Definition ring_whole : Consistent GatewayMember :=
  ring_of (Consistent_new [gateway 1] config_whole) config_whole.
Definition ring_whole_add : outcome GatewayMember := Add (gateway 2) ring_whole.
Definition ring_whole_2 : Consistent GatewayMember := state_of ring_whole_add ring_whole.

(** Two members that share a virtual node: the name of the first followed
    by the index 10 is the name of the second followed by the index 0.
    Two partitions, eleven virtual nodes each, load factor 1; then the first
    member removed. *)
Definition member_90 : GatewayMember := mkGatewayMember "gateway-2" "192.168.1.2" 90.
Definition member_901 : GatewayMember := mkGatewayMember "gateway-2" "192.168.1.2" 901.
Definition config_shared : Config := mkConfig CreateFNVHasher 2 11 (double_of_Z 1).
Definition ring_shared : Consistent GatewayMember :=
  ring_of (Consistent_new [member_90; member_901] config_shared) config_shared.
Definition ring_shared_removed : Consistent GatewayMember :=
  state_of (RemoveByName (Member_String member_90) ring_shared) ring_shared.

(** 47 gateways, 96 partitions, two virtual nodes each, load factor
    47/32 = 1.46875. *)
Definition config_47 : Config := mkConfig CreateFNVHasher 96 2 (double_ratio 47 32).
Definition gateways_47 : list GatewayMember := (λ i, gateway (N.of_nat i)) <$> seq 1 47.

(** The ring of two gateways with its cache, after a first [GetMembers],
    and after [Add] of a third gateway. *)
Definition cached_2_2 : Cached GatewayMember := (GetMembers (mkCached ring_2_2 [] true)).2.
Definition cached_2_2_added : Cached GatewayMember :=
  mkCached ring_2_2_added (cached_members_ cached_2_2) false.

(** The parameters of the reference scenario of the specification. *)
Definition config_7_4 : Config := mkConfig CreateFNVHasher 7 4 (double_ratio 5 4).

(** A decidable proposition proved by evaluation. *)
Ltac by_computation :=
  match goal with
  | |- ?P => apply (@bool_decide_unpack P _); vm_compute; exact I
  end.

(** ** Indices *)

Lemma lower_bound_le l val : lower_bound l val ≤ length l.
Proof. induction l as [|x l IH]; simpl; [lia|]. destruct (x <? val)%N; lia. Qed.

Lemma start_index_lt sorted_set key :
  sorted_set ≠ [] → start_index sorted_set key < length sorted_set.
Proof.
  intros Hne. unfold start_index.
  destruct (length sorted_set <=? lower_bound sorted_set key) eqn:E.
  - destruct sorted_set; [done | simpl; lia].
  - apply Nat.leb_gt in E. lia.
Qed.

Lemma next_index_lt sorted_set idx :
  sorted_set ≠ [] → next_index sorted_set idx < length sorted_set.
Proof.
  intros Hne. unfold next_index.
  destruct (length sorted_set <=? S idx) eqn:E.
  - destruct sorted_set; [done | simpl; lia].
  - apply Nat.leb_gt in E. lia.
Qed.

(** *** Sorted vectors *)

Lemma StronglySorted_sublist {T : Type} (R : relation T) (l1 l2 : list T) :
  l1 `sublist_of` l2 → StronglySorted R l2 → StronglySorted R l1.
Proof.
  induction 1 as [|x l1 l2 Hsub IH|x l1 l2 Hsub IH]; intros Hs; [done| |].
  - apply StronglySorted_inv in Hs as [Hs Hall]. constructor; [by apply IH|].
    apply Forall_forall. intros y Hy.
    apply (proj1 (Forall_forall _ _) Hall). revert Hy. by apply sublist_subseteq.
  - apply StronglySorted_inv in Hs as [Hs _]. by apply IH.
Qed.

Lemma sort_sorted l : StronglySorted N.le (sort l).
Proof. apply StronglySorted_merge_sort; apply _. Qed.

Lemma DelSlice_sorted val l : StronglySorted N.le l → StronglySorted N.le (DelSlice val l).
Proof.
  intros Hs. unfold DelSlice. destruct (l !! lower_bound l val) as [x|]; [|done].
  destruct (x =? val)%N; [|done].
  eapply StronglySorted_sublist; [apply sublist_delete | done].
Qed.

(** On a sorted vector [lower_bound] is the partition point that binary
    search finds: the elements below [val] are those before it. *)
Lemma lower_bound_partition l val :
  StronglySorted N.le l →
  ∀ i x, l !! i = Some x → (i < lower_bound l val ↔ (x < val)%N).
Proof.
  induction 1 as [|y l Hs IH Hall]; intros i x Hi; [done|].
  simpl. destruct (y <? val)%N eqn:E.
  - apply N.ltb_lt in E. destruct i as [|i]; simpl in Hi.
    + injection Hi as ->. split; [done | lia].
    + rewrite <- (IH i x Hi). lia.
  - apply N.ltb_ge in E. split; [lia|]. intros Hlt. exfalso.
    destruct i as [|i]; simpl in Hi.
    + injection Hi as ->. lia.
    + apply list_elem_of_lookup_2 in Hi.
      pose proof (proj1 (Forall_forall _ _) Hall x Hi). lia.
Qed.

(** ** The placement walk terminates within its bound *)

Section Walk.
Variables (missing : exn) (ring : gmap N string) (sorted_set : list N).
Variables (avg_load : extended) (part_id : nat) (partitions : gmap nat string).
Hypothesis missing_other : missing ≠ InsufficientSpaceException.

Lemma placement_walk_count fuel count idx loads :
  length sorted_set ≤ count + fuel → 1 ≤ fuel →
  (placement_walk fuel missing ring sorted_set avg_load part_id count idx partitions loads).2 ≠ OutOfFuel
  ∧ count < (placement_walk fuel missing ring sorted_set avg_load part_id count idx partitions loads).1
  ∧ ((placement_walk fuel missing ring sorted_set avg_load part_id count idx partitions loads).2 = Throw InsufficientSpaceException →
       (placement_walk fuel missing ring sorted_set avg_load part_id count idx partitions loads).1 = Nat.max (length sorted_set) (S count))
  ∧ ((placement_walk fuel missing ring sorted_set avg_load part_id count idx partitions loads).2 ≠ Throw InsufficientSpaceException →
       (placement_walk fuel missing ring sorted_set avg_load part_id count idx partitions loads).1 < length sorted_set).
Proof.
  revert count idx loads.
  induction fuel as [|fuel IH]; intros count idx loads Hfuel Hpos; [lia|].
  simpl. destruct (length sorted_set <=? S count) eqn:Hn.
  { apply Nat.leb_le in Hn. simpl. repeat split; try done; lia. }
  apply Nat.leb_gt in Hn.
  destruct (sorted_set !! idx) as [hash|]; simpl;
    [|repeat split; try done; lia].
  destruct (ring !! hash) as [member|]; simpl;
    [|repeat split; try done; try lia; by intros [= ->]].
  destruct (fits _ avg_load); simpl; [repeat split; try done; lia|].
  destruct (IH (S count) (next_index sorted_set idx)
              (<[member:=default 0 (loads !! member)]> loads)) as (H1 & H2 & H3 & H4);
    [lia | lia |].
  repeat split; [done | lia | | done].
  intros HIS. rewrite (H3 HIS). lia.
Qed.

Lemma placement_walk_outcome fuel count idx loads :
  ring_covers ring sorted_set → idx < length sorted_set →
  length sorted_set ≤ count + fuel → 1 ≤ fuel →
  (∃ s, (placement_walk fuel missing ring sorted_set avg_load part_id count idx partitions loads).2 = Ok s)
  ∨ (placement_walk fuel missing ring sorted_set avg_load part_id count idx partitions loads).2 = Throw InsufficientSpaceException.
Proof.
  unfold ring_covers. intros Hcov. revert count idx loads.
  induction fuel as [|fuel IH]; intros count idx loads Hidx Hfuel Hpos; [lia|].
  simpl. destruct (length sorted_set <=? S count) eqn:Hn; [by right|].
  apply Nat.leb_gt in Hn.
  destruct (lookup_lt_is_Some_2 sorted_set idx Hidx) as [hash Hhash]. rewrite Hhash.
  destruct (proj1 (Forall_forall _ _) Hcov hash) as [member Hm].
  { by eapply list_elem_of_lookup_2. }
  rewrite Hm. destruct (fits _ avg_load); [left; eauto|].
  apply IH; [|lia|lia]. apply next_index_lt. by intros ->.
Qed.


End Walk.

(** ** The partition key *)


Lemma testbit_land_255 (x j : N) :
  (j < 8)%N → N.testbit (N.land x 255) j = N.testbit x j.
Proof.
  intros Hj. rewrite N.land_spec.
  assert (N.testbit 255 j = true) as ->; [|by rewrite andb_true_r].
  assert (j = 0 ∨ j = 1 ∨ j = 2 ∨ j = 3 ∨ j = 4 ∨ j = 5 ∨ j = 6 ∨ j = 7)%N
    as Hcases by lia.
  repeat (destruct Hcases as [->|Hcases]; [reflexivity|]). by subst.
Qed.



(** ** Loads *)

Lemma capacity_fits load avg_load : S load ≤ capacity avg_load → fits load avg_load = true.
Proof.
  unfold fits, capacity. destruct avg_load as [| |q|]; simpl; [lia|lia| |done].
  intros Hle. apply Qle_bool_iff.
  assert (Z.of_nat load + 1 ≤ Qfloor q)%Z as Hz by lia.
  rewrite Zle_Qle in Hz. eapply Qle_trans; [exact Hz | apply Qfloor_le].
Qed.

Lemma fits_capacity load avg_load :
  avg_load ≠ ext_pos_inf → fits load avg_load = true ↔ S load ≤ capacity avg_load.
Proof.
  intros Hfin. split; [|apply capacity_fits].
  unfold fits, capacity. destruct avg_load as [| |q|]; simpl; [done|done| |done].
  rewrite Qle_bool_iff.
  intros Hle. apply Qfloor_resp_le in Hle. rewrite Qfloor_Z in Hle. lia.
Qed.

Lemma total_load_empty : total_load ∅ = 0.
Proof. unfold total_load. apply map_fold_empty. Qed.

Lemma total_load_insert_None (loads : gmap string nat) name v :
  loads !! name = None → total_load (<[name:=v]> loads) = v + total_load loads.
Proof.
  intros Hn. unfold total_load. apply (map_fold_insert_L (λ _ n acc, n + acc)); [|done].
  intros. lia.
Qed.

Lemma total_load_delete (loads : gmap string nat) name :
  total_load loads = load_of loads name + total_load (delete name loads).
Proof.
  unfold load_of. destruct (loads !! name) as [v|] eqn:Hv; simpl.
  - rewrite <- (insert_delete_id loads name v) at 1 by done.
    apply total_load_insert_None, lookup_delete_eq.
  - by rewrite delete_id.
Qed.

Lemma total_load_insert (loads : gmap string nat) name v :
  total_load (<[name:=v]> loads) + load_of loads name = v + total_load loads.
Proof.
  rewrite (total_load_delete loads name).
  rewrite <- (insert_delete_eq loads name v).
  rewrite total_load_insert_None by apply lookup_delete_eq. lia.
Qed.

Lemma load_of_insert (loads : gmap string nat) name v x :
  load_of (<[name:=v]> loads) x = if decide (x = name) then v else load_of loads x.
Proof.
  unfold load_of. destruct (decide (x = name)) as [->|Hne].
  - by rewrite lookup_insert_eq.
  - by rewrite lookup_insert_ne.
Qed.

Lemma load_of_empty name : load_of ∅ name = 0.
Proof. unfold load_of. by rewrite lookup_empty. Qed.

Lemma total_load_lt_ex cap (X : gset string) :
  ∀ loads, total_load loads < size X * cap → ∃ x, x ∈ X ∧ load_of loads x < cap.
Proof.
  induction X as [|x X Hx IH] using set_ind_L; intros loads Hlt.
  - rewrite size_empty in Hlt. lia.
  - rewrite size_union, size_singleton in Hlt by set_solver.
    destruct (decide (load_of loads x < cap)) as [Hl|Hl].
    + exists x. split; [set_solver | done].
    + destruct (IH (delete x loads)) as (y & Hy & Hly).
      { rewrite (total_load_delete loads x) in Hlt. lia. }
      exists y. split; [set_solver|].
      unfold load_of in *. rewrite lookup_delete_ne in Hly; [done|]. by intros ->.
Qed.

Lemma elem_of_ring_names ring sorted_set x :
  x ∈ ring_names ring sorted_set ↔ ∃ h, h ∈ sorted_set ∧ ring !! h = Some x.
Proof. unfold ring_names. rewrite elem_of_list_to_set, list_elem_of_omap. done. Qed.

Lemma filter_length_two {T : Type} (P : T → Prop) `{∀ x, Decision (P x)} (l : list T) :
  2 ≤ length (filter P l) →
  ∃ i1 i2 x1 x2, i1 < i2 ∧ l !! i1 = Some x1 ∧ P x1 ∧ l !! i2 = Some x2 ∧ P x2.
Proof.
  induction l as [|a l IH]; [simpl; lia|].
  rewrite filter_cons. destruct (decide (P a)) as [Ha|Ha].
  - simpl. intros Hlen.
    destruct (filter P l) as [|b l'] eqn:Hf; [simpl in Hlen; lia|].
    assert (b ∈ filter P l) as Hb by (rewrite Hf; left).
    apply list_elem_of_filter in Hb as [HPb Hin].
    apply list_elem_of_lookup in Hin as [i Hi].
    exists 0, (S i), a, b. repeat split; [lia | done..].
  - intros Hlen. destruct (IH Hlen) as (i1 & i2 & x1 & x2 & Hlt & H1 & HP1 & H2 & HP2).
    exists (S i1), (S i2), x1, x2. repeat split; [lia | done..].
Qed.

Lemma iter_next_index sorted_set idx j :
  idx < length sorted_set → j < length sorted_set →
  Nat.iter j (next_index sorted_set) idx
  = if idx + j <? length sorted_set then idx + j else idx + j - length sorted_set.
Proof.
  intros Hidx. induction j as [|j IH]; intros Hj.
  - simpl. destruct (idx + 0 <? length sorted_set) eqn:E;
      [lia | apply Nat.ltb_ge in E; lia].
  - simpl. rewrite IH by lia. unfold next_index.
    destruct (idx + j <? length sorted_set) eqn:E1;
      [apply Nat.ltb_lt in E1 | apply Nat.ltb_ge in E1];
    destruct (idx + S j <? length sorted_set) eqn:E2;
      [apply Nat.ltb_lt in E2 | apply Nat.ltb_ge in E2 |
       apply Nat.ltb_lt in E2 | apply Nat.ltb_ge in E2];
    match goal with |- context [?a <=? ?b] => destruct (a <=? b) eqn:E3 end;
      [apply Nat.leb_le in E3 | apply Nat.leb_gt in E3 |
       apply Nat.leb_le in E3 | apply Nat.leb_gt in E3 |
       apply Nat.leb_le in E3 | apply Nat.leb_gt in E3 |
       apply Nat.leb_le in E3 | apply Nat.leb_gt in E3]; lia.
Qed.

(** Every position is reached from [idx] within one turn of the ring; the
    last position of the turn is the one before [idx]. *)
Lemma reach_position sorted_set idx i :
  idx < length sorted_set → i < length sorted_set →
  ∃ j, j < length sorted_set
       ∧ Nat.iter j (next_index sorted_set) idx = i
       ∧ (S j = length sorted_set → S i = idx ∨ (idx = 0 ∧ S i = length sorted_set)).
Proof.
  intros Hidx Hi. exists (if idx <=? i then i - idx else length sorted_set - idx + i).
  destruct (idx <=? i) eqn:E; [apply Nat.leb_le in E | apply Nat.leb_gt in E].
  - split; [lia|]. rewrite iter_next_index by lia.
    destruct (idx + (i - idx) <? length sorted_set) eqn:E3;
      [apply Nat.ltb_lt in E3 | apply Nat.ltb_ge in E3]; split; lia.
  - split; [lia|]. rewrite iter_next_index by lia.
    destruct (idx + (length sorted_set - idx + i) <? length sorted_set) eqn:E3;
      [apply Nat.ltb_lt in E3 | apply Nat.ltb_ge in E3]; split; lia.
Qed.

(** Of two distinct positions, one is reached from [idx] in fewer than
    [|sorted array| - 1] steps. *)
Lemma reach_one_of_two sorted_set idx i1 i2 :
  idx < length sorted_set → i1 < i2 → i2 < length sorted_set →
  ∃ j, S j < length sorted_set
       ∧ (Nat.iter j (next_index sorted_set) idx = i1
          ∨ Nat.iter j (next_index sorted_set) idx = i2).
Proof.
  intros Hidx H12 H2.
  destruct (reach_position sorted_set idx i1) as (j1 & Hj1 & Hp1 & Hs1); [done|lia|].
  destruct (reach_position sorted_set idx i2) as (j2 & Hj2 & Hp2 & Hs2); [done|lia|].
  destruct (decide (S j1 = length sorted_set)) as [He|Hne].
  - exists j2. split; [|by right]. specialize (Hs1 He).
    destruct (decide (S j2 = length sorted_set)) as [He2|]; [|lia].
    specialize (Hs2 He2). lia.
  - exists j1. split; [lia | by left].
Qed.

Lemma total_load_zero (loads : gmap string nat) :
  (∀ x, load_of loads x = 0) → total_load loads = 0.
Proof.
  induction loads as [|k v m Hk _ IH] using map_first_key_ind.
  - intros _. apply total_load_empty.
  - intros Hall. rewrite total_load_insert_None by done.
    pose proof (Hall k) as Hv. rewrite load_of_insert, decide_True in Hv by done.
    rewrite IH; [lia|]. intros x. specialize (Hall x). rewrite load_of_insert in Hall.
    case_decide; [|done]. subst. unfold load_of. by rewrite Hk.
Qed.

Lemma total_load_le cap (X : gset string) :
  ∀ loads, (∀ x, x ∉ X → load_of loads x = 0) → (∀ x, load_of loads x ≤ cap) →
    total_load loads ≤ size X * cap.
Proof.
  induction X as [|x X Hx IH] using set_ind_L; intros loads Hout Hcap.
  - rewrite total_load_zero; [lia|]. intros x. apply Hout. apply not_elem_of_empty.
  - rewrite size_union, size_singleton by (by apply disjoint_singleton_l).
    rewrite (total_load_delete loads x).
    assert (total_load (delete x loads) ≤ size X * cap) as Hrest.
    { apply IH.
      - intros y Hy. unfold load_of. destruct (decide (y = x)) as [->|Hne].
        + by rewrite lookup_delete_eq.
        + rewrite lookup_delete_ne by done. apply Hout.
          intros [?%elem_of_singleton|?]%elem_of_union; done.
      - intros y. unfold load_of. destruct (decide (y = x)) as [->|Hne].
        + rewrite lookup_delete_eq. simpl. lia.
        + rewrite lookup_delete_ne by done. apply Hcap. }
    specialize (Hcap x). lia.
Qed.

(** ** The placement engine *)

Section Engine.
Variables (missing : exn) (ring : gmap N string) (sorted_set : list N) (avg_load : extended).

(** What a walk that assigns has done to the tables. *)
Lemma placement_walk_Ok part_id fuel count idx partitions loads cnt partitions' loads' :
  placement_walk fuel missing ring sorted_set avg_load part_id count idx partitions loads
  = (cnt, Ok (partitions', loads')) →
  ∃ member,
    member ∈ ring_names ring sorted_set
    ∧ fits (load_of loads member) avg_load = true
    ∧ partitions' = <[part_id:=member]> partitions
    ∧ (∀ x, load_of loads' x
            = if decide (x = member) then S (load_of loads x) else load_of loads x)
    ∧ total_load loads' = S (total_load loads).
Proof.
  revert count idx loads. induction fuel as [|fuel IH]; intros count idx loads; [done|].
  simpl. destruct (length sorted_set <=? S count); [done|].
  destruct (sorted_set !! idx) as [hash|] eqn:Hhash; [|done].
  destruct (ring !! hash) as [member|] eqn:Hmember; [|done].
  assert (member ∈ ring_names ring sorted_set) as Hin.
  { apply elem_of_ring_names. exists hash. split; [|done].
    by eapply list_elem_of_lookup_2. }
  fold (load_of loads member).
  assert (∀ x, load_of (<[member:=load_of loads member]> loads) x = load_of loads x)
    as Hsame.
  { intros x. rewrite load_of_insert. by case_decide; subst. }
  assert (total_load (<[member:=load_of loads member]> loads) = total_load loads)
    as Htotal.
  { pose proof (total_load_insert loads member (load_of loads member)). lia. }
  destruct (fits (load_of loads member) avg_load) eqn:Hfits.
  - intros [= Hc <- <-]. exists member.
    split; [done|]. split; [|split; [done|split]].
    + done.
    + intros x. rewrite load_of_insert. case_decide; [by subst|]. apply Hsame.
    + pose proof (total_load_insert (<[member:=load_of loads member]> loads) member
                    (S (load_of loads member))) as Hi.
      rewrite Hsame, Htotal in Hi. lia.
  - intros Hrec. apply IH in Hrec as (m & H1 & H2 & H3 & H4 & H5).
    exists m. rewrite Hsame in H2. rewrite Htotal in H5.
    split; [done|]. split; [done|]. split; [done|]. split; [|done].
    intros x. rewrite H4, !Hsame. done.
Qed.

(** A walk that meets, within its bound, a member below the cap assigns. *)
Lemma placement_walk_finds part_id partitions j :
  ring_covers ring sorted_set →
  ∀ fuel count idx loads,
    idx < length sorted_set → length sorted_set ≤ count + fuel →
    S count + j < length sorted_set →
    (∃ h member, sorted_set !! Nat.iter j (next_index sorted_set) idx = Some h
                 ∧ ring !! h = Some member
                 ∧ fits (load_of loads member) avg_load = true) →
    ∃ s, (placement_walk fuel missing ring sorted_set avg_load part_id count idx
            partitions loads).2 = Ok s.
Proof.
  intros Hcov. induction j as [|j IH]; intros fuel count idx loads Hidx Hfuel Hj Hex.
  - destruct Hex as (h & member & Hh & Hm & Hfit). simpl in Hh.
    destruct fuel as [|fuel]; [lia|]. simpl.
    destruct (length sorted_set <=? S count) eqn:E; [apply Nat.leb_le in E; lia|].
    rewrite Hh, Hm. fold (load_of loads member).
    rewrite Hfit. eauto.
  - destruct fuel as [|fuel]; [lia|]. simpl.
    destruct (length sorted_set <=? S count) eqn:E; [apply Nat.leb_le in E; lia|].
    destruct (lookup_lt_is_Some_2 sorted_set idx Hidx) as [h0 Hh0]. rewrite Hh0.
    destruct (proj1 (Forall_forall _ _) Hcov h0) as [m0 Hm0].
    { by eapply list_elem_of_lookup_2. }
    rewrite Hm0. fold (load_of loads m0).
    destruct (fits (load_of loads m0) avg_load); [eauto|].
    apply IH; [|lia|lia|].
    + apply next_index_lt. intros ->. simpl in Hidx. lia.
    + destruct Hex as (h & member & Hh & Hm & Hfit).
      rewrite Nat.iter_succ_r in Hh. exists h, member.
      split; [done|]. split; [done|].
      rewrite load_of_insert. by case_decide; subst.
Qed.

Variable start : nat → nat.

Lemma for_partitions_loads ids :
  ∀ s s', for_partitions (walk_body missing ring sorted_set avg_load start) ids s = Ok s' →
    total_load s'.2 = total_load s.2 + length ids
    ∧ (avg_load ≠ ext_pos_inf → (∀ x, load_of s.2 x ≤ capacity avg_load) →
       ∀ x, load_of s'.2 x ≤ capacity avg_load).
Proof.
  induction ids as [|p ids IH]; intros s s'.
  - simpl. intros [= <-]. split; [lia | done].
  - simpl. unfold walk_body at 1.
    destruct (placement_walk (S (length sorted_set)) missing ring sorted_set avg_load p 0
                (start p) s.1 s.2) as [cnt [[parts1 loads1]|e|]] eqn:Hw;
      simpl; [|done|done].
    apply placement_walk_Ok in Hw as (m & _ & Hcap & _ & Hload & Htotal).
    intros Hrest. apply IH in Hrest as [Ht Hb]. simpl in Ht, Hb. split.
    + rewrite Ht, Htotal. lia.
    + intros Hfin Hall. apply Hb; [done|]. intros x. rewrite Hload.
      case_decide; [subst; by apply fits_capacity|apply Hall].
Qed.

Lemma for_partitions_succeeds ids :
  ring_covers ring sorted_set → twice_on_ring ring sorted_set →
  (∀ p, start p < length sorted_set) →
  ∀ s, total_load s.2 + length ids ≤ size (ring_names ring sorted_set) * capacity avg_load →
    ∃ s', for_partitions (walk_body missing ring sorted_set avg_load start) ids s = Ok s'.
Proof.
  intros Hcov Htwice Hstart. induction ids as [|p ids IH]; intros s Hroom; [simpl; eauto|].
  simpl in Hroom.
  destruct (total_load_lt_ex (capacity avg_load) (ring_names ring sorted_set) s.2)
    as (x & Hx & Hload); [lia|].
  apply elem_of_ring_names in Hx as (h & Hh & Hhx).
  pose proof (proj1 (Forall_forall _ _) Htwice h Hh) as H2.
  apply filter_length_two in H2
    as (i1 & i2 & h1 & h2 & Hlt & Hi1 & Hp1 & Hi2 & Hp2).
  rewrite Hhx in Hp1, Hp2.
  pose proof (lookup_lt_Some _ _ _ Hi2) as Hi2lt.
  destruct (reach_one_of_two sorted_set (start p) i1 i2) as (j & Hj & Hpos);
    [apply Hstart | done | done |].
  destruct (placement_walk_finds p s.1 j Hcov (S (length sorted_set)) 0 (start p) s.2)
    as [[parts1 loads1] Hw]; [apply Hstart | lia | lia | |].
  { apply capacity_fits in Hload. destruct Hpos as [-> | ->]; eauto 10. }
  simpl. unfold walk_body at 1. rewrite Hw.
  destruct (placement_walk (S (length sorted_set)) missing ring sorted_set avg_load p 0
              (start p) s.1 s.2) as [cnt r] eqn:Hwalk.
  simpl in Hw. subst r.
  apply placement_walk_Ok in Hwalk as (m & _ & _ & _ & _ & Htotal).
  apply IH. simpl. lia.
Qed.

End Engine.

(** ** The placement engine without room *)

Section EngineFailure.
Variables (missing : exn) (ring : gmap N string) (sorted_set : list N) (avg_load : extended).
Variable start : nat → nat.

Lemma for_partitions_support ids :
  ∀ s s', for_partitions (walk_body missing ring sorted_set avg_load start) ids s = Ok s' →
    (∀ x, x ∉ ring_names ring sorted_set → load_of s.2 x = 0) →
    ∀ x, x ∉ ring_names ring sorted_set → load_of s'.2 x = 0.
Proof.
  induction ids as [|p ids IH]; intros s s'.
  - simpl. by intros [= <-].
  - simpl. unfold walk_body at 1.
    destruct (placement_walk (S (length sorted_set)) missing ring sorted_set avg_load p 0
                (start p) s.1 s.2) as [cnt [[parts1 loads1]|e|]] eqn:Hw;
      simpl; [|done|done].
    apply placement_walk_Ok in Hw as (m & Hm & _ & _ & Hload & _).
    intros Hrest Hout. eapply IH; [exact Hrest|]. simpl.
    intros x Hx. rewrite Hload. case_decide; [by subst|by apply Hout].
Qed.

Lemma for_partitions_outcome ids :
  ring_covers ring sorted_set →
  (sorted_set ≠ [] → ∀ p, start p < length sorted_set) →
  ∀ s, (∃ s', for_partitions (walk_body missing ring sorted_set avg_load start) ids s = Ok s')
       ∨ for_partitions (walk_body missing ring sorted_set avg_load start) ids s
         = Throw InsufficientSpaceException.
Proof.
  intros Hcov Hstart. induction ids as [|p ids IH]; intros s; [simpl; eauto|].
  simpl. unfold walk_body at 1 3.
  destruct sorted_set as [|h0 l0] eqn:Hs; [by right|]. rewrite <- Hs in *.
  destruct (placement_walk_outcome missing ring sorted_set avg_load p s.1
              (S (length sorted_set)) 0 (start p) s.2) as [[s1 H1]|H1];
    [done | apply Hstart; by rewrite Hs | lia | lia | |].
  - rewrite H1. apply IH.
  - rewrite H1. by right.
Qed.

(** Without room for all partitions the placement raises InsufficientSpace. *)
Lemma for_partitions_fails P :
  ring_covers ring sorted_set →
  (sorted_set ≠ [] → ∀ p, start p < length sorted_set) →
  avg_load ≠ ext_pos_inf →
  size (ring_names ring sorted_set) * capacity avg_load < P →
  for_partitions (walk_body missing ring sorted_set avg_load start) (seq 0 P) (∅, ∅)
  = Throw InsufficientSpaceException.
Proof.
  intros Hcov Hstart Hfin Hroom.
  destruct (for_partitions_outcome (seq 0 P) Hcov Hstart (∅, ∅)) as [[s' Hs']|Hthrow];
    [|done].
  exfalso.
  pose proof (for_partitions_loads missing ring sorted_set avg_load start _ _ _ Hs')
    as [Ht Hb].
  pose proof (for_partitions_support _ _ _ Hs') as Hsup.
  simpl in Ht, Hb, Hsup. rewrite total_load_empty, length_seq in Ht.
  assert (total_load s'.2 ≤ size (ring_names ring sorted_set) * capacity avg_load);
    [|lia].
  apply total_load_le.
  - apply Hsup. intros x _. apply load_of_empty.
  - apply Hb; [done|]. intros x. rewrite load_of_empty. lia.
Qed.
End EngineFailure.


(** The loop over the partitions never runs out of fuel. *)
Lemma for_partitions_terminates missing ring sorted_set avg_load start ids :
  missing ≠ InsufficientSpaceException →
  ∀ s, for_partitions (walk_body missing ring sorted_set avg_load start) ids s ≠ OutOfFuel.
Proof.
  intros Hm. induction ids as [|p ids IH]; intros s; [done|].
  simpl. unfold walk_body at 1.
  destruct (placement_walk_count missing ring sorted_set avg_load p s.1 Hm
              (S (length sorted_set)) 0 (start p) s.2) as (Hfuel & _); [lia | lia |].
  destruct (placement_walk (S (length sorted_set)) missing ring sorted_set avg_load p 0
              (start p) s.1 s.2) as [cnt [s1|e|]]; simpl in *; [apply IH | done | done].
Qed.

(** ** What a walk does

    The walk assigns the partition to the first candidate with room. *)

Section WalkSpec.
Variables (missing : exn) (ring : gmap N string) (sorted_set : list N).
Variables (avg_load : extended) (part_id : nat) (partitions : gmap nat string).









End WalkSpec.

(** The owner the loop gives to each partition. *)
Section EngineOwner.
Variables (missing : exn) (ring : gmap N string) (sorted_set : list N) (avg_load : extended).
Variable start : nat → nat.
Hypothesis start_lt : sorted_set ≠ [] → ∀ p, start p < length sorted_set.

Lemma for_partitions_ext {S : Type} (body1 body2 : nat → S → result S) ids s :
  (∀ p s, body1 p s = body2 p s) →
  for_partitions body1 ids s = for_partitions body2 ids s.
Proof.
  intros Hext. revert s. induction ids as [|p ids IH]; intros s; [done|].
  simpl. rewrite Hext. by destruct (body2 p s).
Qed.




End EngineOwner.

(** ** The tables the loop over the partitions builds *)

Lemma partitions_owned_empty name : partitions_owned ∅ name = 0.
Proof. unfold partitions_owned. by rewrite map_to_list_empty. Qed.

Lemma partitions_owned_insert (partitions : gmap nat string) p member name :
  partitions !! p = None →
  partitions_owned (<[p:=member]> partitions) name
  = if decide (name = member) then S (partitions_owned partitions name)
    else partitions_owned partitions name.
Proof.
  intros Hp. unfold partitions_owned.
  rewrite (map_to_list_insert _ _ _ Hp). rewrite filter_cons. simpl.
  case_decide; case_decide; simpl; congruence.
Qed.

Section Engine2.
Variables (missing : exn) (ring : gmap N string) (sorted_set : list N) (avg_load : extended).

Lemma placement_walk_keys part_id fuel count idx partitions loads cnt partitions' loads' :
  placement_walk fuel missing ring sorted_set avg_load part_id count idx partitions loads
  = (cnt, Ok (partitions', loads')) →
  ∀ x, is_Some (loads' !! x) → is_Some (loads !! x) ∨ x ∈ ring_names ring sorted_set.
Proof.
  revert count idx loads. induction fuel as [|fuel IH]; intros count idx loads; [done|].
  simpl. destruct (length sorted_set <=? S count); [done|].
  destruct (sorted_set !! idx) as [hash|] eqn:Hhash; [|done].
  destruct (ring !! hash) as [member|] eqn:Hmember; [|done].
  assert (member ∈ ring_names ring sorted_set) as Hin.
  { apply elem_of_ring_names. exists hash. split; [|done].
    by eapply list_elem_of_lookup_2. }
  destruct (fits _ avg_load).
  - intros [= _ <- <-] x. rewrite !lookup_insert_is_Some.
    intros [->|[_ [->|[_ Hx]]]]; auto.
  - intros Hrec x Hx. destruct (IH _ _ _ Hrec x Hx) as [Hs|]; [|by right].
    apply lookup_insert_is_Some in Hs as [->|[_ Hs]]; auto.
Qed.

Variable start : nat → nat.

Lemma for_partitions_tables ids :
  NoDup ids →
  ∀ s s', for_partitions (walk_body missing ring sorted_set avg_load start) ids s = Ok s' →
    (∀ p, p ∈ ids → s.1 !! p = None) →
    (∀ p, is_Some (s'.1 !! p) ↔ is_Some (s.1 !! p) ∨ p ∈ ids)
    ∧ (∀ p x, s'.1 !! p = Some x → s.1 !! p = Some x ∨ x ∈ ring_names ring sorted_set)
    ∧ (∀ x, is_Some (s'.2 !! x) → is_Some (s.2 !! x) ∨ x ∈ ring_names ring sorted_set)
    ∧ ((∀ x, load_of s.2 x = partitions_owned s.1 x) →
       ∀ x, load_of s'.2 x = partitions_owned s'.1 x).
Proof.
  induction 1 as [|p ids Hp Hnd IH]; intros s s'; simpl.
  - intros [= <-] _. split_and!; try tauto.
    intros p. rewrite elem_of_nil. tauto.
  - unfold walk_body at 1.
    destruct (placement_walk _ _ _ _ _ _ _ _ _ _) as [cnt [[partitions1 loads1]|e|]] eqn:Hw;
      simpl; [|done..].
    intros Hrest Hfresh.
    pose proof Hw as Hw2. apply placement_walk_Ok in Hw2 as (m & Hm & _ & -> & Hl & _).
    pose proof (λ x, placement_walk_keys _ _ _ _ _ _ _ _ _ Hw x) as Hk.
    destruct (IH _ _ Hrest) as (I1 & I2 & I3 & I4).
    { simpl. intros q Hq. rewrite lookup_insert_ne; [|intros ->; done].
      apply Hfresh. by right. }
    simpl in *. split_and!.
    + intros q. rewrite I1, lookup_insert_is_Some, elem_of_cons.
      split.
      * intros [[->|[_ ?]]|?]; auto.
      * intros [?|[->|?]]; auto. destruct (decide (p = q)); auto.
    + intros q x Hx. destruct (I2 _ _ Hx) as [Hq|]; [|by right].
      apply lookup_insert_Some in Hq as [[_ <-]|[_ Hq]]; auto.
    + intros x Hx. destruct (I3 _ Hx) as [Hq|]; [|by right]. auto.
    + intros Hmatch. apply I4. intros x. rewrite Hl.
      rewrite partitions_owned_insert by (apply Hfresh; by left).
      rewrite Hmatch. done.
Qed.

End Engine2.

Lemma engine_tables missing ring sorted_set avg_load start P s' :
  for_partitions (walk_body missing ring sorted_set avg_load start) (seq 0 P) (∅, ∅) = Ok s' →
  (∀ p, is_Some (s'.1 !! p) ↔ p < P)
  ∧ (∀ p x, s'.1 !! p = Some x → x ∈ ring_names ring sorted_set)
  ∧ (∀ x, is_Some (s'.2 !! x) → x ∈ ring_names ring sorted_set)
  ∧ (∀ x, load_of s'.2 x = partitions_owned s'.1 x).
Proof.
  intros Hfor.
  apply for_partitions_tables in Hfor as (I1 & I2 & I3 & I4);
    [|apply NoDup_seq|intros p _; apply lookup_empty].
  simpl in *. split_and!.
  - intros p. rewrite I1, lookup_empty, elem_of_seq.
    split; [intros [[? [=]]|?]; lia|intros ?; right; lia].
  - intros p x Hx. destruct (I2 _ _ Hx) as [Hq|]; [|done]. by rewrite lookup_empty in Hq.
  - intros x Hx. destruct (I3 _ Hx) as [Hq|]; [|done].
    rewrite lookup_empty in Hq. by destruct Hq.
  - apply I4. intros x. by rewrite load_of_empty, partitions_owned_empty.
Qed.

Section RingProperties.
Context {A : Type} `{Member A}.
Implicit Types (c : Consistent A) (member : A) (name : string).

(** C8.  [Add] of a registered name and [RemoveByName] of an unregistered
    name return with the whole state unchanged. *)
Theorem Add_RemoveByName_noop c member name :
  (is_Some (members_ c !! Member_String member) → Add member c = Returned c)
  ∧ (members_ c !! name = None → RemoveByName name c = Returned c).
Proof.
  split.
  - intros [m Hm]. unfold Add. by rewrite Hm.
  - intros Hn. unfold RemoveByName. by rewrite Hn.
Qed.

(** *** Virtual nodes in the ring map *)

Lemma ring_insert_all_lookup name (hs : list N) (ring : gmap N string) (k : N) :
  ring_insert_all name hs ring !! k = if decide (k ∈ hs) then Some name else ring !! k.
Proof.
  unfold ring_insert_all. revert ring.
  induction hs as [|h hs IH]; intros ring.
  - rewrite decide_False by apply not_elem_of_nil. done.
  - cbn [foldl]. rewrite IH. destruct (decide (k ∈ hs)) as [Hin|Hnin].
    + rewrite decide_True; [done | by right].
    + destruct (decide (k = h)) as [->|Hne].
      * rewrite lookup_insert_eq, decide_True; [done | by left].
      * rewrite lookup_insert_ne by done. rewrite decide_False; [done|].
        intros [->|?]%elem_of_cons; done.
Qed.

Lemma ring_insert_all_nonempty name (hs : list N) (ring : gmap N string) :
  ring ≠ ∅ ∨ hs ≠ [] → ring_insert_all name hs ring ≠ ∅.
Proof.
  intros Hor Hempty.
  assert (∀ k, ring_insert_all name hs ring !! k = None) as Hnone.
  { intros k. by rewrite Hempty, lookup_empty. }
  destruct hs as [|h hs].
  - destruct Hor as [Hr|]; [|done]. apply Hr, map_empty. intros k.
    specialize (Hnone k). by rewrite ring_insert_all_lookup, decide_False in Hnone
      by apply not_elem_of_nil.
  - specialize (Hnone h). rewrite ring_insert_all_lookup, decide_True in Hnone; [done|].
    by left.
Qed.

Lemma ring_delete_all_lookup (hs : list N) (ring : gmap N string) (k : N) :
  foldl (λ r h, delete h r) ring hs !! k = if decide (k ∈ hs) then None else ring !! k.
Proof.
  revert ring. induction hs as [|h hs IH]; intros ring.
  - rewrite decide_False by apply not_elem_of_nil. done.
  - cbn [foldl]. rewrite IH. destruct (decide (k ∈ hs)) as [Hin|Hnin].
    + rewrite decide_True; [done | by right].
    + destruct (decide (k = h)) as [->|Hne].
      * rewrite lookup_delete_eq, decide_True; [done | by left].
      * rewrite lookup_delete_ne by done. rewrite decide_False; [done|].
        intros [->|?]%elem_of_cons; done.
Qed.

Lemma vnode_hashes_length c name :
  length (vnode_hashes c name) = replication_factor (config_ c).
Proof. unfold vnode_hashes. by rewrite length_fmap, length_seq. Qed.

Lemma vnode_hashes_nonempty c name :
  1 ≤ replication_factor (config_ c) → vnode_hashes c name ≠ [].
Proof.
  intros HR Hnil. pose proof (vnode_hashes_length c name) as Hlen.
  rewrite Hnil in Hlen. simpl in Hlen. lia.
Qed.

(** *** The loop over the partitions *)

Lemma for_partitions_first_Ok {S : Type} (body : nat → S → result S) p ids s s' :
  for_partitions body (p :: ids) s = Ok s' → ∃ s1, body p s = Ok s1.
Proof. simpl. destruct (body p s); [eauto | done | done]. Qed.

Lemma CalculatePartitions_Ok_nonempty c ring sorted_set member_count s :
  1 ≤ partition_count_ c → member_count ≠ 0 →
  CalculatePartitionsWithRingAndMemberCount c ring sorted_set member_count = Ok s →
  sorted_set ≠ [].
Proof.
  intros HP HM. unfold CalculatePartitionsWithRingAndMemberCount.
  destruct (member_count =? 0) eqn:E; [apply Nat.eqb_eq in E; done|].
  destruct (partition_count_ c) as [|P]; [lia|]. simpl seq.
  intros Hfor Hnil. apply for_partitions_first_Ok in Hfor as [s1 Hs1]. subst sorted_set.
  unfold CalculatePartitions_body, CalculatePartitions_walk in Hs1. by simpl in Hs1.
Qed.

(** *** The invariant of the ring states *)

Lemma InitMember_fold (members : list A) (c0 : Consistent A) :
  let c := foldl (λ c member, InitMember (Clone member) c) c0 members in
  config_ c = config_ c0
  ∧ partition_count_ c = partition_count_ c0
  ∧ partitions_ c = partitions_ c0
  ∧ (1 ≤ replication_factor (config_ c0) →
     (members_ c0 ≠ ∅ ∨ members ≠ [] → members_ c ≠ ∅)
     ∧ (ring_ c0 ≠ ∅ ∨ members ≠ [] → ring_ c ≠ ∅)).
Proof.
  revert c0. induction members as [|m ms IH]; intros c0; simpl.
  - repeat split; try done; intros [?|?]; done.
  - destruct (IH (InitMember (Clone m) c0)) as (H1 & H2 & H3 & H4).
    simpl in H1, H2, H3, H4. repeat split; try done.
    + intros _. apply H4; [done|]. left. apply insert_non_empty.
    + intros _. apply H4; [done|]. left. apply ring_insert_all_nonempty. right.
      by apply vnode_hashes_nonempty.
Qed.

Lemma Consistent_new_invariant (members : list A) config c :
  Consistent_new members config = Ok c → ring_invariant c.
Proof.
  unfold Consistent_new.
  set (config' := mkConfig _ _ _ _).
  destruct (ValidateConfig (length members) config'); [|done|done].
  set (c0 := mkConsistent config' [] (partition_count config') ∅ ∅ ∅ ∅).
  assert (1 ≤ partition_count config') as HP.
  { simpl. destruct (partition_count config =? 0) eqn:E;
      [unfold DEFAULT_PARTITION_COUNT; lia | apply Nat.eqb_neq in E; lia]. }
  assert (1 ≤ replication_factor config') as HR.
  { simpl. destruct (replication_factor config =? 0) eqn:E;
      [unfold DEFAULT_REPLICATION_FACTOR; lia | apply Nat.eqb_neq in E; lia]. }
  destruct members as [|m ms].
  - intros [= <-]. unfold ring_invariant. cbn [foldl]. subst c0.
    cbn [partition_count_ config_ members_ ring_ partitions_]. repeat split; done.
  - pose proof (InitMember_fold (m :: ms) c0) as Hfold. cbv zeta in Hfold.
    revert Hfold.
    generalize (foldl (λ c member, InitMember (Clone member) c) c0 (m :: ms)).
    intros c1 (H1 & H2 & H3 & H4). unfold DistributePartitions.
    destruct (for_partitions _ _ _) as [[partitions loads]| |]; [|done|done].
    intros [= <-]. destruct (H4 HR) as [Hm Hr].
    unfold ring_invariant. cbn [partition_count_ config_ members_ ring_ partitions_].
    rewrite H1, H2. repeat split; try done.
    + intros _. apply Hr. by right.
    + intros Hempty. exfalso. revert Hempty. apply Hm. by right.
Qed.

Lemma Add_invariant member c :
  ring_invariant c →
  match Add member c with
  | Returned c' | Raised _ c' => ring_invariant c'
  | Stuck => True
  end.
Proof.
  intros (HP & HR & Hring & Hparts). unfold Add.
  destruct (members_ c !! Member_String member) eqn:Hm; [by repeat split|].
  set (c1 := mkConsistent _ _ _ _ (<[_:=_]> _) _ _).
  assert (ring_invariant (AddToRing (Member_String member) c1)) as Hinv.
  { unfold ring_invariant. simpl. repeat split; try done.
    - intros _. apply ring_insert_all_nonempty. right.
      by apply vnode_hashes_nonempty.
    - intros Hempty. by apply insert_non_empty in Hempty. }
  destruct (CalculatePartitionsWithNewMember _ _) as [[np nl]|e|]; [|done|done].
  destruct Hinv as (? & ? & ? & Hp'). unfold ring_invariant. simpl in *.
  repeat split; try done.
  intros Hempty. by apply insert_non_empty in Hempty.
Qed.

Lemma RemoveByName_invariant name c :
  ring_invariant c →
  match RemoveByName name c with
  | Returned c' | Raised _ c' => ring_invariant c'
  | Stuck => True
  end.
Proof.
  intros Hinv. pose proof Hinv as (HP & HR & Hring & Hparts). unfold RemoveByName.
  destruct (members_ c !! name) as [m|] eqn:Hm; [|done].
  destruct (CalculatePartitionsWithoutMember name c) as [[np nl]|e|] eqn:Hcalc;
    [|done|done].
  unfold ring_invariant. simpl. repeat split; try done.
  - intros Hne.
    assert (size (members_ c) - 1 ≠ 0) as Hsize.
    { intros Hs. apply Hne. apply map_size_empty_inv.
      rewrite map_size_delete_Some by eauto. lia. }
    unfold CalculatePartitionsWithoutMember in Hcalc.
    apply CalculatePartitions_Ok_nonempty in Hcalc; [|done|done].
    set (temp_ring := filter _ (ring_ c)) in Hcalc.
    destruct (map_choose_or_empty temp_ring) as [(k & v & Hkv)|Hempty].
    + apply map_lookup_filter_Some in Hkv as [Hk Hnot]. simpl in Hnot.
      intros Habs.
      assert (foldl (λ r h, delete h r) (ring_ c) (vnode_hashes c name) !! k = Some v)
        as Hlook.
      { rewrite ring_delete_all_lookup, decide_False; [done|].
        intros Hin. apply Hnot. by apply elem_of_list_to_set. }
      by rewrite Habs, lookup_empty in Hlook.
    + exfalso. apply Hcalc. by rewrite Hempty, map_to_list_empty.
  - intros Hempty.
    assert (size (members_ c) = 1) as ->; [|done].
    assert (size (delete name (members_ c)) = 0) as Hs
      by (by rewrite Hempty, map_size_empty).
    rewrite map_size_delete_Some in Hs by eauto.
    assert (size (members_ c) ≠ 0); [|lia].
    apply map_size_non_empty_iff. intros Hc. by rewrite Hc, lookup_empty in Hm.
Qed.

Lemma reachable_invariant c : reachable c → ring_invariant c.
Proof.
  induction 1 as [members config c Hnew
                 |member c c' _ IH Hop|member e c c' _ IH Hop
                 |name c c' _ IH Hop|name e c c' _ IH Hop].
  - by eapply Consistent_new_invariant.
  - pose proof (Add_invariant member c IH) as Hi. by rewrite Hop in Hi.
  - pose proof (Add_invariant member c IH) as Hi. by rewrite Hop in Hi.
  - pose proof (RemoveByName_invariant name c IH) as Hi. by rewrite Hop in Hi.
  - pose proof (RemoveByName_invariant name c IH) as Hi. by rewrite Hop in Hi.
Qed.

(** *** The two placement paths as instances of the common loop body *)

Lemma DistributePartitions_body_walk c :
  DistributePartitions_body c
  = walk_body Undefined (ring_ c) (sorted_set_ c) (double_value (AverageLoad c))
      (λ p, start_index (sorted_set_ c) (hash_bytes c (partition_bytes p))).
Proof. reflexivity. Qed.

Lemma CalculatePartitions_body_walk c ring sorted_set avg_load :
  CalculatePartitions_body c ring sorted_set avg_load
  = walk_body OutOfRange ring sorted_set avg_load
      (λ p, start_index sorted_set (hash_bytes c (partition_bytes p))).
Proof. reflexivity. Qed.

(** *** The walks of the two placement paths *)






(** *** Termination of the mutators *)

Lemma CalculatePartitions_terminates c ring sorted_set member_count :
  CalculatePartitionsWithRingAndMemberCount c ring sorted_set member_count ≠ OutOfFuel.
Proof.
  unfold CalculatePartitionsWithRingAndMemberCount.
  destruct (member_count =? 0); [done|].
  rewrite CalculatePartitions_body_walk. by apply for_partitions_terminates.
Qed.

(** The mutators and the constructor always return or raise. *)
Lemma mutators_terminate (members : list A) config (member : A) name c :
  Consistent_new members config ≠ OutOfFuel
  ∧ Add member c ≠ Stuck
  ∧ RemoveByName name c ≠ Stuck.
Proof.
  split; [|split].
  - unfold Consistent_new. destruct (ValidateConfig _ _) eqn:Hv; [|done|].
    + destruct members; [done|]. unfold DistributePartitions.
      rewrite DistributePartitions_body_walk.
      match goal with
      | |- context [for_partitions (walk_body ?m ?r ?l0 ?a ?st) ?l ?s] =>
          pose proof (for_partitions_terminates m r l0 a st l ltac:(done) s) as Hf;
          destruct (for_partitions (walk_body m r l0 a st) l s) as [[? ?]| |]; done
      end.
    + unfold ValidateConfig in Hv. destruct (hasher _); [|done].
      destruct (_ =? 0); [done|]. by destruct (ext_lt _ _).
  - unfold Add. by destruct (members_ c !! Member_String member).
  - unfold RemoveByName. destruct (members_ c !! name); [|done].
    unfold CalculatePartitionsWithoutMember.
    match goal with
    | |- context [CalculatePartitionsWithRingAndMemberCount ?c2 ?r ?l ?n] =>
        pose proof (CalculatePartitions_terminates c2 r l n) as Hc;
        destruct (CalculatePartitionsWithRingAndMemberCount c2 r l n) as [[? ?]| |]; done
    end.
Qed.
(** *** Mutators that raise *)

(** [RemoveByName] computes the new tables before it changes anything: when
    the placement raises, the state is the one before the call. *)
Lemma RemoveByName_raised_unchanged name e c c' :
  RemoveByName name c = Raised e c' → c' = c.
Proof.
  unfold RemoveByName. destruct (members_ c !! name); [|done].
  destruct (CalculatePartitionsWithoutMember name c) as [[np nl]|e'|]; [done| |done].
  by intros [= _ <-].
Qed.

(** [Add] of a name that is not registered stores the member, puts its
    virtual nodes on the ring, and then calls
    [CalculatePartitionsWithNewMember] with its exclusive lock held: the
    shared lock taken there raises, no placement runs, and nothing is
    undone.  The registry, the ring map and the sorted array have grown;
    the partition table and the load map are the ones before the call. *)
Lemma Add_new member c :
  members_ c !! Member_String member = None →
  Add member c
  = Raised SystemError
      (mkConsistent (config_ c)
         (sort (sorted_set_ c ++ vnode_hashes c (Member_String member)))
         (partition_count_ c) (loads_ c)
         (<[Member_String member := member]> (members_ c)) (partitions_ c)
         (ring_insert_all (Member_String member)
            (vnode_hashes c (Member_String member)) (ring_ c))).
Proof. intros Hm. unfold Add. by rewrite Hm. Qed.

Lemma Add_returned member c c' :
  Add member c = Returned c' → is_Some (members_ c !! Member_String member) ∧ c' = c.
Proof.
  unfold Add. destruct (members_ c !! Member_String member) eqn:Hm; [|done].
  intros [= <-]. eauto.
Qed.

Lemma Add_raised_registered member e c c' :
  Add member c = Raised e c' →
  e = SystemError
  ∧ members_ c !! Member_String member = None
  ∧ members_ c' = <[Member_String member:=member]> (members_ c)
  ∧ members_ c' ≠ members_ c
  ∧ partitions_ c' = partitions_ c ∧ loads_ c' = loads_ c.
Proof.
  destruct (members_ c !! Member_String member) eqn:Hm.
  - unfold Add. by rewrite Hm.
  - rewrite Add_new by done. intros [= <- <-]. simpl. repeat split; try done.
    intros Heq. rewrite <- Heq, lookup_insert_eq in Hm. done.
Qed.

(** *** The tables after a placement *)

Lemma CalculatePartitions_tables c ring sorted_set member_count partitions loads :
  CalculatePartitionsWithRingAndMemberCount c ring sorted_set member_count
  = Ok (partitions, loads) →
  (∀ p, is_Some (partitions !! p) → p < partition_count_ c)
  ∧ (member_count ≠ 0 → ∀ p, p < partition_count_ c → is_Some (partitions !! p))
  ∧ (∀ p x, partitions !! p = Some x → x ∈ ring_names ring sorted_set)
  ∧ (∀ x, is_Some (loads !! x) → x ∈ ring_names ring sorted_set)
  ∧ (∀ x, load_of loads x = partitions_owned partitions x).
Proof.
  unfold CalculatePartitionsWithRingAndMemberCount.
  destruct (member_count =? 0) eqn:E.
  - intros [= <- <-]. apply Nat.eqb_eq in E. split_and!.
    + intros p [? Hp]. by rewrite lookup_empty in Hp.
    + done.
    + intros p x Hp. by rewrite lookup_empty in Hp.
    + intros x [? Hp]. by rewrite lookup_empty in Hp.
    + intros x. by rewrite load_of_empty, partitions_owned_empty.
  - rewrite CalculatePartitions_body_walk. intros Hfor.
    apply engine_tables in Hfor as (I1 & I2 & I3 & I4). simpl in *.
    split_and!; [intros p; apply I1|intros _ p; apply I1|done..].
Qed.

Lemma DistributePartitions_tables c c' :
  DistributePartitions c = Ok c' →
  config_ c' = config_ c ∧ sorted_set_ c' = sorted_set_ c
  ∧ partition_count_ c' = partition_count_ c ∧ members_ c' = members_ c
  ∧ ring_ c' = ring_ c
  ∧ (∀ p, is_Some (partitions_ c' !! p) ↔ p < partition_count_ c)
  ∧ (∀ p x, partitions_ c' !! p = Some x → x ∈ ring_names (ring_ c) (sorted_set_ c))
  ∧ (∀ x, is_Some (loads_ c' !! x) → x ∈ ring_names (ring_ c) (sorted_set_ c))
  ∧ (∀ x, load_of (loads_ c') x = partitions_owned (partitions_ c') x).
Proof.
  unfold DistributePartitions. rewrite DistributePartitions_body_walk.
  destruct (for_partitions _ _ _) as [[partitions loads]|e|] eqn:Hfor; [|done..].
  intros [= <-]. simpl.
  apply engine_tables in Hfor as (I1 & I2 & I3 & I4). simpl in *.
  split_and!; done.
Qed.

Lemma vnode_hashes_config c c' name :
  config_ c' = config_ c → vnode_hashes c' name = vnode_hashes c name.
Proof. intros Hc. unfold vnode_hashes, hash_bytes. by rewrite Hc. Qed.


(** *** No stale references *)

Lemma ring_names_registered (ring : gmap N string) sorted_set (members : gmap string A) :
  (∀ h x, ring !! h = Some x → is_Some (members !! x)) →
  ∀ x, x ∈ ring_names ring sorted_set → is_Some (members !! x).
Proof. intros Hr x (h & _ & Hh)%elem_of_ring_names. eauto. Qed.

Lemma InitMember_references member c :
  references_registered c → references_registered (InitMember member c).
Proof.
  intros (R1 & R2 & R3). unfold InitMember. split_and!; simpl.
  - intros h name. rewrite ring_insert_all_lookup.
    change (vnode_hashes _ name) with (vnode_hashes c name).
    case_decide as Hh.
    + intros [= <-]. split; [|done]. rewrite lookup_insert_eq. eauto.
    + intros Hr. destruct (R1 _ _ Hr) as [Hm Hv]. split; [|done].
      apply lookup_insert_is_Some'. by right.
  - intros p name Hp. apply lookup_insert_is_Some'. right. eauto.
  - intros name Hl. apply lookup_insert_is_Some'. right. eauto.
Qed.

Lemma InitMember_fold_references (members : list A) c0 :
  references_registered c0 →
  references_registered (foldl (λ c member, InitMember (Clone member) c) c0 members).
Proof.
  revert c0. induction members as [|m ms IH]; intros c0 Hc0; [done|].
  simpl. apply IH. by apply InitMember_references.
Qed.

Lemma Consistent_new_references (members : list A) config c :
  Consistent_new members config = Ok c → references_registered c.
Proof.
  unfold Consistent_new. set (config' := mkConfig _ _ _ _).
  destruct (ValidateConfig (length members) config'); [|done..].
  set (c0 := mkConsistent config' [] (partition_count config') ∅ ∅ ∅ ∅).
  assert (references_registered c0) as Hc0.
  { split_and!; simpl.
    - intros h x Hx. by rewrite lookup_empty in Hx.
    - intros p x Hx. by rewrite lookup_empty in Hx.
    - intros x [? Hx]. by rewrite lookup_empty in Hx. }
  pose proof (InitMember_fold_references members c0 Hc0) as Hfold. revert Hfold.
  generalize (foldl (λ c member, InitMember (Clone member) c) c0 members).
  intros c1 (R1 & R2 & R3).
  destruct members as [|m ms].
  - intros [= <-]. done.
  - intros (Hc & Hs & _ & Hm & Hr & _ & T2 & T3 & _)%DistributePartitions_tables.
    split_and!.
    + intros h x. rewrite Hr, Hm, (vnode_hashes_config c1 c) by done. apply R1.
    + intros p x Hx. rewrite Hm. eapply ring_names_registered; [|by eapply T2].
      intros h y Hy. by apply R1 in Hy as [? _].
    + intros x Hx. rewrite Hm. eapply ring_names_registered; [|by eapply T3].
      intros h y Hy. by apply R1 in Hy as [? _].
Qed.

Lemma Add_references member c :
  references_registered c →
  match Add member c with
  | Returned c' | Raised _ c' => references_registered c'
  | Stuck => True
  end.
Proof.
  intros (R1 & R2 & R3).
  destruct (members_ c !! Member_String member) eqn:Hm.
  { unfold Add. by rewrite Hm. }
  rewrite Add_new by done. set (name := Member_String member).
  split_and!; simpl.
  - intros h x. rewrite ring_insert_all_lookup. case_decide as Hh.
    + intros [= <-]. split; [|done]. rewrite lookup_insert_eq. eauto.
    + intros Hr. destruct (R1 _ _ Hr) as [Hx Hv]. split; [|done].
      apply lookup_insert_is_Some'. by right.
  - intros p x Hx. apply lookup_insert_is_Some'. right. eauto.
  - intros x Hx. apply lookup_insert_is_Some'. right. eauto.
Qed.

Lemma RemoveByName_references name c :
  references_registered c →
  match RemoveByName name c with
  | Returned c' | Raised _ c' => references_registered c'
  | Stuck => True
  end.
Proof.
  intros (R1 & R2 & R3). unfold RemoveByName.
  destruct (members_ c !! name) eqn:Hm; [|done].
  unfold CalculatePartitionsWithoutMember.
  destruct (CalculatePartitionsWithRingAndMemberCount _ _ _ _)
    as [[partitions loads]|e|] eqn:Hcalc; [|done..].
  apply CalculatePartitions_tables in Hcalc as (_ & _ & T2 & T3 & _).
  assert (∀ x, x ∈ ring_names
                 (filter (λ kv, kv.1 ∉ (list_to_set (vnode_hashes c name) : gset N)) (ring_ c))
                 (sort (map_to_list
                    (filter (λ kv, kv.1 ∉ (list_to_set (vnode_hashes c name) : gset N))
                       (ring_ c))).*1) →
               is_Some (delete name (members_ c) !! x)) as Hreg.
  { apply ring_names_registered. intros h x [Hx Hh]%map_lookup_filter_Some. simpl in Hh.
    destruct (R1 _ _ Hx) as [Hx1 Hx2].
    apply lookup_delete_is_Some. split; [|done].
    intros <-. apply Hh. by apply elem_of_list_to_set. }
  split_and!; simpl.
  - intros h x. rewrite ring_delete_all_lookup. case_decide as Hh; [done|].
    intros Hx. destruct (R1 _ _ Hx) as [Hx1 Hx2]. split; [|done].
    apply lookup_delete_is_Some. split; [|done]. by intros <-.
  - intros p x. destruct (size (members_ c) =? 1); [by rewrite lookup_empty|].
    intros Hx. apply Hreg. eauto.
  - intros x. destruct (size (members_ c) =? 1).
    + rewrite lookup_empty. by intros [? ?].
    + intros Hx. apply Hreg. eauto.
Qed.

Lemma reachable_references c : reachable c → references_registered c.
Proof.
  induction 1 as [members config c Hnew|member c c' _ IH Hadd|member e c c' _ IH Hadd
                  |name c c' _ IH Hrem|name e c c' _ IH Hrem].
  - by eapply Consistent_new_references.
  - pose proof (Add_references member c IH) as Hi. by rewrite Hadd in Hi.
  - pose proof (Add_references member c IH) as Hi. by rewrite Hadd in Hi.
  - pose proof (RemoveByName_references name c IH) as Hi. by rewrite Hrem in Hi.
  - pose proof (RemoveByName_references name c IH) as Hi. by rewrite Hrem in Hi.
Qed.


(** *** The partition table and the load map *)

Lemma table_matches_loads_empty (config : Config) sorted_set P
    (members : gmap string A) ring :
  table_matches_loads (mkConsistent config sorted_set P ∅ members ∅ ring).
Proof.
  split; simpl.
  - intros p [? Hp]. by rewrite lookup_empty in Hp.
  - intros x. by rewrite load_of_empty, partitions_owned_empty.
Qed.

Lemma InitMember_fold_loads (members : list A) c0 :
  loads_ (foldl (λ c member, InitMember (Clone member) c) c0 members) = loads_ c0.
Proof. revert c0. induction members as [|m ms IH]; intros c0; [done|]. simpl. by rewrite IH. Qed.

Lemma Consistent_new_tables (members : list A) config c :
  Consistent_new members config = Ok c →
  table_matches_loads c ∧ (members ≠ [] → table_total c).
Proof.
  unfold Consistent_new. set (config' := mkConfig _ _ _ _).
  destruct (ValidateConfig (length members) config'); [|done..].
  set (c0 := mkConsistent config' [] (partition_count config') ∅ ∅ ∅ ∅).
  pose proof (InitMember_fold members c0) as Hfold. cbv zeta in Hfold.
  pose proof (InitMember_fold_loads members c0) as F4. revert Hfold F4.
  generalize (foldl (λ c member, InitMember (Clone member) c) c0 members).
  intros c1 (F1 & F2 & F3 & _) F4. simpl in F3, F4.
  destruct members as [|m ms].
  - intros [= <-]. split; [|done]. split.
    + intros p [? Hp]. by rewrite F3, lookup_empty in Hp.
    + intros x. rewrite F3, F4. by rewrite load_of_empty, partitions_owned_empty.
  - intros (_ & _ & HP & _ & _ & T1 & _ & _ & T5)%DistributePartitions_tables.
    split; [split|].
    + intros p. rewrite HP. apply T1.
    + done.
    + intros _ p. rewrite HP. apply T1.
Qed.

(** [Add] leaves the partition table and the load map as they are, whether
    it returns or raises. *)
Lemma Add_keeps_tables member c :
  match Add member c with
  | Returned c' | Raised _ c' =>
      partitions_ c' = partitions_ c ∧ loads_ c' = loads_ c
      ∧ partition_count_ c' = partition_count_ c ∧ config_ c' = config_ c
  | Stuck => False
  end.
Proof.
  destruct (members_ c !! Member_String member) eqn:Hm.
  - unfold Add. by rewrite Hm.
  - by rewrite Add_new.
Qed.

Lemma Add_tables member c :
  table_matches_loads c →
  match Add member c with
  | Returned c' | Raised _ c' => table_matches_loads c' ∧ (table_total c → table_total c')
  | Stuck => True
  end.
Proof.
  intros [M1 M2]. pose proof (Add_keeps_tables member c) as Hk.
  destruct (Add member c) as [c'|e c'|]; [| |done];
    destruct Hk as (Hp & Hl & HP & _);
    (split; [split|]);
    [intros p; rewrite Hp, HP; apply M1 | intros x; rewrite Hp, Hl; apply M2
    |intros Ht p; rewrite Hp, HP; apply Ht
    |intros p; rewrite Hp, HP; apply M1 | intros x; rewrite Hp, Hl; apply M2
    |intros Ht p; rewrite Hp, HP; apply Ht].
Qed.

Lemma RemoveByName_tables name c :
  table_matches_loads c →
  match RemoveByName name c with
  | Returned c' =>
      table_matches_loads c'
      ∧ (is_Some (members_ c !! name) → members_ c' ≠ ∅ → table_total c')
  | Raised _ c' => table_matches_loads c'
  | Stuck => True
  end.
Proof.
  intros [M1 M2]. unfold RemoveByName.
  destruct (members_ c !! name) eqn:Hm.
  2:{ split; [done|]. by intros [? ?]. }
  unfold CalculatePartitionsWithoutMember.
  destruct (CalculatePartitionsWithRingAndMemberCount _ _ _ _)
    as [[partitions loads]|e|] eqn:Hcalc; [|done..].
  apply CalculatePartitions_tables in Hcalc as (T0 & T1 & _ & _ & T5). simpl.
  destruct (size (members_ c) =? 1) eqn:E.
  - split; [apply table_matches_loads_empty|].
    intros _ Hne. exfalso. apply Hne. apply map_size_empty_iff.
    apply Nat.eqb_eq in E. rewrite map_size_delete_Some by eauto. lia.
  - split; [done|]. intros _ _ p. apply T1. apply Nat.eqb_neq in E.
    assert (size (members_ c) ≠ 0); [|lia].
    intros Hz%map_size_empty_iff. by rewrite Hz, lookup_empty in Hm.
Qed.

(** *** [LocateKey] *)

Lemma RemoveByName_table name c :
  partitions_ c = ∅ ∨ table_total c →
  match RemoveByName name c with
  | Returned c' | Raised _ c' => partitions_ c' = ∅ ∨ table_total c'
  | Stuck => True
  end.
Proof.
  intros Hc. unfold RemoveByName.
  destruct (members_ c !! name) eqn:Hm; [|done].
  unfold CalculatePartitionsWithoutMember.
  destruct (CalculatePartitionsWithRingAndMemberCount _ _ _ _)
    as [[partitions loads]|e|] eqn:Hcalc; [|done..].
  apply CalculatePartitions_tables in Hcalc as (_ & T1 & _). simpl.
  destruct (size (members_ c) =? 1) eqn:E; [by left|].
  right. intros p. apply T1. apply Nat.eqb_neq in E.
  assert (size (members_ c) ≠ 0); [|lia].
  intros Hz%map_size_empty_iff. by rewrite Hz, lookup_empty in Hm.
Qed.

(** The partition table of a ring state is empty or has an owner for every
    partition. *)
Lemma reachable_table c : reachable c → partitions_ c = ∅ ∨ table_total c.
Proof.
  induction 1 as [members config c Hnew|member c c' _ IH Hadd|member e c c' _ IH Hadd
                  |name c c' _ IH Hrem|name e c c' _ IH Hrem].
  - destruct members as [|m ms].
    + left. unfold Consistent_new in Hnew.
      destruct (ValidateConfig _ _); [|done..]. by injection Hnew as <-.
    + right. apply Consistent_new_tables in Hnew as [_ Ht]. by apply Ht.
  - pose proof (Add_keeps_tables member c) as Hk. rewrite Hadd in Hk.
    destruct Hk as (Hp & _ & HP & _). unfold table_total. by rewrite Hp, HP.
  - pose proof (Add_keeps_tables member c) as Hk. rewrite Hadd in Hk.
    destruct Hk as (Hp & _ & HP & _). unfold table_total. by rewrite Hp, HP.
  - pose proof (RemoveByName_table name c IH) as Hi. by rewrite Hrem in Hi.
  - pose proof (RemoveByName_table name c IH) as Hi. by rewrite Hrem in Hi.
Qed.

Lemma GetPartitionID_lt c key key_string :
  1 ≤ partition_count_ c →
  GetPartitionID c key < partition_count_ c
  ∧ GetPartitionID_string c key_string < partition_count_ c.
Proof.
  intros HP. unfold GetPartitionID, GetPartitionID_string.
  assert (∀ h, N.to_nat (h mod N.of_nat (partition_count_ c)) < partition_count_ c) as Hlt.
  { intros h. pose proof (N.mod_lt h (N.of_nat (partition_count_ c))). lia. }
  split; apply Hlt.
Qed.

(** [LocateKey] on the states of a ring object. *)
Lemma LocateKey_reachable c (key : list byte) (key_string : string) :
  reachable c →
  (members_ c = ∅ → LocateKey c key = None ∧ LocateKey_string c key_string = None)
  ∧ (members_ c ≠ ∅ →
     GetPartitionID c key < partition_count_ c
     ∧ GetPartitionID_string c key_string < partition_count_ c
     ∧ LocateKey c key = partitions_ c !! GetPartitionID c key
     ∧ LocateKey_string c key_string = partitions_ c !! GetPartitionID_string c key_string)
  ∧ (members_ c ≠ ∅ → partitions_ c ≠ ∅ →
     (∃ name member, LocateKey c key = Some name ∧ members_ c !! name = Some member)
     ∧ (∃ name member, LocateKey_string c key_string = Some name
                       ∧ members_ c !! name = Some member)).
Proof.
  intros Hreach.
  destruct (reachable_invariant c Hreach) as (HP & HR & Hring & Hparts).
  destruct (reachable_references c Hreach) as (_ & R2 & _).
  destruct (GetPartitionID_lt c key key_string HP) as [Hk Hks].
  split; [|split].
  - intros Hm. specialize (Hparts Hm).
    unfold LocateKey_string, LocateKey, GetPartitionOwner.
    rewrite Hparts. split; case_decide; by rewrite ?lookup_empty.
  - intros Hne. unfold LocateKey_string, LocateKey, GetPartitionOwner.
    rewrite !decide_False by auto. done.
  - intros Hne Hnp. unfold LocateKey_string, LocateKey, GetPartitionOwner.
    rewrite !decide_False by auto.
    destruct (reachable_table c Hreach) as [He|Htot]; [done|].
    split.
    + destruct (Htot _ Hk) as [name Hname]. destruct (R2 _ _ Hname) as [m Hm]. eauto.
    + destruct (Htot _ Hks) as [name Hname]. destruct (R2 _ _ Hname) as [m Hm]. eauto.
Qed.


(** *** The load map after a placement *)

Lemma DistributePartitions_loads c c' :
  DistributePartitions c = Ok c' →
  total_load (loads_ c') = partition_count_ c
  ∧ (double_value (AverageLoad c) ≠ ext_pos_inf →
     ∀ name, load_of (loads_ c') name ≤ capacity (double_value (AverageLoad c))).
Proof.
  unfold DistributePartitions.
  destruct (for_partitions _ _ _) as [[partitions loads]| |] eqn:Hfor; [|done|done].
  intros [= <-]. simpl.
  rewrite DistributePartitions_body_walk in Hfor.
  apply for_partitions_loads in Hfor as [Ht Hb]. simpl in Ht, Hb.
  rewrite total_load_empty, length_seq in Ht. split; [done|].
  intros Hfin name. apply Hb; [done|]. intros x. rewrite load_of_empty. lia.
Qed.

Lemma CalculatePartitions_loads c ring sorted_set member_count partitions loads :
  member_count ≠ 0 →
  CalculatePartitionsWithRingAndMemberCount c ring sorted_set member_count
  = Ok (partitions, loads) →
  total_load loads = partition_count_ c
  ∧ (ceil_avg_load c member_count ≠ ext_pos_inf →
     ∀ name, load_of loads name ≤ capacity (ceil_avg_load c member_count)).
Proof.
  intros HM. unfold CalculatePartitionsWithRingAndMemberCount.
  destruct (member_count =? 0) eqn:E; [apply Nat.eqb_eq in E; done|].
  rewrite CalculatePartitions_body_walk. intros Hfor.
  apply for_partitions_loads in Hfor as [Ht Hb]. simpl in Ht, Hb.
  rewrite total_load_empty, length_seq in Ht. split; [done|].
  intros Hfin name. apply Hb; [done|]. intros x. rewrite load_of_empty. lia.
Qed.

(** The load map after a placement: the loads sum to the partition count
    and none exceeds what the comparison of the walk admits, which is the
    integer part of the average after construction and the ceiling of the
    average after [RemoveByName]. *)
Lemma loads_after_placement :
  (∀ (members : list A) config c,
     Consistent_new members config = Ok c → members ≠ [] →
     total_load (loads_ c) = partition_count_ c
     ∧ (double_value (AverageLoad c) ≠ ext_pos_inf →
        ∀ name, load_of (loads_ c) name ≤ capacity (double_value (AverageLoad c))))
  ∧ (∀ name c c',
       RemoveByName name c = Returned c' → is_Some (members_ c !! name) →
       members_ c' ≠ ∅ →
       total_load (loads_ c') = partition_count_ c'
       ∧ (ceil_avg_load c' (size (members_ c')) ≠ ext_pos_inf →
          ∀ x, load_of (loads_ c') x ≤ capacity (ceil_avg_load c' (size (members_ c'))))).
Proof.
  split.
  - intros members config c. unfold Consistent_new.
    set (config' := mkConfig _ _ _ _).
    destruct (ValidateConfig (length members) config'); [|done|done].
    set (c0 := mkConsistent config' [] (partition_count config') ∅ ∅ ∅ ∅).
    destruct members as [|m ms]; [done|].
    generalize (foldl (λ c member, InitMember (Clone member) c) c0 (m :: ms)).
    intros c1 Hdist _.
    pose proof (DistributePartitions_tables _ _ Hdist) as (Hc & _ & HP & Hm & _).
    apply DistributePartitions_loads in Hdist as [Ht Hb].
    assert (AverageLoad c = AverageLoad c1) as ->.
    { unfold AverageLoad. by rewrite Hc, HP, Hm. }
    by rewrite HP.
  - intros name c c'. unfold RemoveByName.
    destruct (members_ c !! name) as [m|] eqn:Hm; [|by intros _ [? ?]].
    destruct (CalculatePartitionsWithoutMember name c) as [[np nl]|e|] eqn:Hcalc;
      [|done|done].
    intros [= <-] _ Hne. simpl in *.
    assert (size (delete name (members_ c)) = size (members_ c) - 1) as Hsize.
    { rewrite map_size_delete_Some by eauto. lia. }
    assert (size (members_ c) - 1 ≠ 0) as Hpos.
    { rewrite <- Hsize. by apply map_size_non_empty_iff. }
    destruct (size (members_ c) =? 1) eqn:E; [apply Nat.eqb_eq in E; lia|].
    unfold CalculatePartitionsWithoutMember in Hcalc.
    apply CalculatePartitions_loads in Hcalc; [|done]. by rewrite Hsize.
Qed.


(** *** Placements that succeed *)

Lemma ring_names_nil ring : ring_names ring [] = ∅.
Proof. reflexivity. Qed.

Lemma room_nonempty ring sorted_set (P cap : nat) :
  1 ≤ P → P ≤ size (ring_names ring sorted_set) * cap → sorted_set ≠ [].
Proof.
  intros HP Hroom ->. rewrite ring_names_nil, size_empty in Hroom. lia.
Qed.

Lemma engine_succeeds missing ring sorted_set avg_load (start : N → nat) (P : nat) :
  ring_covers ring sorted_set → twice_on_ring ring sorted_set →
  (sorted_set ≠ [] → ∀ key, start key < length sorted_set) →
  P ≤ size (ring_names ring sorted_set) * capacity avg_load →
  ∀ key_of : nat → N,
  ∃ s, for_partitions
         (walk_body missing ring sorted_set avg_load (λ p, start (key_of p)))
         (seq 0 P) (∅, ∅) = Ok s.
Proof.
  intros Hcov Htwice Hstart Hroom key_of.
  destruct P as [|P]; [simpl; eauto|].
  apply for_partitions_succeeds; [done | done | |].
  - intros p. apply Hstart. eapply room_nonempty; [|exact Hroom]. lia.
  - simpl. rewrite total_load_empty, length_seq. lia.
Qed.

(** C1, amended.  Acceptance by [ValidateConfig] does not decide whether the
    walk fails.  Neither placement path raises (no InsufficientSpace in
    particular), and every partition gets an owner, when every entry of the
    sorted array has a ring entry, every member on the ring holds two
    entries of the sorted array at least, and the members on the ring have
    room for all partitions under the load the walk compares with: the
    average computed in double arithmetic at construction, its ceiling in
    the add/remove path. *)
Theorem placement_succeeds_with_room c ring sorted_set member_count :
  (ring_covers (ring_ c) (sorted_set_ c) →
   twice_on_ring (ring_ c) (sorted_set_ c) →
   partition_count_ c
     ≤ size (ring_names (ring_ c) (sorted_set_ c))
       * capacity (double_value (AverageLoad c)) →
   ∃ c', DistributePartitions c = Ok c'
         ∧ ∀ p, p < partition_count_ c → is_Some (partitions_ c' !! p))
  ∧ (ring_covers ring sorted_set →
     twice_on_ring ring sorted_set →
     partition_count_ c
       ≤ size (ring_names ring sorted_set) * capacity (ceil_avg_load c member_count) →
     ∃ s, CalculatePartitionsWithRingAndMemberCount c ring sorted_set member_count = Ok s
          ∧ (member_count ≠ 0 → ∀ p, p < partition_count_ c → is_Some (s.1 !! p))).
Proof.
  split.
  - intros Hcov Htwice Hroom.
    assert (∃ c', DistributePartitions c = Ok c') as [c' Hc'].
    { unfold DistributePartitions. rewrite DistributePartitions_body_walk.
      destruct (engine_succeeds Undefined (ring_ c) (sorted_set_ c)
                  (double_value (AverageLoad c))
                  (start_index (sorted_set_ c)) (partition_count_ c) Hcov Htwice)
        with (key_of := λ p, hash_bytes c (partition_bytes p)) as [[parts loads] Hs];
        [intros; by apply start_index_lt | done |].
      rewrite Hs. eauto. }
    exists c'. split; [done|].
    apply DistributePartitions_tables in Hc' as (_ & _ & _ & _ & _ & Ht & _).
    intros p Hp. by apply Ht.
  - intros Hcov Htwice Hroom.
    assert (∃ s, CalculatePartitionsWithRingAndMemberCount c ring sorted_set member_count
                 = Ok s) as [[partitions loads] Hs].
    { unfold CalculatePartitionsWithRingAndMemberCount.
      destruct (member_count =? 0); [eauto|].
      rewrite CalculatePartitions_body_walk.
      apply (engine_succeeds OutOfRange ring sorted_set (ceil_avg_load c member_count)
               (start_index sorted_set) (partition_count_ c) Hcov Htwice);
        [intros; by apply start_index_lt | done]. }
    eexists. split; [exact Hs|].
    apply CalculatePartitions_tables in Hs as (_ & Ht & _). exact Ht.
Qed.

(** *** The sorted array and the ring map at the calls of the walk

    The walk of the constructor always runs on a sorted array whose entries
    have ring entries, and so does the recomputation of [RemoveByName],
    which builds its sorted array from the keys of its ring map. *)

Lemma sort_Permutation l : sort l ≡ₚ l.
Proof. apply merge_sort_Permutation. Qed.

Lemma ring_covers_insert_all name hs ring sorted_set :
  ring_covers ring sorted_set →
  ring_covers (ring_insert_all name hs ring) (sort (sorted_set ++ hs)).
Proof.
  unfold ring_covers. intros Hcov. rewrite sort_Permutation.
  apply Forall_forall. intros h Hh. rewrite ring_insert_all_lookup.
  destruct (decide (h ∈ hs)) as [|Hnot]; [eauto|].
  apply elem_of_app in Hh as [Hh|Hh]; [|done].
  by apply (proj1 (Forall_forall _ _) Hcov).
Qed.

Lemma ring_covers_keys (ring : gmap N string) :
  ring_covers ring (sort ((map_to_list ring).*1)).
Proof.
  unfold ring_covers. rewrite sort_Permutation. apply Forall_forall.
  intros h ([h' x] & -> & Hin)%list_elem_of_fmap. simpl.
  apply elem_of_map_to_list in Hin. eauto.
Qed.

Lemma InitMember_fold_covers (members : list A) (c0 : Consistent A) :
  ring_covers (ring_ c0) (sorted_set_ c0) →
  let c := foldl (λ c member, InitMember (Clone member) c) c0 members in
  ring_covers (ring_ c) (sorted_set_ c).
Proof.
  revert c0. induction members as [|m ms IH]; intros c0 Hcov; [done|].
  simpl. apply IH. simpl. by apply ring_covers_insert_all.
Qed.

Lemma Consistent_new_covers (members : list A) config c :
  Consistent_new members config = Ok c → ring_covers (ring_ c) (sorted_set_ c).
Proof.
  unfold Consistent_new.
  set (config' := mkConfig _ _ _ _).
  destruct (ValidateConfig (length members) config'); [|done|done].
  set (c0 := mkConsistent config' [] (partition_count config') ∅ ∅ ∅ ∅).
  pose proof (InitMember_fold_covers members c0) as Hfold. cbv zeta in Hfold.
  revert Hfold. generalize (foldl (λ c member, InitMember (Clone member) c) c0 members).
  intros c1 Hcov.
  assert (ring_covers (ring_ c1) (sorted_set_ c1)) as Hc1.
  { apply Hcov. by apply Forall_nil. }
  destruct members as [|m ms]; [by intros [= <-]|].
  unfold DistributePartitions.
  destruct (for_partitions _ _ _) as [[partitions loads]| |]; [|done|done].
  by intros [= <-].
Qed.

Lemma CalculatePartitionsWithoutMember_covers (P : N * string → Prop)
    `{∀ kv, Decision (P kv)} (ring : gmap N string) :
  ring_covers (filter P ring) (sort ((map_to_list (filter P ring)).*1)).
Proof. apply ring_covers_keys. Qed.

(** *** Placements that raise whatever the hasher *)

(** Without room for all partitions either placement path raises
    InsufficientSpace. *)
Lemma placement_fails_without_room c ring sorted_set member_count :
  (ring_covers (ring_ c) (sorted_set_ c) →
   double_value (AverageLoad c) ≠ ext_pos_inf →
   size (ring_names (ring_ c) (sorted_set_ c)) * capacity (double_value (AverageLoad c))
     < partition_count_ c →
   DistributePartitions c = Throw InsufficientSpaceException)
  ∧ (member_count ≠ 0 → ring_covers ring sorted_set →
     ceil_avg_load c member_count ≠ ext_pos_inf →
     size (ring_names ring sorted_set) * capacity (ceil_avg_load c member_count)
       < partition_count_ c →
     CalculatePartitionsWithRingAndMemberCount c ring sorted_set member_count
     = Throw InsufficientSpaceException).
Proof.
  split.
  - intros Hcov Hfin Hroom. unfold DistributePartitions.
    rewrite DistributePartitions_body_walk, for_partitions_fails; try done.
    intros Hne p. by apply start_index_lt.
  - intros HM Hcov Hfin Hroom. unfold CalculatePartitionsWithRingAndMemberCount.
    destruct (member_count =? 0) eqn:E; [apply Nat.eqb_eq in E; done|].
    rewrite CalculatePartitions_body_walk. apply for_partitions_fails; try done.
    intros Hne p. by apply start_index_lt.
Qed.

Lemma ring_names_single name hs sorted_set :
  size (ring_names (ring_insert_all name hs ∅) sorted_set) ≤ 1.
Proof.
  rewrite <- (size_singleton (C:=gset string) name). apply subseteq_size.
  intros x (h & _ & Hx)%elem_of_ring_names. rewrite ring_insert_all_lookup in Hx.
  case_decide; [|by rewrite lookup_empty in Hx]. apply elem_of_singleton. congruence.
Qed.

(** Whatever the hasher and the member: one member, four partitions, two
    virtual nodes and load factor 0.5 pass [ValidateConfig], and the
    construction raises InsufficientSpace. *)
Lemma single_member_construction_raises (h : Hasher) (member : A) :
  ValidateConfig (length [member]) (mkConfig (Some h) 4 2 (double_ratio 1 2)) = Ok tt
  ∧ Consistent_new [member] (mkConfig (Some h) 4 2 (double_ratio 1 2))
    = Throw InsufficientSpaceException.
Proof.
  split; [by vm_compute|]. unfold Consistent_new.
  cbn [partition_count replication_factor load hasher].
  change (4 =? 0) with false. change (2 =? 0) with false.
  change (double_is_zero (double_ratio 1 2)) with false. cbv iota.
  change (ValidateConfig _ _) with (Ok tt : result unit). cbn [foldl].
  match goal with |- DistributePartitions (InitMember ?m ?c0) = _ => set (c := c0) end.
  assert (double_value (AverageLoad (InitMember (Clone member) c)) = ext_fin 2) as Havg.
  { unfold AverageLoad, InitMember. subst c.
    cbn [members_ partition_count_ config_ load].
    rewrite decide_False by apply insert_non_empty.
    rewrite map_size_insert_None, map_size_empty by apply lookup_empty.
    by vm_compute. }
  apply (proj1 (placement_fails_without_room (InitMember (Clone member) c) ∅ [] 0)).
  - apply (InitMember_fold_covers [member] c). by apply Forall_nil.
  - by rewrite Havg.
  - rewrite Havg. change (capacity (ext_fin 2)) with 2.
    unfold InitMember. subst c. cbn [ring_ sorted_set_ partition_count_].
    match goal with
    | |- size (ring_names (ring_insert_all ?n ?hs ∅) ?l) * 2 < _ =>
        pose proof (ring_names_single n hs l)
    end. lia.
Qed.

(** Whatever the configuration and the member: on a ring constructed
    without members the first [Add] raises at the lock and leaves a ring
    with one member and no partition table. *)
Lemma first_Add_raises config (member : A) c :
  Consistent_new [] config = Ok c →
  ∃ c', Add member c = Raised SystemError c'
        ∧ members_ c' = {[Member_String member := member]}
        ∧ partitions_ c' = ∅ ∧ loads_ c' = ∅.
Proof.
  unfold Consistent_new. destruct (ValidateConfig _ _); [|done|done].
  cbn [foldl]. intros [= <-]. rewrite Add_new by apply lookup_empty.
  eexists. split; [reflexivity|]. cbn [members_ partitions_ loads_].
  by rewrite insert_empty.
Qed.

(** *** The walk of [GetClosestN] *)

Lemma collected_step count result_ seen found :
  collected count result_ seen → length result_ < count → found ∉ seen →
  collected count (result_ ++ [found]) ({[found]} ∪ seen).
Proof.
  intros (Hnd & Hiff & Hlen & Hle) Hlt Hnot.
  assert (found ∉ result_) as Hnr by (by rewrite Hiff).
  split; [|split; [|split]].
  - apply NoDup_app. split; [done|]. split; [|apply NoDup_singleton].
    by intros x Hx ->%list_elem_of_singleton.
  - intros x. rewrite elem_of_app, list_elem_of_singleton, Hiff, elem_of_union,
      elem_of_singleton. tauto.
  - rewrite length_app, size_union, size_singleton, Hlen; [simpl; lia|].
    intros x ->%elem_of_singleton. done.
  - rewrite length_app. simpl. lia.
Qed.

Lemma GetClosestN_loop_Ok c count fuel :
  count ≤ size (members_ c) →
  ∀ result_ seen idx res,
    collected count result_ seen →
    GetClosestN_loop fuel c count result_ seen idx = Ok res →
    length res = count ∧ NoDup res.
Proof.
  intros HM. induction fuel as [|fuel IH]; intros result_ seen idx res Hcol; [done|].
  simpl. destruct (length result_ <? count) eqn:E1; simpl.
  - apply Nat.ltb_lt in E1.
    destruct (size seen <? size (members_ c)) eqn:E2.
    + destruct (sorted_set_ c !! idx) as [hash|]; [|done].
      destruct (ring_ c !! hash) as [found|]; [|done].
      destruct (decide (found ∈ seen)) as [Hin|Hnin].
      * by apply IH.
      * apply IH. by apply collected_step.
    + apply Nat.ltb_ge in E2. destruct Hcol as (_ & _ & Hlen & _). lia.
  - apply Nat.ltb_ge in E1. destruct Hcol as (Hnd & _ & _ & Hle).
    intros [= <-]. split; [lia | done].
Qed.

(** More fuel does not change a result. *)
Lemma GetClosestN_loop_more_fuel c count fuel :
  ∀ result_ seen idx k,
    GetClosestN_loop fuel c count result_ seen idx ≠ OutOfFuel →
    GetClosestN_loop (fuel + k) c count result_ seen idx
    = GetClosestN_loop fuel c count result_ seen idx.
Proof.
  induction fuel as [|fuel IH]; intros result_ seen idx k; [done|].
  simpl. destruct (_ && _); [|done].
  destruct (sorted_set_ c !! idx) as [hash|]; [|done].
  destruct (ring_ c !! hash) as [name|]; [|done].
  destruct (decide (name ∈ seen)); apply IH.
Qed.

Lemma GetClosestN_loop_terminates c count :
  ring_covers (ring_ c) (sorted_set_ c) →
  size (members_ c) ≤ size (ring_names (ring_ c) (sorted_set_ c)) →
  ∀ k fuel result_ seen idx,
    k < fuel → idx < length (sorted_set_ c) →
    (∀ x, x ∈ ring_names (ring_ c) (sorted_set_ c) →
          x ∈ seen
          ∨ ∃ j h, j < k
                   ∧ sorted_set_ c !! Nat.iter j (next_index (sorted_set_ c)) idx = Some h
                   ∧ ring_ c !! h = Some x) →
    ∃ res, GetClosestN_loop fuel c count result_ seen idx = Ok res.
Proof.
  intros Hcov Hsize. induction k as [|k IH]; intros fuel result_ seen idx Hfuel Hidx Hall.
  - destruct fuel as [|fuel]; [lia|]. simpl.
    assert (size (ring_names (ring_ c) (sorted_set_ c)) ≤ size seen) as Hle.
    { apply subseteq_size. intros x Hx. destruct (Hall x Hx) as [|(j & h & Hj & _)]; [done|lia]. }
    destruct (length result_ <? count); simpl; [|eauto].
    destruct (size seen <? size (members_ c)) eqn:E2; [|eauto].
    apply Nat.ltb_lt in E2. lia.
  - destruct fuel as [|fuel]; [lia|]. simpl.
    destruct (length result_ <? count); simpl; [|eauto].
    destruct (size seen <? size (members_ c)); [|eauto].
    destruct (lookup_lt_is_Some_2 (sorted_set_ c) idx Hidx) as [h0 Hh0]. rewrite Hh0.
    destruct (proj1 (Forall_forall _ _) Hcov h0) as [m0 Hm0].
    { by eapply list_elem_of_lookup_2. }
    rewrite Hm0.
    assert (next_index (sorted_set_ c) idx < length (sorted_set_ c)) as Hnext.
    { apply next_index_lt. intros Hnil. rewrite Hnil in Hidx. simpl in Hidx. lia. }
    assert (∀ seen', seen ⊆ seen' → m0 ∈ seen' →
              ∀ x, x ∈ ring_names (ring_ c) (sorted_set_ c) →
                x ∈ seen'
                ∨ ∃ j h, j < k
                    ∧ sorted_set_ c
                        !! Nat.iter j (next_index (sorted_set_ c))
                             (next_index (sorted_set_ c) idx) = Some h
                    ∧ ring_ c !! h = Some x) as Hstep.
    { intros seen' Hsub Hm x Hx. destruct (Hall x Hx) as [Hs|(j & h & Hj & Hh & Hr)].
      - left. by apply Hsub.
      - destruct j as [|j].
        + simpl in Hh. left. assert (h = h0) as -> by congruence.
          assert (x = m0) as -> by congruence. done.
        + right. exists j, h. rewrite Nat.iter_succ_r in Hh. split; [lia | done]. }
    destruct (decide (m0 ∈ seen)) as [Hin|Hnin].
    + apply IH; [lia | done |]. by apply Hstep.
    + apply IH; [lia | done |].
      apply Hstep; [apply union_subseteq_r | apply elem_of_union_l, elem_of_singleton; done].
Qed.

Lemma GetClosestN_part_total c fuel part_id count :
  1 ≤ count → count ≤ size (members_ c) →
  ring_covers (ring_ c) (sorted_set_ c) →
  size (members_ c) ≤ size (ring_names (ring_ c) (sorted_set_ c)) →
  is_Some (partitions_ c !! part_id) →
  length (sorted_set_ c) < fuel →
  ∃ res, GetClosestN_part fuel c part_id count = Ok res
         ∧ length res = count ∧ NoDup res.
Proof.
  intros Hc HM Hcov Hsize [owner Howner] Hfuel. unfold GetClosestN_part.
  destruct (size (members_ c) <? count) eqn:E; [apply Nat.ltb_lt in E; lia|].
  destruct (sorted_set_ c) as [|h0 l] eqn:Hs.
  { rewrite ring_names_nil, size_empty in Hsize. lia. }
  rewrite <- Hs in *. unfold GetPartitionOwner. rewrite Howner.
  assert (sorted_set_ c ≠ []) as Hne by (by rewrite Hs).
  destruct (GetClosestN_loop_terminates c count Hcov Hsize (length (sorted_set_ c)) fuel
              [] ∅ (start_index (sorted_set_ c) (hash_string c owner))) as [res Hres];
    [done | by apply start_index_lt | |].
  - intros x (h & Hh & Hx)%elem_of_ring_names. right.
    apply list_elem_of_lookup in Hh as [i Hi].
    pose proof (lookup_lt_Some _ _ _ Hi) as Hilt.
    destruct (reach_position (sorted_set_ c)
                (start_index (sorted_set_ c) (hash_string c owner)) i)
      as (j & Hj & Hpos & _); [by apply start_index_lt | done |].
    exists j, h. rewrite Hpos. done.
  - exists res. split; [done|].
    eapply GetClosestN_loop_Ok; [exact HM | | exact Hres].
    split; [constructor|]. split; [|split; [by rewrite size_empty | simpl; lia]].
    intros x. rewrite elem_of_nil, elem_of_empty. done.
Qed.

(** C7, amended.  For either overload of [GetClosestN]: a count that is not
    positive gives the empty result; a count above the member count raises
    InsufficientMemberCount; a count in between raises it as well when the
    sorted array is empty or the partition of the key has no owner; and it
    gives exactly [count] distinct members when the partition has an owner,
    every entry of the sorted array has a ring entry and the ring holds at
    least as many members as the registry. *)
Theorem GetClosestN_outcomes c (fuel : nat) (key : list byte) (key_string : string)
    (call : Z → result (list string)) (part_id : nat) (count : Z) :
  (call = GetClosestN fuel c key ∧ part_id = GetPartitionID c key)
  ∨ (call = GetClosestN_string fuel c key_string
     ∧ part_id = GetPartitionID_string c key_string) →
  ((count ≤ 0)%Z → call count = Ok [])
  ∧ ((Z.of_nat (size (members_ c)) < count)%Z →
     call count = Throw InsufficientMemberCountException)
  ∧ ((0 < count ≤ Z.of_nat (size (members_ c)))%Z →
     sorted_set_ c = [] ∨ partitions_ c !! part_id = None →
     call count = Throw InsufficientMemberCountException)
  ∧ ((0 < count ≤ Z.of_nat (size (members_ c)))%Z →
     is_Some (partitions_ c !! part_id) →
     ring_covers (ring_ c) (sorted_set_ c) →
     size (members_ c) ≤ size (ring_names (ring_ c) (sorted_set_ c)) →
     length (sorted_set_ c) < fuel →
     ∃ res, call count = Ok res ∧ Z.of_nat (length res) = count ∧ NoDup res).
Proof.
  intros Hcall.
  assert (call count
          = if (count <=? 0)%Z then Ok []
            else if (Z.of_nat (size (members_ c)) <? count)%Z
                 then Throw InsufficientMemberCountException
                 else GetClosestN_part fuel c part_id (Z.to_nat count)) as ->.
  { by destruct Hcall as [[-> ->]|[-> ->]]. }
  clear Hcall. split; [|split; [|split]].
  - intros Hle. by rewrite (proj2 (Z.leb_le _ _) Hle).
  - intros Hlt. destruct (count <=? 0)%Z eqn:E; [apply Z.leb_le in E; lia|].
    by rewrite (proj2 (Z.ltb_lt _ _) Hlt).
  - intros [Hpos HM] Hor.
    destruct (count <=? 0)%Z eqn:E; [apply Z.leb_le in E; lia|].
    destruct (Z.of_nat (size (members_ c)) <? count)%Z eqn:E2; [done|].
    unfold GetClosestN_part.
    destruct (size (members_ c) <? Z.to_nat count); [done|].
    destruct Hor as [-> | Hnone]; [done|].
    destruct (sorted_set_ c); [done|]. unfold GetPartitionOwner. by rewrite Hnone.
  - intros [Hpos HM] Howner Hcov Hsize Hfuel.
    destruct (count <=? 0)%Z eqn:E; [apply Z.leb_le in E; lia|].
    destruct (Z.of_nat (size (members_ c)) <? count)%Z eqn:E2;
      [apply Z.ltb_lt in E2; lia|].
    destruct (GetClosestN_part_total c fuel part_id (Z.to_nat count))
      as (res & Hres & Hlen & Hnd); [lia | lia | done..|].
    exists res. split; [done|]. split; [lia | done].
Qed.

(** *** The hasher and the sorted array of a ring *)

(** The hasher of a ring is never null. *)
Lemma reachable_hasher c : reachable c → is_Some (hasher (config_ c)).
Proof.
  induction 1 as [members config c Hnew
                 |member c c' _ IH Hop|member e c c' _ IH Hop
                 |name c c' _ IH Hop|name e c c' _ IH Hop].
  - revert Hnew. unfold Consistent_new.
    set (config' := mkConfig _ _ _ _).
    destruct (ValidateConfig _ config') eqn:Hv; [|done|done].
    assert (is_Some (hasher config')) as Hh.
    { unfold ValidateConfig in Hv. destruct (hasher config'); [eauto | done]. }
    set (c0 := mkConsistent config' [] (partition_count config') ∅ ∅ ∅ ∅).
    destruct (InitMember_fold members c0) as (Hc & _). revert Hc.
    generalize (foldl (λ c member, InitMember (Clone member) c) c0 members).
    intros c1 Hc. destruct members.
    + intros [= <-]. by rewrite Hc.
    + unfold DistributePartitions.
      destruct (for_partitions _ _ _) as [[? ?]| |]; [|done|done].
      intros [= <-]. simpl. by rewrite Hc.
  - revert Hop. unfold Add. destruct (members_ c !! _); [by intros [= <-]|].
    destruct (CalculatePartitionsWithNewMember _ _) as [[? ?]| |]; [|done|done].
    by intros [= <-].
  - revert Hop. unfold Add. destruct (members_ c !! _); [done|].
    destruct (CalculatePartitionsWithNewMember _ _) as [[? ?]| |]; [done| |done].
    by intros [= _ <-].
  - revert Hop. unfold RemoveByName. destruct (members_ c !! _); [|by intros [= <-]].
    destruct (CalculatePartitionsWithoutMember _ _) as [[? ?]| |]; [|done|done].
    by intros [= <-].
  - apply RemoveByName_raised_unchanged in Hop. by subst.
Qed.


Lemma InitMember_fold_sorted (members : list A) (c0 : Consistent A) :
  StronglySorted N.le (sorted_set_ c0) →
  StronglySorted N.le
    (sorted_set_ (foldl (λ c member, InitMember (Clone member) c) c0 members)).
Proof.
  revert c0. induction members as [|m ms IH]; intros c0 Hs; [done|].
  simpl. apply IH. simpl. apply sort_sorted.
Qed.

Lemma foldl_DelSlice_sorted hs l :
  StronglySorted N.le l → StronglySorted N.le (foldl (λ s h, DelSlice h s) l hs).
Proof.
  revert l. induction hs as [|h hs IH]; intros l Hs; [done|].
  simpl. apply IH. by apply DelSlice_sorted.
Qed.

(** The sorted array of a ring is sorted. *)
Lemma reachable_sorted c : reachable c → StronglySorted N.le (sorted_set_ c).
Proof.
  induction 1 as [members config c Hnew
                 |member c c' _ IH Hop|member e c c' _ IH Hop
                 |name c c' _ IH Hop|name e c c' _ IH Hop].
  - revert Hnew. unfold Consistent_new.
    destruct (ValidateConfig _ _); [|done|done].
    match goal with
    | |- context [foldl ?f ?c0 members] =>
        pose proof (InitMember_fold_sorted members c0 ltac:(constructor)) as Hs;
        revert Hs; generalize (foldl f c0 members)
    end.
    intros c1 Hs. destruct members; [by intros [= <-]|].
    unfold DistributePartitions.
    destruct (for_partitions _ _ _) as [[? ?]| |]; [|done|done]. by intros [= <-].
  - revert Hop. unfold Add. destruct (members_ c !! _); [by intros [= <-]|].
    destruct (CalculatePartitionsWithNewMember _ _) as [[? ?]| |]; [|done|done].
    intros [= <-]. simpl. apply sort_sorted.
  - revert Hop. unfold Add. destruct (members_ c !! _); [done|].
    destruct (CalculatePartitionsWithNewMember _ _) as [[? ?]| |]; [done| |done].
    intros [= _ <-]. simpl. apply sort_sorted.
  - revert Hop. unfold RemoveByName. destruct (members_ c !! _); [|by intros [= <-]].
    destruct (CalculatePartitionsWithoutMember _ _) as [[? ?]| |]; [|done|done].
    intros [= <-]. simpl. by apply foldl_DelSlice_sorted.
  - apply RemoveByName_raised_unchanged in Hop. by subst.
Qed.
End RingProperties.

(** ** The hashers *)

(** *** Bits and bytes *)

Lemma testbit_high_lt (a n m : N) : (a < 2 ^ n)%N → (n ≤ m)%N → N.testbit a m = false.
Proof.
  intros Ha Hm. rewrite <- (N.mod_small a (2 ^ n)) by done.
  by apply N.mod_pow2_bits_high.
Qed.

Lemma lxor_lt_pow2 (a b n : N) : (a < 2 ^ n)%N → (b < 2 ^ n)%N → (N.lxor a b < 2 ^ n)%N.
Proof.
  intros Ha Hb.
  assert (N.lxor a b = N.lxor a b mod 2 ^ n)%N as ->.
  { apply N.bits_inj. intros m. destruct (decide (m < n)%N).
    - by rewrite N.mod_pow2_bits_low.
    - rewrite N.mod_pow2_bits_high, N.lxor_spec by lia.
      by rewrite (testbit_high_lt a n m), (testbit_high_lt b n m) by lia. }
  apply N.mod_lt. by apply N.pow_nonzero.
Qed.

Lemma lxor_cancel_r (a b c : N) : N.lxor a c = N.lxor b c → a = b.
Proof.
  intros Heq. apply (f_equal (λ x, N.lxor x c)) in Heq.
  by rewrite !N.lxor_assoc, N.lxor_nilpotent, !N.lxor_0_r in Heq.
Qed.

Lemma lxor_cancel_l (a b c : N) : N.lxor c a = N.lxor c b → a = b.
Proof. rewrite !(N.lxor_comm c). apply lxor_cancel_r. Qed.

Lemma byte_lt_pow2 (b : byte) : (Byte.to_N b < 2 ^ 64)%N.
Proof.
  pose proof (Byte.to_N_bounded b). apply N.le_lt_trans with 255%N; [done|]. done.
Qed.

Lemma byte_shiftr_8 (b : byte) : N.shiftr (Byte.to_N b) 8 = 0%N.
Proof.
  apply N.shiftr_eq_0. pose proof (Byte.to_N_bounded b).
  destruct (decide (Byte.to_N b = 0%N)) as [->|]; [done|].
  apply N.log2_lt_pow2; lia.
Qed.

Lemma to_N_inj (b b' : byte) : Byte.to_N b = Byte.to_N b' → b = b'.
Proof.
  intros Heq. apply (f_equal Byte.of_N) in Heq.
  rewrite !Byte.of_to_N in Heq. congruence.
Qed.

Lemma low_byte_split x : x = N.lxor (N.land x 255) (N.shiftl (N.shiftr x 8) 8).
Proof.
  apply N.bits_inj. intros n. rewrite N.lxor_spec.
  destruct (decide (n < 8)%N) as [Hn|Hn].
  - rewrite testbit_land_255, N.shiftl_spec_low by done. by rewrite xorb_false_r.
  - rewrite N.land_spec, N.shiftl_spec_high', N.shiftr_spec' by lia.
    replace (n - 8 + 8)%N with n by lia.
    change 255%N with (N.ones 8). rewrite N.ones_spec_high by lia.
    by rewrite andb_false_r.
Qed.

Lemma land_255_lt x : (N.land x 255 < 256)%N.
Proof.
  change 255%N with (N.ones 8). rewrite N.land_ones. by apply N.mod_lt.
Qed.

(** A loop whose step is injective in the state and in the byte tells apart
    two inputs that differ in one byte. *)
Lemma foldl_separates {S : Type} (step : S → byte → S) (good : S → Prop) :
  (∀ s b, good s → good (step s b)) →
  (∀ s s' b, good s → good s' → step s b = step s' b → s = s') →
  (∀ s b b', good s → step s b = step s b' → b = b') →
  ∀ s0 p q b1 b2, good s0 → b1 ≠ b2 →
    foldl step s0 (p ++ b1 :: q) ≠ foldl step s0 (p ++ b2 :: q).
Proof.
  intros Hgood Hstate Hbyte s0 p q b1 b2 Hs0 Hne.
  rewrite !foldl_app. simpl.
  assert (good (foldl step s0 p)) as Hp.
  { clear Hne. revert s0 Hs0. induction p as [|b p IH]; intros s0 Hs0; [done|].
    simpl. apply IH. by apply Hgood. }
  assert (step (foldl step s0 p) b1 ≠ step (foldl step s0 p) b2) as Hstep.
  { intros Heq. apply Hne. by eapply Hbyte. }
  assert (good (step (foldl step s0 p) b1)) as G1 by by apply Hgood.
  assert (good (step (foldl step s0 p) b2)) as G2 by by apply Hgood.
  revert Hstep G1 G2.
  generalize (step (foldl step s0 p) b1) (step (foldl step s0 p) b2).
  induction q as [|b q IH]; intros s1 s2 Hs G1 G2; [done|].
  simpl. apply IH; [|by apply Hgood..].
  intros Heq. apply Hs. by eapply Hstate.
Qed.

Lemma foldl_good {S : Type} (step : S → byte → S) (good : S → Prop) (data : list byte) :
  (∀ s b, good s → good (step s b)) → ∀ s0, good s0 → good (foldl step s0 data).
Proof.
  intros Hgood. induction data as [|b data IH]; intros s0 Hs0; [done|].
  simpl. apply IH. by apply Hgood.
Qed.

(** *** CRC-64 *)

Lemma crc64_table_InitializeTable : crc64_table_ = InitializeTable.
Proof. vm_compute. reflexivity. Qed.

(** The check value of CRC-64/GO-ISO. *)
Lemma crc64_check_value :
  Sum64_string CRC64Hasher "123456789" = 0xb90956c775a41001%N.
Proof. vm_compute. reflexivity. Qed.

Lemma crc64_shift_spec x :
  crc64_shift x = N.lxor (N.shiftr x 1) (if N.testbit x 0 then CRC64_ISO_POLY else 0).
Proof.
  unfold crc64_shift. destruct x as [|[p|p|]]; try reflexivity.
  all: cbn [N.land Pos.land negb N.eqb N.testbit Pos.testbit]; try reflexivity.
  all: by rewrite N.lxor_0_r.
Qed.

Lemma crc64_shift_lxor x y :
  crc64_shift (N.lxor x y) = N.lxor (crc64_shift x) (crc64_shift y).
Proof.
  rewrite !crc64_shift_spec, N.shiftr_lxor, N.lxor_spec.
  generalize CRC64_ISO_POLY. intros poly.
  apply N.bits_inj. intros n. rewrite !N.lxor_spec.
  destruct (N.testbit x 0), (N.testbit y 0); cbn [xorb]; rewrite ?N.bits_0;
    destruct (N.testbit (N.shiftr x 1) n), (N.testbit (N.shiftr y 1) n),
      (N.testbit poly n); done.
Qed.

Lemma crc64_shift_iter_lxor k x y :
  Nat.iter k crc64_shift (N.lxor x y)
  = N.lxor (Nat.iter k crc64_shift x) (Nat.iter k crc64_shift y).
Proof. induction k as [|k IH]; [done|]. simpl. by rewrite IH, crc64_shift_lxor. Qed.

Lemma crc64_shift_shiftl z k :
  crc64_shift (N.shiftl z (N.succ k)) = N.shiftl z k.
Proof.
  rewrite crc64_shift_spec, N.shiftl_spec_low by lia.
  rewrite N.lxor_0_r. rewrite <- N.add_1_r, <- N.shiftl_shiftl.
  rewrite N.shiftr_shiftl_l by lia. by rewrite N.sub_diag, N.shiftl_0_r.
Qed.

Lemma crc64_shift_iter_shiftl z (k : nat) :
  Nat.iter k crc64_shift (N.shiftl z (N.of_nat k)) = z.
Proof.
  induction k as [|k IH]; [by rewrite N.shiftl_0_r|].
  rewrite Nat.iter_succ_r, Nat2N.inj_succ, crc64_shift_shiftl. done.
Qed.

Lemma crc64_table_lookup (i : N) :
  (i < 256)%N → crc64_table_ !!! N.to_nat i = Nat.iter 8 crc64_shift i.
Proof.
  intros Hi. rewrite crc64_table_InitializeTable. unfold InitializeTable.
  apply list_lookup_total_correct.
  rewrite list_lookup_fmap, lookup_seq_lt by lia. cbn [fmap option_fmap option_map plus].
  by rewrite N2Nat.id.
Qed.

(** The table lookup does the work of eight turns of the bitwise loop. *)
Lemma crc64_update_bitwise crc b :
  crc64_update crc b = Nat.iter 8 crc64_shift (N.lxor crc (Byte.to_N b)).
Proof.
  unfold crc64_update. rewrite crc64_table_lookup by apply land_255_lt.
  rewrite (low_byte_split (N.lxor crc (Byte.to_N b))) at 2.
  rewrite crc64_shift_iter_lxor. f_equal.
  change 8%N with (N.of_nat 8) at 2. rewrite crc64_shift_iter_shiftl.
  by rewrite N.shiftr_lxor, byte_shiftr_8, N.lxor_0_r.
Qed.

Lemma crc64_shift_lt x : (x < 2 ^ 64)%N → (crc64_shift x < 2 ^ 64)%N.
Proof.
  intros Hx. rewrite crc64_shift_spec. apply lxor_lt_pow2.
  - apply N.le_lt_trans with x; [|done]. rewrite N.shiftr_div_pow2.
    apply N.Div0.div_le_upper_bound. change (2 ^ 1)%N with 2%N. lia.
  - by destruct (N.testbit x 0).
Qed.

Lemma crc64_shift_inj x y :
  (x < 2 ^ 64)%N → (y < 2 ^ 64)%N → crc64_shift x = crc64_shift y → x = y.
Proof.
  intros Hx Hy. rewrite !crc64_shift_spec. intros Heq.
  assert (∀ z, (z < 2 ^ 64)%N →
    N.testbit (N.lxor (N.shiftr z 1) (if N.testbit z 0 then CRC64_ISO_POLY else 0)) 63
    = N.testbit z 0) as Htop.
  { intros z Hz. rewrite N.lxor_spec, N.shiftr_spec', (testbit_high_lt z 64) by (done || lia).
    by destruct (N.testbit z 0). }
  assert (N.testbit x 0 = N.testbit y 0) as Hbit.
  { by rewrite <- (Htop x), <- (Htop y), Heq. }
  rewrite Hbit in Heq. apply lxor_cancel_r in Heq.
  apply N.bits_inj. intros n. destruct (decide (n = 0%N)) as [->|Hn]; [done|].
  replace n with (N.pred n + 1)%N by lia. by rewrite <- !N.shiftr_spec', Heq.
Qed.

Lemma crc64_shift_iter_lt k x :
  (x < 2 ^ 64)%N → (Nat.iter k crc64_shift x < 2 ^ 64)%N.
Proof. intros Hx. induction k as [|k IH]; [done|]. simpl. by apply crc64_shift_lt. Qed.

Lemma crc64_shift_iter_inj k x y :
  (x < 2 ^ 64)%N → (y < 2 ^ 64)%N →
  Nat.iter k crc64_shift x = Nat.iter k crc64_shift y → x = y.
Proof.
  intros Hx Hy. induction k as [|k IH]; [done|]. simpl. intros Heq.
  apply IH. by apply crc64_shift_inj; [apply crc64_shift_iter_lt..|].
Qed.

Lemma crc64_update_lt crc b : (crc < 2 ^ 64)%N → (crc64_update crc b < 2 ^ 64)%N.
Proof.
  intros Hs. rewrite crc64_update_bitwise.
  apply crc64_shift_iter_lt, lxor_lt_pow2; [done|apply byte_lt_pow2].
Qed.

Lemma CalculateCRC64_separates p q b1 b2 :
  b1 ≠ b2 → CalculateCRC64 (p ++ b1 :: q) ≠ CalculateCRC64 (p ++ b2 :: q).
Proof.
  intros Hne Heq. unfold CalculateCRC64 in Heq. apply lxor_cancel_r in Heq.
  revert Heq. apply (foldl_separates crc64_update (λ s, (s < 2 ^ 64)%N)); [| | |done|done].
  - intros s b. apply crc64_update_lt.
  - intros s s' b Hs Hs'. rewrite !crc64_update_bitwise. intros Heq.
    apply crc64_shift_iter_inj in Heq;
      [|apply lxor_lt_pow2; [done|apply byte_lt_pow2]..].
    by apply lxor_cancel_r in Heq.
  - intros s b b' Hs. rewrite !crc64_update_bitwise. intros Heq.
    apply crc64_shift_iter_inj in Heq;
      [|apply lxor_lt_pow2; [done|apply byte_lt_pow2]..].
    by apply lxor_cancel_l, to_N_inj in Heq.
Qed.

Lemma CalculateCRC64_lt data : (CalculateCRC64 data < 2 ^ 64)%N.
Proof.
  unfold CalculateCRC64. apply lxor_lt_pow2; [|done].
  apply (foldl_good crc64_update (λ s, (s < 2 ^ 64)%N)); [|done].
  intros s b. apply crc64_update_lt.
Qed.

(** X1.  The table-driven loop of [CalculateCRC64] computes the bit-by-bit
    CRC-64 of the reflected polynomial [CRC64_ISO_POLY]: the table filled by
    [InitializeTable] holds, for each byte, the result of eight turns of the
    shift-and-xor step, and one table lookup per input byte does the work of
    eight turns on the register.  Both overloads of [Sum64]. *)
Theorem CalculateCRC64_is_bitwise (crc : N) (b : byte) (data : list byte) (text : string) :
  crc64_update crc b = Nat.iter 8 crc64_shift (N.lxor crc (Byte.to_N b))
  ∧ Sum64 CRC64Hasher data = crc64_bitwise data
  ∧ Sum64_string CRC64Hasher text = crc64_bitwise (String.list_byte_of_string text).
Proof.
  assert (∀ d, CalculateCRC64 d = crc64_bitwise d) as Hbit.
  { intros d. unfold CalculateCRC64, crc64_bitwise. f_equal.
    generalize 0xFFFFFFFFFFFFFFFF%N. induction d as [|b' d IH]; intros crc'; [done|].
    simpl. by rewrite crc64_update_bitwise, IH. }
  split; [apply crc64_update_bitwise|]. split; apply Hbit.
Qed.

(** X2.  [CRC64Hasher::Sum64] returns a 64-bit value and tells apart two
    inputs that differ in exactly one byte. *)
Theorem CalculateCRC64_separates_one_byte (p q : list byte) (b1 b2 : byte) :
  b1 ≠ b2 →
  Sum64 CRC64Hasher (p ++ b1 :: q) ≠ Sum64 CRC64Hasher (p ++ b2 :: q)
  ∧ (Sum64 CRC64Hasher (p ++ b1 :: q) < 2 ^ 64)%N.
Proof.
  intros Hne. split; [by apply CalculateCRC64_separates|apply CalculateCRC64_lt].
Qed.

(** *** CRC-64 on inputs of eight bytes at most *)

Lemma foldl_crc64_update data :
  ∀ crc, foldl crc64_update crc data
         = Nat.iter (8 * length data) crc64_shift (N.lxor crc (little_endian data)).
Proof.
  induction data as [|b data IH]; intros crc.
  - simpl. by rewrite N.lxor_0_r.
  - cbn [foldl length little_endian foldr]. fold (little_endian data).
    rewrite IH, crc64_update_bitwise.
    rewrite <- (crc64_shift_iter_shiftl (little_endian data) 8) at 1.
    rewrite <- crc64_shift_iter_lxor, <- Nat.iter_add.
    replace (8 * length data + 8) with (8 * S (length data)) by lia.
    by rewrite N.lxor_assoc.
Qed.

Lemma little_endian_lt data : (little_endian data < 2 ^ N.of_nat (8 * length data))%N.
Proof.
  induction data as [|b data IH]; [done|].
  cbn [little_endian foldr length]. fold (little_endian data).
  replace (N.of_nat (8 * S (length data))) with (N.of_nat (8 * length data) + 8)%N by lia.
  apply lxor_lt_pow2.
  - pose proof (Byte.to_N_bounded b).
    apply N.lt_le_trans with (2 ^ 8)%N; [change (2 ^ 8)%N with 256%N; lia|].
    apply N.pow_le_mono_r; lia.
  - rewrite N.shiftl_mul_pow2, N.pow_add_r. apply N.mul_lt_mono_pos_r; [done|apply IH].
Qed.

Lemma little_endian_inj d1 d2 :
  length d1 = length d2 → little_endian d1 = little_endian d2 → d1 = d2.
Proof.
  revert d2. induction d1 as [|b1 d1 IH]; intros [|b2 d2] Hlen; try done.
  cbn [little_endian foldr]. fold (little_endian d1) (little_endian d2). intros Heq.
  assert (∀ b l, N.land (N.lxor (Byte.to_N b) (N.shiftl l 8)) 255 = Byte.to_N b) as Hlow.
  { intros b l. apply N.bits_inj. intros n.
    destruct (decide (n < 8)%N) as [Hn|Hn].
    - rewrite testbit_land_255, N.lxor_spec, N.shiftl_spec_low by done.
      by rewrite xorb_false_r.
    - rewrite N.land_spec. change 255%N with (N.ones 8).
      rewrite N.ones_spec_high, andb_false_r by lia.
      symmetry. apply (testbit_high_lt _ 8); [|lia].
      pose proof (Byte.to_N_bounded b). change (2 ^ 8)%N with 256%N. lia. }
  assert (∀ b l, N.shiftr (N.lxor (Byte.to_N b) (N.shiftl l 8)) 8 = l) as Hhigh.
  { intros b l. rewrite N.shiftr_lxor, N.shiftr_shiftl_l, N.sub_diag, N.shiftl_0_r by lia.
    by rewrite byte_shiftr_8. }
  f_equal.
  - apply to_N_inj. by rewrite <- (Hlow b1 (little_endian d1)), Heq, Hlow.
  - apply IH; [by injection Hlen|].
    by rewrite <- (Hhigh b1 (little_endian d1)), Heq, Hhigh.
Qed.

Lemma CalculateCRC64_inj (d1 d2 : list byte) :
  length d1 = length d2 → length d1 ≤ 8 →
  CalculateCRC64 d1 = CalculateCRC64 d2 → d1 = d2.
Proof.
  intros Hlen H8 Heq. unfold CalculateCRC64 in Heq. apply lxor_cancel_r in Heq.
  rewrite !foldl_crc64_update, <- Hlen in Heq.
  assert (∀ d, length d ≤ 8 →
            (N.lxor 0xFFFFFFFFFFFFFFFF (little_endian d) < 2 ^ 64)%N) as Hlt.
  { intros d Hd. apply lxor_lt_pow2; [done|].
    apply N.lt_le_trans with (2 ^ N.of_nat (8 * length d))%N; [apply little_endian_lt|].
    apply N.pow_le_mono_r; lia. }
  apply crc64_shift_iter_inj in Heq; [|apply Hlt; lia..].
  apply lxor_cancel_l in Heq. by apply little_endian_inj.
Qed.

Lemma partition_bytes_inj (p q : nat) :
  (N.of_nat p < 2 ^ 64)%N → (N.of_nat q < 2 ^ 64)%N →
  partition_bytes p = partition_bytes q → p = q.
Proof.
  intros Hp Hq Heq. apply Nat2N.inj. apply N.bits_inj. intros n.
  destruct (decide (n < 64)%N) as [Hn|Hn].
  2:{ by rewrite (testbit_high_lt _ 64 n), (testbit_high_lt _ 64 n) by lia. }
  unfold partition_bytes in Heq.
  assert (∀ i, i < 8 →
    N.land (N.shiftr (N.of_nat p) (N.of_nat (i * 8))) 255
    = N.land (N.shiftr (N.of_nat q) (N.of_nat (i * 8))) 255) as Hbyte.
  { intros i Hi.
    apply (f_equal (λ l, Byte.to_N <$> l !! i)) in Heq.
    rewrite !list_lookup_fmap, lookup_seq_lt in Heq by done. simpl in Heq.
    unfold byte_of_N in Heq.
    assert (∀ x, Byte.to_N (default "000"%byte (Byte.of_N (N.land x 255))) = N.land x 255)
      as Hto.
    { intros x. pose proof (land_255_lt x) as Hx.
      destruct (Byte.of_N (N.land x 255)) as [b|] eqn:Hb.
      - simpl. by apply Byte.to_of_N in Hb.
      - apply Byte.of_N_None_iff in Hb. lia. }
    rewrite !Hto in Heq. congruence. }
  pose proof (Hbyte (N.to_nat (n / 8)%N)) as Hb.
  assert (n / 8 < 8)%N as Hdiv by (apply N.Div0.div_lt_upper_bound; lia).
  specialize (Hb ltac:(lia)).
  apply (f_equal (λ x, N.testbit x (n mod 8))) in Hb.
  assert (n mod 8 < 8)%N as Hmod by (by apply N.mod_lt).
  rewrite !testbit_land_255, !N.shiftr_spec' in Hb by done.
  replace (n mod 8 + N.of_nat (N.to_nat (n / 8) * 8))%N with n in Hb; [done|].
  pose proof (N.div_mod n 8). lia.
Qed.

(** X3.  [CRC64Hasher::Sum64] is injective on the inputs of one length of
    at most eight bytes; in particular two partitions (ids below [2^64])
    never share the hash of their 8-byte key. *)
Theorem CalculateCRC64_injective_up_to_8_bytes (d1 d2 : list byte) (p q : nat) :
  (length d1 = length d2 → length d1 ≤ 8 →
   Sum64 CRC64Hasher d1 = Sum64 CRC64Hasher d2 → d1 = d2)
  ∧ ((N.of_nat p < 2 ^ 64)%N → (N.of_nat q < 2 ^ 64)%N →
     Sum64 CRC64Hasher (partition_bytes p) = Sum64 CRC64Hasher (partition_bytes q) →
     p = q).
Proof.
  change (Sum64 CRC64Hasher) with CalculateCRC64.
  split; [exact (CalculateCRC64_inj d1 d2)|].
  intros Hp Hq Heq. apply partition_bytes_inj; [exact Hp|exact Hq|].
  apply CalculateCRC64_inj; [| |exact Heq].
  - unfold partition_bytes. by rewrite !length_fmap.
  - unfold partition_bytes. rewrite length_fmap, length_seq. lia.
Qed.

(** *** FNV-1a *)

Lemma FNV_step_inj x y :
  (x < 2 ^ 64)%N → (y < 2 ^ 64)%N → u64 (x * FNV_PRIME) = u64 (y * FNV_PRIME) → x = y.
Proof.
  intros Hx Hy Heq.
  assert (∀ z, (z < 2 ^ 64)%N → u64 (u64 (z * FNV_PRIME) * FNV_PRIME_inverse) = z) as Hinv.
  { intros z Hz. unfold u64. rewrite N.Div0.mul_mod_idemp_l, <- N.mul_assoc.
    rewrite <- N.Div0.mul_mod_idemp_r.
    replace ((FNV_PRIME * FNV_PRIME_inverse) mod 2 ^ 64)%N with 1%N by (by vm_compute).
    rewrite N.mul_1_r. by apply N.mod_small. }
  by rewrite <- (Hinv x), <- (Hinv y), Heq.
Qed.

Lemma FNV_Sum64_separates p q b1 b2 :
  b1 ≠ b2 → FNV_Sum64 (p ++ b1 :: q) ≠ FNV_Sum64 (p ++ b2 :: q).
Proof.
  intros Hne. unfold FNV_Sum64.
  apply (foldl_separates (λ hash b, u64 (N.lxor hash (Byte.to_N b) * FNV_PRIME))
           (λ s, (s < 2 ^ 64)%N)); [| | |done|done].
  - intros s b _. apply N.mod_lt. done.
  - intros s s' b Hs Hs' Heq.
    apply FNV_step_inj in Heq; [|apply lxor_lt_pow2; [done|apply byte_lt_pow2]..].
    by apply lxor_cancel_r in Heq.
  - intros s b b' Hs Heq.
    apply FNV_step_inj in Heq; [|apply lxor_lt_pow2; [done|apply byte_lt_pow2]..].
    by apply lxor_cancel_l, to_N_inj in Heq.
Qed.

Lemma FNV_Sum64_lt data : (FNV_Sum64 data < 2 ^ 64)%N.
Proof.
  unfold FNV_Sum64.
  apply (foldl_good (λ hash b, u64 (N.lxor hash (Byte.to_N b) * FNV_PRIME))
           (λ s, (s < 2 ^ 64)%N)); [|done].
  intros s b _. apply N.mod_lt. done.
Qed.

(** X4.  [FNVHasher::Sum64] returns a 64-bit value (the multiplication wraps)
    and tells apart two inputs that differ in exactly one byte: the FNV prime
    is odd, so each round is a bijection on the 64-bit state. *)
Theorem FNV_Sum64_separates_one_byte (p q : list byte) (b1 b2 : byte) :
  b1 ≠ b2 →
  Sum64 FNVHasher (p ++ b1 :: q) ≠ Sum64 FNVHasher (p ++ b2 :: q)
  ∧ (Sum64 FNVHasher (p ++ b1 :: q) < 2 ^ 64)%N.
Proof.
  intros Hne. split; [by apply FNV_Sum64_separates|apply FNV_Sum64_lt].
Qed.


(** ** The sorted array under [DelSlice] *)

Lemma lower_bound_elem l val :
  StronglySorted N.le l → val ∈ l → l !! lower_bound l val = Some val.
Proof.
  induction 1 as [|x l Hs IH Hx]; intros Hin; [by apply elem_of_nil in Hin|].
  simpl. destruct (x <? val)%N eqn:E.
  - apply N.ltb_lt in E. apply elem_of_cons in Hin as [->|Hin]; [lia|]. simpl. auto.
  - apply N.ltb_ge in E. simpl. f_equal.
    apply elem_of_cons in Hin as [->|Hin]; [done|].
    rewrite Forall_forall in Hx. apply Hx in Hin. lia.
Qed.

Lemma DelSlice_elem val l :
  StronglySorted N.le l → val ∈ l → l ≡ₚ val :: DelSlice val l.
Proof.
  intros Hs Hin. unfold DelSlice. rewrite (lower_bound_elem l val Hs Hin).
  rewrite N.eqb_refl. apply delete_Permutation. by apply lower_bound_elem.
Qed.

Lemma DelSlice_not_elem val l : val ∉ l → DelSlice val l = l.
Proof.
  intros Hin. unfold DelSlice.
  destruct (l !! lower_bound l val) as [x|] eqn:Hx; [|done].
  destruct (x =? val)%N eqn:E; [|done].
  apply N.eqb_eq in E. subst x. exfalso. apply Hin. by eapply list_elem_of_lookup_2.
Qed.

Lemma foldl_DelSlice_Permutation hs :
  ∀ l rest, StronglySorted N.le l → l ≡ₚ hs ++ rest →
    foldl (λ s h, DelSlice h s) l hs ≡ₚ rest.
Proof.
  induction hs as [|h hs IH]; intros l rest Hs Hp; [done|].
  simpl. apply IH; [by apply DelSlice_sorted|].
  apply (inj (cons h)).
  rewrite <- DelSlice_elem; [done|done|].
  rewrite Hp. by left.
Qed.

Lemma sorted_Permutation_eq (l1 l2 : list N) :
  StronglySorted N.le l1 → StronglySorted N.le l2 → l1 ≡ₚ l2 → l1 = l2.
Proof.
  intros H1 H2 Hp. assert (AntiSymm (=) N.le) by (intros x y ? ?; lia).
  by apply (StronglySorted_unique N.le).
Qed.

Lemma sort_then_DelSlice l hs :
  StronglySorted N.le l → foldl (λ s h, DelSlice h s) (sort (l ++ hs)) hs = l.
Proof.
  intros Hs. apply sorted_Permutation_eq; [|done|].
  - apply foldl_DelSlice_sorted, sort_sorted.
  - apply foldl_DelSlice_Permutation; [apply sort_sorted|].
    rewrite sort_Permutation. apply Permutation_app_comm.
Qed.


(** ** What the mutators change *)

Section MutatorStates.
Context {A : Type} `{Member A}.
Implicit Types (c : Consistent A).

Lemma Add_state member c c1 :
  members_ c !! Member_String member = None →
  Add member c = Returned c1 ∨ (∃ e, Add member c = Raised e c1) →
  config_ c1 = config_ c ∧ partition_count_ c1 = partition_count_ c
  ∧ members_ c1 = <[Member_String member:=member]> (members_ c)
  ∧ sorted_set_ c1 = sort (sorted_set_ c ++ vnode_hashes c (Member_String member))
  ∧ ring_ c1
    = ring_insert_all (Member_String member) (vnode_hashes c (Member_String member)) (ring_ c).
Proof.
  intros Hm. unfold Add. rewrite Hm.
  destruct (CalculatePartitionsWithNewMember _ _) as [[partitions loads]|e|].
  - intros [[= <-]|[e [=]]]. done.
  - intros [[=]|[e' [= _ <-]]]. done.
  - intros [[=]|[e' [=]]].
Qed.

Lemma RemoveByName_state name c c' :
  is_Some (members_ c !! name) → RemoveByName name c = Returned c' →
  config_ c' = config_ c ∧ partition_count_ c' = partition_count_ c
  ∧ members_ c' = delete name (members_ c)
  ∧ sorted_set_ c' = foldl (λ s h, DelSlice h s) (sorted_set_ c) (vnode_hashes c name)
  ∧ ring_ c' = foldl (λ r h, delete h r) (ring_ c) (vnode_hashes c name).
Proof.
  intros [m Hm]. unfold RemoveByName. rewrite Hm.
  destruct (CalculatePartitionsWithoutMember _ _) as [[partitions loads]|e|]; [|done..].
  intros [= <-]. done.
Qed.

Lemma Add_then_RemoveByName member c c1 c2 :
  StronglySorted N.le (sorted_set_ c) →
  members_ c !! Member_String member = None →
  Add member c = Returned c1 ∨ (∃ e, Add member c = Raised e c1) →
  RemoveByName (Member_String member) c1 = Returned c2 →
  config_ c2 = config_ c ∧ partition_count_ c2 = partition_count_ c
  ∧ members_ c2 = members_ c
  ∧ sorted_set_ c2 = sorted_set_ c
  ∧ (∀ k, ring_ c2 !! k
          = if decide (k ∈ vnode_hashes c (Member_String member)) then None
            else ring_ c !! k)
  ∧ ((∀ h, h ∈ vnode_hashes c (Member_String member) → ring_ c !! h = None) →
     ring_ c2 = ring_ c).
Proof.
  intros Hs Hm Hadd Hrem.
  destruct (Add_state _ _ _ Hm Hadd) as (A1 & A2 & A3 & A4 & A5).
  apply RemoveByName_state in Hrem as (R1 & R2 & R3 & R4 & R5).
  2:{ rewrite A3, lookup_insert_eq. eauto. }
  rewrite (vnode_hashes_config c c1) in R4, R5 by done.
  assert (∀ k, ring_ c2 !! k
               = if decide (k ∈ vnode_hashes c (Member_String member)) then None
                 else ring_ c !! k) as Hring.
  { intros k. rewrite R5, A5, ring_delete_all_lookup, ring_insert_all_lookup.
    by case_decide. }
  split_and!.
  - congruence.
  - congruence.
  - rewrite R3, A3. by apply delete_insert_id.
  - rewrite R4, A4. by apply sort_then_DelSlice.
  - done.
  - intros Hfree. apply map_eq. intros k. rewrite Hring.
    case_decide; [|done]. symmetry. by apply Hfree.
Qed.

Lemma RemoveByName_last name c :
  references_registered c → is_Some (members_ c !! name) → size (members_ c) = 1 →
  ∃ c', RemoveByName name c = Returned c'
        ∧ members_ c' = ∅ ∧ partitions_ c' = ∅ ∧ loads_ c' = ∅ ∧ ring_ c' = ∅.
Proof.
  intros (R1 & _ & _) [m Hm] Hsize. unfold RemoveByName. rewrite Hm.
  unfold CalculatePartitionsWithoutMember, CalculatePartitionsWithRingAndMemberCount.
  rewrite Hsize. simpl. eexists. split; [done|]. simpl. rewrite Hsize. simpl.
  split_and!; try done.
  - apply map_size_empty_iff. rewrite map_size_delete_Some by eauto. lia.
  - apply map_empty. intros k. rewrite ring_delete_all_lookup.
    case_decide as Hk; [done|].
    destruct (ring_ c !! k) as [x|] eqn:Hx; [|done]. exfalso.
    destruct (R1 _ _ Hx) as [[m' Hm'] Hv].
    destruct (decide (x = name)) as [->|Hne]; [done|].
    assert (delete name (members_ c) = ∅) as Hd.
    { apply map_size_empty_iff. rewrite map_size_delete_Some by eauto. lia. }
    assert (delete name (members_ c) !! x = Some m') as Hl.
    { by rewrite lookup_delete_ne. }
    by rewrite Hd, lookup_empty in Hl.
Qed.

End MutatorStates.


(** ** The sorted array and the registered members *)

Lemma length_bind_const {T U : Type} (f : T → list U) (n : nat) (l : list T) :
  (∀ x, length (f x) = n) → length (l ≫= f) = length l * n.
Proof.
  intros Hf. induction l as [|x l IH]; [done|].
  rewrite bind_cons, length_app, Hf, IH. simpl. lia.
Qed.

Section SortedSet.
Context {A : Type} `{Member A}.
Implicit Types (c : Consistent A).

Lemma vnodes_of_members_eq c c' :
  config_ c' = config_ c → members_ c' = members_ c →
  vnodes_of_members c' = vnodes_of_members c.
Proof.
  intros Hc Hm. unfold vnodes_of_members, member_names. rewrite Hm.
  induction ((map_to_list (members_ c)).*1) as [|x l IH]; [done|].
  by rewrite !bind_cons, IH, (vnode_hashes_config c c').
Qed.

Lemma vnodes_of_members_insert c c' name member :
  config_ c' = config_ c → members_ c !! name = None →
  members_ c' = <[name:=member]> (members_ c) →
  vnodes_of_members c' ≡ₚ vnode_hashes c name ++ vnodes_of_members c.
Proof.
  intros Hc Hm Hm'. unfold vnodes_of_members, member_names. rewrite Hm'.
  rewrite (map_to_list_insert _ _ _ Hm). rewrite fmap_cons, bind_cons. simpl.
  rewrite (vnode_hashes_config c c') by done. apply Permutation_app_head.
  induction ((map_to_list (members_ c)).*1) as [|x l IH]; [done|].
  by rewrite !bind_cons, IH, (vnode_hashes_config c c').
Qed.

Lemma vnodes_of_members_delete c c' name :
  config_ c' = config_ c → is_Some (members_ c !! name) →
  members_ c' = delete name (members_ c) →
  vnodes_of_members c ≡ₚ vnode_hashes c name ++ vnodes_of_members c'.
Proof.
  intros Hc [m Hm] Hm'. unfold vnodes_of_members, member_names. rewrite Hm'.
  rewrite <- (map_to_list_delete _ _ _ Hm). rewrite fmap_cons, bind_cons. simpl.
  apply Permutation_app_head.
  induction ((map_to_list (delete name (members_ c))).*1) as [|x l IH]; [done|].
  by rewrite !bind_cons, IH, (vnode_hashes_config c c').
Qed.

Lemma sorted_set_invariant_length c :
  sorted_set_invariant c →
  length (sorted_set_ c) = size (members_ c) * replication_factor (config_ c).
Proof.
  intros [_ Hp]. rewrite Hp. unfold vnodes_of_members, member_names.
  rewrite (length_bind_const _ (replication_factor (config_ c))).
  - by rewrite length_fmap, length_map_to_list.
  - apply vnode_hashes_length.
Qed.

Lemma InitMember_sorted_set_invariant member c :
  members_ c !! Member_String member = None →
  sorted_set_invariant c → sorted_set_invariant (InitMember member c).
Proof.
  intros Hm [Hs Hp]. split; [apply sort_sorted|].
  rewrite (vnodes_of_members_insert c _ (Member_String member) member) by done.
  simpl. rewrite sort_Permutation, Hp. apply Permutation_app_comm.
Qed.

Lemma InitMember_fold_sorted_set_invariant (members : list A) c0 :
  NoDup (Member_String ∘ Clone <$> members) →
  (∀ m, m ∈ members → members_ c0 !! Member_String (Clone m) = None) →
  sorted_set_invariant c0 →
  sorted_set_invariant (foldl (λ c member, InitMember (Clone member) c) c0 members).
Proof.
  revert c0. induction members as [|m ms IH]; intros c0 Hnd Hfresh Hc0; [done|].
  simpl. rewrite fmap_cons in Hnd. apply NoDup_cons in Hnd as [Hm Hnd].
  apply IH; [done| |].
  - intros m' Hm'. simpl. rewrite lookup_insert_ne; [apply Hfresh; by right|].
    intros Heq. apply Hm. rewrite list_elem_of_fmap. exists m'. by split.
  - apply InitMember_sorted_set_invariant; [|done]. apply Hfresh. by left.
Qed.

Lemma Consistent_new_sorted_set_invariant (members : list A) config c :
  NoDup (Member_String ∘ Clone <$> members) →
  Consistent_new members config = Ok c → sorted_set_invariant c.
Proof.
  intros Hnd. unfold Consistent_new. set (config' := mkConfig _ _ _ _).
  destruct (ValidateConfig (length members) config'); [|done..].
  set (c0 := mkConsistent config' [] (partition_count config') ∅ ∅ ∅ ∅).
  assert (sorted_set_invariant c0) as Hc0.
  { split; [constructor|]. unfold vnodes_of_members, member_names. simpl.
    by rewrite map_to_list_empty. }
  pose proof (InitMember_fold_sorted_set_invariant members c0 Hnd (λ _ _, lookup_empty _) Hc0)
    as Hfold. revert Hfold.
  generalize (foldl (λ c member, InitMember (Clone member) c) c0 members).
  intros c1 [Hs Hp]. destruct members as [|m ms].
  - by intros [= <-].
  - intros (Hc & Hss & _ & Hm & _)%DistributePartitions_tables.
    split; rewrite Hss; [done|]. by rewrite (vnodes_of_members_eq c1 c).
Qed.

Lemma Add_sorted_set_invariant member c :
  sorted_set_invariant c →
  match Add member c with
  | Returned c' | Raised _ c' => sorted_set_invariant c'
  | Stuck => True
  end.
Proof.
  intros [Hs Hp].
  destruct (members_ c !! Member_String member) eqn:Hm.
  { unfold Add. by rewrite Hm. }
  assert (∀ c1, Add member c = Returned c1 ∨ (∃ e, Add member c = Raised e c1) →
                sorted_set_invariant c1) as Hboth.
  { intros c1 Hadd. destruct (Add_state _ _ _ Hm Hadd) as (A1 & A2 & A3 & A4 & A5).
    split; rewrite A4; [apply sort_sorted|].
    rewrite (vnodes_of_members_insert c c1 _ member) by done.
    rewrite sort_Permutation, Hp. apply Permutation_app_comm. }
  destruct (Add member c) as [c1|e c1|]; [apply Hboth; by left|apply Hboth; eauto|done].
Qed.

Lemma RemoveByName_sorted_set_invariant name c :
  sorted_set_invariant c →
  match RemoveByName name c with
  | Returned c' | Raised _ c' => sorted_set_invariant c'
  | Stuck => True
  end.
Proof.
  intros [Hs Hp].
  destruct (members_ c !! name) eqn:Hm.
  2:{ unfold RemoveByName. by rewrite Hm. }
  destruct (RemoveByName name c) as [c1|e c1|] eqn:Hrem; [| |done].
  - apply RemoveByName_state in Hrem as (R1 & R2 & R3 & R4 & R5); [|eauto].
    split; rewrite R4; [by apply foldl_DelSlice_sorted|].
    apply foldl_DelSlice_Permutation; [done|].
    rewrite Hp. apply vnodes_of_members_delete; eauto.
  - apply RemoveByName_raised_unchanged in Hrem. by subst.
Qed.

End SortedSet.


(** ** The members [GetClosestN] returns *)

Section Closest.
Context {A : Type} `{Member A}.
Implicit Types (c : Consistent A).

Lemma GetClosestN_loop_elem c count fuel :
  ∀ result_ seen idx res,
    GetClosestN_loop fuel c count result_ seen idx = Ok res →
    ∀ x, x ∈ res → x ∈ result_ ∨ x ∈ ring_names (ring_ c) (sorted_set_ c).
Proof.
  induction fuel as [|fuel IH]; intros result_ seen idx res; [done|].
  simpl. destruct (_ && _); [|intros [= <-]; auto].
  destruct (sorted_set_ c !! idx) as [hash|] eqn:Hhash; [|done].
  destruct (ring_ c !! hash) as [member|] eqn:Hmember; [|done].
  assert (member ∈ ring_names (ring_ c) (sorted_set_ c)) as Hin.
  { apply elem_of_ring_names. exists hash. split; [|done].
    by eapply list_elem_of_lookup_2. }
  case_decide.
  - apply IH.
  - intros Hloop x Hx. destruct (IH _ _ _ _ Hloop x Hx) as [Hr|]; [|by right].
    apply elem_of_app in Hr as [?|Hr]; [by left|].
    apply list_elem_of_singleton in Hr as ->. by right.
Qed.

Lemma GetClosestN_part_Ok c fuel part_id count res :
  references_registered c →
  GetClosestN_part fuel c part_id count = Ok res →
  length res = count ∧ NoDup res
  ∧ (∀ x, x ∈ res → x ∈ ring_names (ring_ c) (sorted_set_ c) ∧ is_Some (members_ c !! x))
  ∧ (count = size (members_ c) → res ≡ₚ member_names c).
Proof.
  intros (R1 & _ & _). unfold GetClosestN_part.
  destruct (size (members_ c) <? count) eqn:E; [done|]. apply Nat.ltb_ge in E.
  destruct (sorted_set_ c) as [|h0 l0] eqn:Hsorted; [done|]. rewrite <- Hsorted.
  destruct (GetPartitionOwner c part_id) as [owner|]; [|done].
  intros Hloop.
  assert (collected count [] ∅) as Hcol.
  { split; [constructor|]. split; [|split; [done|simpl; lia]].
    intros x. split; [by intros ?%elem_of_nil|by intros ?%elem_of_empty]. }
  destruct (GetClosestN_loop_Ok c count fuel E _ _ _ _ Hcol Hloop) as [Hlen Hnd].
  assert (∀ x, x ∈ res →
            x ∈ ring_names (ring_ c) (sorted_set_ c) ∧ is_Some (members_ c !! x)) as Hreg.
  { intros x Hx. destruct (GetClosestN_loop_elem _ _ _ _ _ _ _ Hloop x Hx) as [Hn|Hr].
    - by apply elem_of_nil in Hn.
    - split; [done|]. apply elem_of_ring_names in Hr as (h & _ & Hh).
      by apply R1 in Hh as [? _]. }
  split; [exact Hlen|]. split; [exact Hnd|]. split; [exact Hreg|].
  intros Hall. apply submseteq_length_Permutation.
  - apply NoDup_submseteq; [done|].
    intros x Hx. apply Hreg in Hx as [_ [m Hm]].
    unfold member_names. rewrite list_elem_of_fmap. exists (x, m).
    split; [done|]. by apply elem_of_map_to_list.
  - unfold member_names. rewrite length_fmap, length_map_to_list. lia.
Qed.

End Closest.


(** ** The cache of [GetMembers] *)

Section CacheProperties.
Context {A : Type} `{Member A}.

Lemma clone_cached_Permutation c l1 l2 r1 :
  l1 ≡ₚ l2 → clone_cached c l1 = Ok r1 → ∃ r2, clone_cached c l2 = Ok r2 ∧ r1 ≡ₚ r2.
Proof.
  intros Hp. revert r1. induction Hp as [|x l1 l2 Hp IH|x y l|l1 l2 l3 Hp1 IH1 Hp2 IH2];
    intros r1; simpl.
  - intros [= <-]. by exists [].
  - destruct (members_ c !! x) as [m|]; [|done].
    destruct (clone_cached c l1) as [r|e|]; [|done..].
    intros [= <-]. destruct (IH r eq_refl) as (r2 & -> & Hr). exists (Clone m :: r2).
    split; [done|]. by constructor.
  - destruct (members_ c !! y) as [my|]; [|done].
    destruct (members_ c !! x) as [mx|]; [|done].
    destruct (clone_cached c l) as [r|e|]; [|done..].
    intros [= <-]. exists (Clone mx :: Clone my :: r). split; [done|]. constructor.
  - intros Hr1. destruct (IH1 _ Hr1) as (r2 & Hr2 & Hp12).
    destruct (IH2 _ Hr2) as (r3 & Hr3 & Hp23). exists r3. split; [done|]. by etrans.
Qed.

Lemma clone_cached_all c :
  clone_cached c (member_names c) = Ok (Clone <$> (map_to_list (members_ c)).*2).
Proof.
  unfold member_names.
  assert (∀ kv, kv ∈ map_to_list (members_ c) → members_ c !! kv.1 = Some kv.2) as Hl.
  { intros [k v]. apply elem_of_map_to_list. }
  induction (map_to_list (members_ c)) as [|[k v] l IH]; [done|].
  pose proof (Hl (k, v) ltac:(by left)) as Hkv. simpl in Hkv.
  rewrite !fmap_cons. cbn [clone_cached fst snd]. rewrite Hkv.
  rewrite IH; [done|]. intros kv Hkv'. apply Hl. by right.
Qed.

Lemma clone_cached_ext c c' cached :
  (∀ x, x ∈ cached → members_ c' !! x = members_ c !! x) →
  clone_cached c' cached = clone_cached c cached.
Proof.
  induction cached as [|x cached IH]; intros Hsame; [done|].
  simpl. rewrite Hsame by (by left). rewrite IH; [done|].
  intros y Hy. apply Hsame. by right.
Qed.

Lemma GetMembers_coherent s :
  cache_coherent s →
  (∃ l, (GetMembers s).1 = Ok l
        ∧ l ≡ₚ Clone <$> (map_to_list (members_ (ring_state s))).*2)
  ∧ ring_state (GetMembers s).2 = ring_state s
  ∧ cache_coherent (GetMembers s).2
  ∧ GetMembers (GetMembers s).2 = GetMembers s.
Proof.
  intros Hco. unfold GetMembers.
  destruct (members_dirty_ s) eqn:Hdirty; simpl.
  - split_and!; [rewrite clone_cached_all; eauto|done|by intros _ _|].
    case_bool_decide as Hnil; simpl; [by rewrite Hnil|done].
  - case_bool_decide as Hnil; simpl.
    + split_and!; [rewrite clone_cached_all; eauto|done|by intros _ _|].
      case_bool_decide as Hnil'; simpl; [by rewrite Hnil'|done].
    + split_and!; [|done|done|by rewrite Hdirty, bool_decide_false].
      destruct (clone_cached_Permutation (ring_state s) (member_names (ring_state s))
                  (cached_members_ s) _ (symmetry (Hco Hdirty Hnil))
                  (clone_cached_all _)) as (l & Hl & Hp).
      exists l. split; [done|]. by symmetry.
Qed.

Lemma cache_coherent_kept (members : list A) config member name s :
  (∀ s0, Cached_new members config = Ok s0 → cache_coherent s0)
  ∧ (cache_coherent s →
     (∀ s', Add_cached member s = Returned_cached s' → cache_coherent s')
     ∧ (∀ s', RemoveByName_cached name s = Returned_cached s' → cache_coherent s')
     ∧ (∀ e s', RemoveByName_cached name s = Raised_cached e s' → cache_coherent s')).
Proof.
  split.
  - unfold Cached_new. destruct (Consistent_new members config); [|done..].
    intros s0 [= <-]. by intros [=].
  - intros Hco. split_and!.
    + unfold Add_cached. destruct (members_ _ !! _); [by intros s' [= <-]|].
      destruct (Add _ _); [|done..]. intros s' [= <-]. by intros [=].
    + unfold RemoveByName_cached. destruct (members_ _ !! _); [|by intros s' [= <-]].
      destruct (RemoveByName _ _); [|done..]. intros s' [= <-]. by intros [=].
    + unfold RemoveByName_cached. destruct (members_ _ !! _); [|done].
      destruct (RemoveByName _ _) as [|e' c'|] eqn:Hrem; [done| |done].
      apply RemoveByName_raised_unchanged in Hrem as ->.
      intros e s' [= _ <-]. by destruct s.
Qed.

Lemma GetMembers_after_raised_Add member e s s' :
  cache_coherent s → members_dirty_ s = false → cached_members_ s ≠ [] →
  Add_cached member s = Raised_cached e s' →
  members_ (ring_state s')
  = <[Member_String member:=member]> (members_ (ring_state s))
  ∧ members_ (ring_state s) !! Member_String member = None
  ∧ ∃ l, (GetMembers s').1 = Ok l
         ∧ l ≡ₚ Clone <$> (map_to_list (members_ (ring_state s))).*2
         ∧ S (length l) = size (members_ (ring_state s')).
Proof.
  intros Hco Hdirty Hnil. unfold Add_cached.
  destruct (members_ _ !! _) eqn:Hm; [done|].
  destruct (Add _ _) as [|e' c'|] eqn:Hadd; [done| |done].
  intros [= _ <-].
  apply Add_raised_registered in Hadd as (_ & _ & Hm' & _). simpl.
  split; [done|]. split; [done|].
  unfold GetMembers. simpl. rewrite Hdirty, bool_decide_false by done. simpl.
  rewrite (clone_cached_ext (ring_state s)).
  2:{ intros x Hx. rewrite Hm'. apply lookup_insert_ne.
      intros <-. rewrite (Hco Hdirty Hnil) in Hx.
      unfold member_names in Hx. apply list_elem_of_fmap in Hx as ([k v] & Hk & Hkv).
      apply elem_of_map_to_list in Hkv. simpl in Hk. congruence. }
  destruct (clone_cached_Permutation (ring_state s) (member_names (ring_state s))
              (cached_members_ s) _ (symmetry (Hco Hdirty Hnil))
              (clone_cached_all _)) as (l & Hl & Hp).
  exists l. split; [done|]. split; [by symmetry|].
  rewrite <- Hp, Hm', map_size_insert_None by done.
  by rewrite !length_fmap, length_map_to_list.
Qed.

End CacheProperties.


(** ** Virtual-node keys *)

Lemma to_string_inj (a b : N) : to_string a = to_string b → a = b.
Proof.
  unfold to_string. intros Heq.
  apply (f_equal NilEmpty.uint_of_string) in Heq. rewrite !NilEmpty.usu in Heq.
  injection Heq as Heq. apply (f_equal N.of_uint) in Heq.
  by rewrite !DecimalN.Unsigned.of_to in Heq.
Qed.

Lemma list_byte_of_string_inj (s1 s2 : string) :
  String.list_byte_of_string s1 = String.list_byte_of_string s2 → s1 = s2.
Proof.
  intros Heq. apply (f_equal String.string_of_list_byte) in Heq.
  by rewrite !String.string_of_list_byte_of_string in Heq.
Qed.

Section Keys.
Context {A : Type} `{Member A}.

Lemma BuildVirtualNodeKey_inj (name : string) (i j : nat) :
  BuildVirtualNodeKey name i = BuildVirtualNodeKey name j → i = j.
Proof.
  unfold BuildVirtualNodeKey. intros Heq%app_inv_head.
  apply list_byte_of_string_inj, to_string_inj in Heq. lia.
Qed.

Lemma BuildVirtualNodeKey_NoDup (name : string) (R : nat) :
  NoDup (BuildVirtualNodeKey name <$> seq 0 R).
Proof.
  apply NoDup_fmap_2; [|apply NoDup_seq].
  intros i j. apply BuildVirtualNodeKey_inj.
Qed.

Lemma BuildVirtualNodeKey_digit (name : string) (i : nat) :
  i < 10 → BuildVirtualNodeKey name i = String.list_byte_of_string name ++ [digit i].
Proof.
  intros Hi. unfold BuildVirtualNodeKey. f_equal.
  do 10 (destruct i as [|i]; [reflexivity|]). lia.
Qed.

Lemma digit_inj (i j : nat) : i < 10 → j < 10 → digit i = digit j → i = j.
Proof.
  intros Hi Hj.
  do 10 (destruct i as [|i]; [do 10 (destruct j as [|j]; [done|]); lia|]). lia.
Qed.

Lemma vnode_hashes_NoDup (c : Consistent A) (name : string) :
  hasher (config_ c) = Some FNVHasher ∨ hasher (config_ c) = Some CRC64Hasher →
  replication_factor (config_ c) ≤ 10 →
  NoDup (vnode_hashes c name).
Proof.
  intros Hh HR. unfold vnode_hashes. apply NoDup_fmap_2_strong; [|apply NoDup_seq].
  intros i j [_ Hi]%elem_of_seq [_ Hj]%elem_of_seq. simpl in Hi, Hj.
  rewrite !BuildVirtualNodeKey_digit by lia.
  destruct (decide (i = j)) as [|Hne]; [done|]. intros Heq. exfalso.
  assert (digit i ≠ digit j) as Hd by (intros ?%digit_inj; lia).
  unfold hash_bytes in Heq. destruct Hh as [Hh|Hh]; rewrite Hh in Heq; simpl in Heq.
  - by apply FNV_Sum64_separates in Heq.
  - by apply CalculateCRC64_separates in Heq.
Qed.

End Keys.


(** ** Construction and the empty ring *)

Section Construction.
Context {A : Type} `{Member A}.
Implicit Types (c : Consistent A).

Lemma InitMember_fold_members (members : list A) c0 name :
  is_Some (members_ (foldl (λ c member, InitMember (Clone member) c) c0 members) !! name)
  ↔ is_Some (members_ c0 !! name) ∨ name ∈ (Member_String ∘ Clone <$> members).
Proof.
  revert c0. induction members as [|m ms IH]; intros c0.
  - simpl. rewrite elem_of_nil. tauto.
  - simpl. rewrite IH. simpl. rewrite lookup_insert_is_Some', elem_of_cons.
    split; [intros [[->|?]|?]|intros [?|[->|?]]]; auto.
Qed.

Lemma Consistent_new_members (members : list A) config c name :
  Consistent_new members config = Ok c →
  (is_Some (members_ c !! name) ↔ name ∈ (Member_String ∘ Clone <$> members))
  ∧ size (members_ c) ≤ length members.
Proof.
  unfold Consistent_new. set (config' := mkConfig _ _ _ _).
  destruct (ValidateConfig (length members) config'); [|done..].
  set (c0 := mkConsistent config' [] (partition_count config') ∅ ∅ ∅ ∅).
  pose proof (InitMember_fold_members members c0 name) as Hfold.
  assert (size (members_ (foldl (λ c member, InitMember (Clone member) c) c0 members))
          ≤ size (members_ c0) + length members) as Hsize.
  { clear. generalize c0. induction members as [|m ms IH]; intros c1; [simpl; lia|].
    simpl. etrans; [apply IH|]. simpl.
    pose proof (map_size_insert (Member_String (Clone m)) (Clone m) (members_ c1)) as Hi.
    destruct (members_ c1 !! _); unfold id in Hi; lia. }
  revert Hfold Hsize.
  generalize (foldl (λ c member, InitMember (Clone member) c) c0 members).
  intros c1 Hfold Hsize. simpl in Hfold, Hsize.
  assert (is_Some (members_ c1 !! name) ↔ name ∈ (Member_String ∘ Clone <$> members)) as Hc1.
  { rewrite Hfold, lookup_empty. split; [intros [[? [=]]|?]; done|by right]. }
  destruct members as [|m ms].
  - by intros [= <-].
  - intros (_ & _ & _ & -> & _)%DistributePartitions_tables. done.
Qed.

(** The ring without members. *)
Lemma Consistent_new_empty config (h : Hasher) :
  hasher config = Some h →
  ∃ c, Consistent_new [] config = Ok c
       ∧ members_ c = ∅ ∧ ring_ c = ∅ ∧ sorted_set_ c = []
       ∧ partitions_ c = ∅ ∧ loads_ c = ∅
       ∧ partition_count_ c
         = (if partition_count config =? 0 then DEFAULT_PARTITION_COUNT
            else partition_count config)
       ∧ hasher (config_ c) = Some h.
Proof.
  intros Hh. unfold Consistent_new, ValidateConfig. simpl. rewrite Hh.
  eexists. split; [done|]. by simpl.
Qed.

Lemma queries_without_members c fuel (key : list byte) (key_string : string) (count : Z) :
  members_ c = ∅ → ring_ c = ∅ →
  LocateKey c key = None ∧ LocateKey_string c key_string = None
  ∧ ((0 < count)%Z →
     GetClosestN fuel c key count = Throw InsufficientMemberCountException
     ∧ GetClosestN_string fuel c key_string count = Throw InsufficientMemberCountException)
  ∧ ((count ≤ 0)%Z →
     GetClosestN fuel c key count = Ok [] ∧ GetClosestN_string fuel c key_string count = Ok [])
  ∧ GetAverageLoad c = S754_zero false.
Proof.
  intros Hm Hr. unfold LocateKey, LocateKey_string, GetClosestN, GetClosestN_string,
    GetAverageLoad, AverageLoad.
  rewrite !decide_True by done. rewrite Hm, map_size_empty.
  split_and!; [done|done| | |done].
  - intros Hc. destruct (count <=? 0)%Z eqn:E; [apply Z.leb_le in E; lia|].
    destruct (Z.of_nat 0 <? count)%Z eqn:E'; [done|apply Z.ltb_ge in E'; lia].
  - intros Hc. by destruct (count <=? 0)%Z eqn:E; [|apply Z.leb_gt in E; lia].
Qed.

Lemma Consistent_new_null_hasher (members : list A) config :
  hasher config = None → Consistent_new members config = Throw InvalidArgument.
Proof. intros Hh. unfold Consistent_new, ValidateConfig. simpl. by rewrite Hh. Qed.

End Construction.


(** ** Virtual-node keys that coincide *)

Lemma string_of_uint_app (l1 l2 : list DecimalFacts.digits) :
  NilEmpty.string_of_uint (DecimalFacts.of_list (l1 ++ l2))
  = (NilEmpty.string_of_uint (DecimalFacts.of_list l1)
     +:+ NilEmpty.string_of_uint (DecimalFacts.of_list l2))%string.
Proof.
  induction l1 as [|h l1 IH]; [done|].
  destruct h; simpl; by rewrite IH.
Qed.

Lemma of_lu_digit (j : N) (l : list DecimalFacts.digits) :
  (j < 10)%N →
  DecimalPos.Unsigned.of_lu (DecimalFacts.of_list (decimal_digit j :: l))
  = (j + 10 * DecimalPos.Unsigned.of_lu (DecimalFacts.of_list l))%N.
Proof.
  intros Hj.
  assert (j = 0 ∨ j = 1 ∨ j = 2 ∨ j = 3 ∨ j = 4 ∨ j = 5 ∨ j = 6 ∨ j = 7 ∨ j = 8 ∨ j = 9)%N
    as Hcases by lia.
  destruct Hcases as [->|[->|[->|[->|[->|[->|[->|[->|[->| ->]]]]]]]]]; reflexivity.
Qed.

Lemma to_uint_digit (j : N) :
  (j < 10)%N → N.to_uint j = DecimalFacts.of_list [decimal_digit j].
Proof.
  intros Hj.
  assert (j = 0 ∨ j = 1 ∨ j = 2 ∨ j = 3 ∨ j = 4 ∨ j = 5 ∨ j = 6 ∨ j = 7 ∨ j = 8 ∨ j = 9)%N
    as Hcases by lia.
  destruct Hcases as [->|[->|[->|[->|[->|[->|[->|[->|[->| ->]]]]]]]]]; reflexivity.
Qed.

Lemma to_uint_head (i : N) :
  (0 < i)%N →
  ∃ h t, DecimalFacts.to_list (N.to_uint i) = h :: t ∧ h ≠ DecimalFacts.d0.
Proof.
  intros Hi.
  assert (Decimal.unorm (N.to_uint i) = N.to_uint i) as Hnorm.
  { rewrite <- DecimalN.Unsigned.to_of. by rewrite DecimalN.Unsigned.of_to. }
  apply (f_equal DecimalFacts.to_list) in Hnorm.
  rewrite DecimalFacts.unorm_spec in Hnorm. unfold DecimalFacts.lunorm in Hnorm.
  assert (DecimalFacts.to_list (N.to_uint i) ≠ DecimalFacts.lzero) as Hnz.
  { intros Hz. change DecimalFacts.lzero with (DecimalFacts.to_list (N.to_uint 0)) in Hz.
    apply DecimalFacts.to_list_inj, DecimalN.Unsigned.to_uint_inj in Hz. lia. }
  destruct (DecimalFacts.lnzhead (DecimalFacts.to_list (N.to_uint i))) as [|h t] eqn:Hl;
    [done|].
  exists h, t. split; [done|]. intros ->.
  rewrite <- Hnorm in Hl. by apply DecimalFacts.lnzhead_neq_d0_head in Hl.
Qed.

Lemma to_uint_tenfold (i j : N) :
  (0 < i)%N → (j < 10)%N →
  N.to_uint (10 * i + j)
  = DecimalFacts.of_list (DecimalFacts.to_list (N.to_uint i) ++ [decimal_digit j]).
Proof.
  intros Hi Hj.
  set (e := DecimalFacts.of_list (DecimalFacts.to_list (N.to_uint i) ++ [decimal_digit j])).
  assert (N.of_uint e = 10 * i + j)%N as Hof.
  { unfold N.of_uint. rewrite DecimalPos.Unsigned.of_uint_alt.
    assert (Decimal.rev e
            = DecimalFacts.of_list
                (decimal_digit j :: DecimalFacts.to_list (Decimal.rev (N.to_uint i)))) as ->.
    { apply DecimalFacts.to_list_inj.
      rewrite DecimalFacts.rev_spec, DecimalFacts.to_list_of_list. unfold e.
      rewrite DecimalFacts.to_list_of_list, List.rev_app_distr. simpl.
      by rewrite DecimalFacts.rev_spec. }
    rewrite of_lu_digit by done. rewrite DecimalFacts.of_list_to_list.
    rewrite <- DecimalPos.Unsigned.of_uint_alt.
    change (Pos.of_uint (N.to_uint i)) with (N.of_uint (N.to_uint i)).
    rewrite DecimalN.Unsigned.of_to. lia. }
  rewrite <- Hof, DecimalN.Unsigned.to_of.
  apply DecimalFacts.to_list_inj. rewrite DecimalFacts.unorm_spec. unfold e.
  rewrite DecimalFacts.to_list_of_list.
  destruct (to_uint_head i Hi) as (h & t & -> & Hh).
  unfold DecimalFacts.lunorm. simpl. by destruct h.
Qed.

Lemma to_string_tenfold (i j : N) :
  (0 < i)%N → (j < 10)%N →
  to_string (10 * i + j) = (to_string i +:+ to_string j)%string.
Proof.
  intros Hi Hj. unfold to_string.
  rewrite to_uint_tenfold, string_of_uint_app by done.
  by rewrite DecimalFacts.of_list_to_list, <- to_uint_digit.
Qed.

Lemma list_byte_of_string_app (s1 s2 : string) :
  String.list_byte_of_string (s1 +:+ s2)
  = String.list_byte_of_string s1 ++ String.list_byte_of_string s2.
Proof.
  induction s1 as [|a s1 IH]; [done|].
  change (String a s1 +:+ s2)%string with (String a (s1 +:+ s2)).
  unfold String.list_byte_of_string in *. simpl. f_equal. apply IH.
Qed.

Section SharedKeys.
Context {A : Type} `{Member A}.

Lemma BuildVirtualNodeKey_tenfold (name : string) (i j : nat) :
  0 < i → j < 10 →
  BuildVirtualNodeKey (name +:+ to_string (N.of_nat i)) j
  = BuildVirtualNodeKey name (10 * i + j).
Proof.
  intros Hi Hj. unfold BuildVirtualNodeKey.
  replace (N.of_nat (10 * i + j)) with (10 * N.of_nat i + N.of_nat j)%N by lia.
  rewrite to_string_tenfold by lia.
  by rewrite !list_byte_of_string_app, app_assoc.
Qed.

End SharedKeys.


(** ** The two placement paths on an integral average *)

Lemma placement_walk_missing fuel missing1 missing2 ring sorted_set avg_load part_id :
  ring_covers ring sorted_set →
  ∀ count idx partitions loads,
    placement_walk fuel missing1 ring sorted_set avg_load part_id count idx partitions loads
    = placement_walk fuel missing2 ring sorted_set avg_load part_id count idx partitions
        loads.
Proof.
  intros Hcov. induction fuel as [|fuel IH]; intros count idx partitions loads; [done|].
  simpl. destruct (length sorted_set <=? S count); [done|].
  destruct (sorted_set !! idx) as [hash|] eqn:Hhash; [|done].
  destruct (proj1 (Forall_forall _ _) Hcov hash) as [member Hmember].
  { by eapply list_elem_of_lookup_2. }
  rewrite Hmember. destruct (fits _ avg_load); [done|]. apply IH.
Qed.

Section Paths.
Context {A : Type} `{Member A}.
Implicit Types (c : Consistent A).

Lemma placement_paths_agree c :
  ring_covers (ring_ c) (sorted_set_ c) →
  members_ c ≠ ∅ →
  ext_ceil (double_value (AverageLoad c)) = double_value (AverageLoad c) →
  match DistributePartitions c with
  | Ok c' =>
      CalculatePartitionsWithRingAndMemberCount c (ring_ c) (sorted_set_ c)
        (size (members_ c)) = Ok (partitions_ c', loads_ c')
  | Throw e =>
      CalculatePartitionsWithRingAndMemberCount c (ring_ c) (sorted_set_ c)
        (size (members_ c)) = Throw e
  | OutOfFuel => False
  end.
Proof.
  intros Hcov Hne Hint.
  unfold DistributePartitions, CalculatePartitionsWithRingAndMemberCount.
  assert (size (members_ c) ≠ 0) as Hsize by by apply map_size_non_empty_iff.
  destruct (size (members_ c) =? 0) eqn:E; [apply Nat.eqb_eq in E; lia|].
  rewrite DistributePartitions_body_walk, CalculatePartitions_body_walk.
  assert (ceil_avg_load c (size (members_ c)) = double_value (AverageLoad c)) as ->.
  { rewrite <- Hint. unfold ceil_avg_load, AverageLoad. by rewrite decide_False. }
  rewrite (for_partitions_ext _
             (walk_body OutOfRange (ring_ c) (sorted_set_ c)
                (double_value (AverageLoad c))
                (λ p, start_index (sorted_set_ c) (hash_bytes c (partition_bytes p))))).
  2:{ intros p s. unfold walk_body.
      by rewrite (placement_walk_missing _ Undefined OutOfRange). }
  destruct (for_partitions _ _ _) as [[partitions loads]|e|] eqn:Hfor; [done|done|].
  by apply for_partitions_terminates in Hfor.
Qed.

End Paths.


(** ** Further properties of the members and the ring *)

Lemma string_app_assoc (s1 s2 s3 : string) :
  ((s1 +:+ s2) +:+ s3 = s1 +:+ (s2 +:+ s3))%string.
Proof.
  induction s1 as [|a s1 IH]; [done|].
  change (String a s1 +:+ s2)%string with (String a (s1 +:+ s2)).
  change (String a (s1 +:+ s2) +:+ s3)%string with (String a ((s1 +:+ s2) +:+ s3)).
  change (String a s1 +:+ (s2 +:+ s3))%string with (String a (s1 +:+ (s2 +:+ s3))).
  by rewrite IH.
Qed.

(** X5.  [GatewayMember]: [String()] is the id, a colon and the address;
    [Clone] keeps the id, the host, the port and the name.  The name does
    not determine the member: a colon can move between the id and the
    host. *)
Theorem GatewayMember_identity (m : GatewayMember) (id x host : string) (port : N) :
  Member_String m = (GetID m +:+ ":" +:+ GetAddress m)%string
  ∧ Member_String (Clone m) = Member_String m
  ∧ GetID (Clone m) = GetID m ∧ GetHost (Clone m) = GetHost m
  ∧ GetPort (Clone m) = GetPort m ∧ GetAddress (Clone m) = GetAddress m
  ∧ Member_String (mkGatewayMember (id +:+ ":" +:+ x) host port)
    = Member_String (mkGatewayMember id (x +:+ ":" +:+ host) port).
Proof.
  split_and!; try done. simpl. by rewrite !string_app_assoc.
Qed.

(** X6.  [DelSlice] on a sorted vector removes one occurrence of the value
    when the vector holds it, and nothing otherwise; the vector stays
    sorted. *)
Theorem DelSlice_removes_one_occurrence (val : N) (sorted_set : list N) :
  StronglySorted N.le sorted_set →
  StronglySorted N.le (DelSlice val sorted_set)
  ∧ (val ∈ sorted_set →
     sorted_set ≡ₚ val :: DelSlice val sorted_set
     ∧ S (length (DelSlice val sorted_set)) = length sorted_set)
  ∧ (val ∉ sorted_set → DelSlice val sorted_set = sorted_set).
Proof.
  intros Hs. split; [by apply DelSlice_sorted|]. split.
  - intros Hin. pose proof (DelSlice_elem val sorted_set Hs Hin) as Hp.
    split; [done|]. by rewrite Hp at 2.
  - apply DelSlice_not_elem.
Qed.

(** X7.  [BuildVirtualNodeKey] appends the decimal index to the name: two
    indices of one name give two keys, and with at most ten virtual nodes
    per member the FNV-1a and CRC-64 hashes of the keys of one member are
    pairwise distinct (the keys differ in their last byte only). *)
Theorem BuildVirtualNodeKey_separates_indices (c : Consistent GatewayMember)
    (name : string) (i j : nat) :
  (BuildVirtualNodeKey name i = BuildVirtualNodeKey name j → i = j)
  ∧ (hasher (config_ c) = Some FNVHasher ∨ hasher (config_ c) = Some CRC64Hasher →
     replication_factor (config_ c) ≤ 10 →
     NoDup (vnode_hashes c name)).
Proof. split; [apply BuildVirtualNodeKey_inj | apply vnode_hashes_NoDup]. Qed.

(** X8.  [BuildVirtualNodeKey] does not separate members: the key of index
    [10 i + j] of a name is the key of index [j] of the name followed by
    the digits of [i].  Two such members share virtual nodes whatever the
    hasher. *)
Theorem BuildVirtualNodeKey_shared (name : string) (i j : nat) :
  0 < i → j < 10 →
  BuildVirtualNodeKey (name +:+ to_string (N.of_nat i)) j
  = BuildVirtualNodeKey name (10 * i + j).
Proof. apply BuildVirtualNodeKey_tenfold. Qed.

Section Further.
Context {A : Type} `{Member A}.
Implicit Types (c : Consistent A).

Lemma ValidateConfig_Throw member_count config e :
  ValidateConfig member_count config = Throw e → e = InvalidArgument.
Proof.
  unfold ValidateConfig. destruct (hasher config); [|by intros [= <-]].
  destruct (member_count =? 0); [done|].
  destruct (ext_lt _ _); [by intros [= <-]|done].
Qed.

Lemma ValidateConfig_terminates member_count config :
  ValidateConfig member_count config ≠ OutOfFuel.
Proof.
  unfold ValidateConfig. destruct (hasher config); [|done].
  destruct (member_count =? 0); [done|]. by destruct (ext_lt _ _).
Qed.

Lemma DistributePartitions_outcome c :
  ring_covers (ring_ c) (sorted_set_ c) →
  (∃ c', DistributePartitions c = Ok c')
  ∨ DistributePartitions c = Throw InsufficientSpaceException.
Proof.
  intros Hcov. unfold DistributePartitions. rewrite DistributePartitions_body_walk.
  destruct (for_partitions_outcome Undefined (ring_ c) (sorted_set_ c)
              (double_value (AverageLoad c))
              (λ p, start_index (sorted_set_ c) (hash_bytes c (partition_bytes p)))
              (seq 0 (partition_count_ c)) Hcov) with (s := (∅, ∅) : gmap nat string * gmap string nat)
    as [[[partitions loads] Hs]|Hs].
  - intros Hne p. by apply start_index_lt.
  - left. rewrite Hs. eauto.
  - right. by rewrite Hs.
Qed.

Lemma CalculatePartitions_outcome c ring sorted_set member_count :
  ring_covers ring sorted_set →
  (∃ s, CalculatePartitionsWithRingAndMemberCount c ring sorted_set member_count = Ok s)
  ∨ CalculatePartitionsWithRingAndMemberCount c ring sorted_set member_count
    = Throw InsufficientSpaceException.
Proof.
  intros Hcov. unfold CalculatePartitionsWithRingAndMemberCount.
  destruct (member_count =? 0); [eauto|].
  rewrite CalculatePartitions_body_walk. apply for_partitions_outcome; [done|].
  intros Hne p. by apply start_index_lt.
Qed.

(** X9.  The constructor returns a ring or throws std::invalid_argument
    (from [ValidateConfig]; always with a null hasher) or InsufficientSpace
    (from the placement): its walk never meets a sorted-array entry without
    ring entry.  Without members it returns the empty ring, with the
    defaults applied. *)
Theorem Consistent_new_outcomes (members : list A) config :
  match Consistent_new members config with
  | Ok c => True
  | Throw e => e = InvalidArgument ∨ e = InsufficientSpaceException
  | OutOfFuel => False
  end
  ∧ (hasher config = None → Consistent_new members config = Throw InvalidArgument)
  ∧ (∀ h, hasher config = Some h →
       ∃ c, Consistent_new [] config = Ok c
            ∧ members_ c = ∅ ∧ ring_ c = ∅ ∧ sorted_set_ c = []
            ∧ partitions_ c = ∅ ∧ loads_ c = ∅
            ∧ partition_count_ c
              = (if partition_count config =? 0 then DEFAULT_PARTITION_COUNT
                 else partition_count config)
            ∧ hasher (config_ c) = Some h).
Proof.
  split; [|split; [apply Consistent_new_null_hasher | intros h; apply Consistent_new_empty]].
  unfold Consistent_new. set (config' := mkConfig _ _ _ _).
  destruct (ValidateConfig (length members) config') eqn:Hv.
  - set (c0 := mkConsistent config' [] (partition_count config') ∅ ∅ ∅ ∅).
    destruct members as [|m ms]; [done|].
    pose proof (InitMember_fold_covers (m :: ms) c0) as Hfold. cbv zeta in Hfold.
    revert Hfold. generalize (foldl (λ c member, InitMember (Clone member) c) c0 (m :: ms)).
    intros c1 Hcov.
    destruct (DistributePartitions_outcome c1) as [[c' ->]| ->];
      [apply Hcov; by apply Forall_nil | done | by right].
  - left. by eapply ValidateConfig_Throw.
  - by eapply ValidateConfig_terminates.
Qed.

(** X10.  The registry after a construction that returns: the registered
    names are the names of the members given, and no more members are
    registered than were given (names given twice are registered once). *)
Theorem Consistent_new_registers_members (members : list A) config c name :
  Consistent_new members config = Ok c →
  (is_Some (members_ c !! name) ↔ name ∈ (Member_String ∘ Clone <$> members))
  ∧ size (members_ c) ≤ length members.
Proof. apply Consistent_new_members. Qed.

(** X11.  After a construction from members with distinct names, the sorted
    array is sorted and holds the virtual-node hashes of the members, each
    as often as it was computed: [M · R] entries. *)
Theorem Consistent_new_virtual_nodes (members : list A) config c :
  NoDup (Member_String ∘ Clone <$> members) →
  Consistent_new members config = Ok c →
  StronglySorted N.le (sorted_set_ c)
  ∧ sorted_set_ c ≡ₚ vnodes_of_members c
  ∧ size (members_ c) = length members
  ∧ length (sorted_set_ c) = length members * replication_factor (config_ c).
Proof.
  intros Hnd Hnew.
  pose proof (Consistent_new_sorted_set_invariant members config c Hnd Hnew) as Hinv.
  pose proof (sorted_set_invariant_length c Hinv) as Hlen.
  destruct Hinv as [Hs Hp].
  assert (size (members_ c) = length members) as Hsize.
  { assert (member_names c ≡ₚ Member_String ∘ Clone <$> members) as Hperm.
    { apply NoDup_Permutation; [|done|].
      - unfold member_names. apply NoDup_fst_map_to_list.
      - intros name. rewrite <- (proj1 (Consistent_new_members members config c name Hnew)).
        unfold member_names. rewrite list_elem_of_fmap. split.
        + intros ([k v] & -> & Hkv%elem_of_map_to_list). eauto.
        + intros [v Hv]. exists (name, v). split; [done|]. by apply elem_of_map_to_list. }
    apply Permutation_length in Hperm. unfold member_names in Hperm.
    by rewrite !length_fmap, length_map_to_list in Hperm. }
  split; [done|]. split; [done|]. split; [done|]. by rewrite Hlen, Hsize.
Qed.

(** X12.  [Add] and [RemoveByName] keep the sorted array sorted and in step
    with the registry (it holds the virtual-node hashes of the registered
    members, [M · R] entries), whether they return or raise. *)
Theorem virtual_nodes_kept_by_mutators member name c :
  sorted_set_invariant c →
  length (sorted_set_ c) = size (members_ c) * replication_factor (config_ c)
  ∧ match Add member c with
    | Returned c' | Raised _ c' => sorted_set_invariant c'
    | Stuck => False
    end
  ∧ match RemoveByName name c with
    | Returned c' | Raised _ c' => sorted_set_invariant c'
    | Stuck => False
    end.
Proof.
  intros Hinv. split; [by apply sorted_set_invariant_length|].
  pose proof (Add_sorted_set_invariant member c Hinv) as Ha.
  pose proof (RemoveByName_sorted_set_invariant name c Hinv) as Hr.
  destruct (mutators_terminate [] (config_ c) member name c) as (_ & Hna & Hnr).
  split.
  - by destruct (Add member c).
  - by destruct (RemoveByName name c).
Qed.

(** X13.  On every state of a ring object the sorted array is sorted, so
    that the binary search of [std::lower_bound] finds the index the
    model computes: the first entry that is not below the value. *)
Theorem sorted_set_sorted_at_every_search c (val : N) :
  reachable c →
  StronglySorted N.le (sorted_set_ c)
  ∧ lower_bound (sorted_set_ c) val ≤ length (sorted_set_ c)
  ∧ (∀ i x, sorted_set_ c !! i = Some x →
       (i < lower_bound (sorted_set_ c) val ↔ (x < val)%N))
  ∧ (sorted_set_ c ≠ [] → start_index (sorted_set_ c) val < length (sorted_set_ c)).
Proof.
  intros Hreach. pose proof (reachable_sorted c Hreach) as Hs.
  split; [done|]. split; [apply lower_bound_le|]. split.
  - by apply lower_bound_partition.
  - apply start_index_lt.
Qed.

(** X14.  No stale reference on any state of a ring object: the names held
    by the ring map, the partition table and the load map are registered,
    and a ring entry sits at one of the virtual-node hashes of its member. *)
Theorem no_stale_references c :
  reachable c →
  (∀ h name, ring_ c !! h = Some name →
     is_Some (members_ c !! name) ∧ h ∈ vnode_hashes c name)
  ∧ (∀ p name, partitions_ c !! p = Some name → is_Some (members_ c !! name))
  ∧ (∀ name, is_Some (loads_ c !! name) → is_Some (members_ c !! name)).
Proof. apply reachable_references. Qed.

Lemma reachable_tables c : reachable c → table_matches_loads c.
Proof.
  induction 1 as [members config c Hnew|member c c' _ IH Hadd|member e c c' _ IH Hadd
                  |name c c' _ IH Hrem|name e c c' _ IH Hrem].
  - by apply Consistent_new_tables in Hnew as [? _].
  - pose proof (Add_tables member c IH) as Hi. rewrite Hadd in Hi. by destruct Hi.
  - pose proof (Add_tables member c IH) as Hi. rewrite Hadd in Hi. by destruct Hi.
  - pose proof (RemoveByName_tables name c IH) as Hi. rewrite Hrem in Hi. by destruct Hi.
  - pose proof (RemoveByName_tables name c IH) as Hi. by rewrite Hrem in Hi.
Qed.

(** X15.  On every state of a ring object the partition table has no entry
    outside [0, P), it is empty or has an owner for every partition, and
    the load map that [LoadDistribution] returns counts the partitions of
    each member. *)
Theorem load_map_counts_partitions c :
  reachable c →
  (∀ p, is_Some (partitions_ c !! p) → p < partition_count_ c)
  ∧ (partitions_ c = ∅ ∨ ∀ p, p < partition_count_ c → is_Some (partitions_ c !! p))
  ∧ (∀ name, load_of (LoadDistribution c) name = partitions_owned (partitions_ c) name).
Proof.
  intros Hreach. destruct (reachable_tables c Hreach) as [H1 H2].
  split; [exact H1|]. split; [by apply reachable_table | exact H2].
Qed.

(** X16.  The load map after a placement that returns: the loads sum to the
    partition count and none exceeds what the comparison of the walk
    admits, the integer part of the average after a construction and the
    ceiling of the average after [RemoveByName]. *)
Theorem loads_sum_to_partition_count :
  (∀ (members : list A) config c,
     Consistent_new members config = Ok c → members ≠ [] →
     total_load (loads_ c) = partition_count_ c
     ∧ (double_value (AverageLoad c) ≠ ext_pos_inf →
        ∀ name, load_of (loads_ c) name ≤ capacity (double_value (AverageLoad c))))
  ∧ (∀ name c c',
       RemoveByName name c = Returned c' → is_Some (members_ c !! name) →
       members_ c' ≠ ∅ →
       total_load (loads_ c') = partition_count_ c'
       ∧ (ceil_avg_load c' (size (members_ c')) ≠ ext_pos_inf →
          ∀ x, load_of (loads_ c') x ≤ capacity (ceil_avg_load c' (size (members_ c'))))).
Proof. exact loads_after_placement. Qed.

(** X17.  Without room for all partitions either placement path raises
    InsufficientSpace: when every entry of the sorted array has a ring
    entry and the members on the ring, each filled to what the comparison
    of the walk admits, hold fewer than [P] partitions. *)
Theorem placement_raises_without_room c ring sorted_set member_count :
  (ring_covers (ring_ c) (sorted_set_ c) →
   double_value (AverageLoad c) ≠ ext_pos_inf →
   size (ring_names (ring_ c) (sorted_set_ c)) * capacity (double_value (AverageLoad c))
     < partition_count_ c →
   DistributePartitions c = Throw InsufficientSpaceException)
  ∧ (member_count ≠ 0 → ring_covers ring sorted_set →
     ceil_avg_load c member_count ≠ ext_pos_inf →
     size (ring_names ring sorted_set) * capacity (ceil_avg_load c member_count)
       < partition_count_ c →
     CalculatePartitionsWithRingAndMemberCount c ring sorted_set member_count
     = Throw InsufficientSpaceException).
Proof. apply placement_fails_without_room. Qed.

(** X18.  When the average load is an integer, its ceiling is the average,
    and the placement of the add/remove path on the arrays of the ring
    gives the tables of the construction path, or raises as it does. *)
Theorem placement_paths_agree_on_integral_average c :
  ring_covers (ring_ c) (sorted_set_ c) →
  members_ c ≠ ∅ →
  ext_ceil (double_value (AverageLoad c)) = double_value (AverageLoad c) →
  match DistributePartitions c with
  | Ok c' =>
      CalculatePartitionsWithRingAndMemberCount c (ring_ c) (sorted_set_ c)
        (size (members_ c)) = Ok (partitions_ c', loads_ c')
  | Throw e =>
      CalculatePartitionsWithRingAndMemberCount c (ring_ c) (sorted_set_ c)
        (size (members_ c)) = Throw e
  | OutOfFuel => False
  end.
Proof. apply placement_paths_agree. Qed.

(** X19.  How the mutators end.  [Add] returns with the state unchanged
    (the name is registered) or raises at the lock, with the member
    registered; [RemoveByName] returns or raises InsufficientSpace with the
    state unchanged: its walk never meets a sorted-array entry without ring
    entry.  Neither runs forever. *)
Theorem mutator_outcomes member name c :
  (Add member c = Returned c ∨ ∃ c', Add member c = Raised SystemError c')
  ∧ ((∃ c', RemoveByName name c = Returned c')
     ∨ RemoveByName name c = Raised InsufficientSpaceException c).
Proof.
  split.
  - destruct (members_ c !! Member_String member) eqn:Hm.
    + left. unfold Add. by rewrite Hm.
    + right. eexists. by apply Add_new.
  - unfold RemoveByName. destruct (members_ c !! name); [|eauto].
    unfold CalculatePartitionsWithoutMember.
    match goal with
    | |- context [CalculatePartitionsWithRingAndMemberCount ?c2 ?r ?l ?n] =>
        destruct (CalculatePartitions_outcome c2 r l n) as [[[np nl] ->]| ->];
          [apply ring_covers_keys | eauto | by right]
    end.
Qed.

(** X20.  What the mutators do to the registry and the ring map.  [Add] of
    a new name registers the member, gives it its virtual nodes and adds
    [R] entries to the sorted array; a second [Add] of it returns at once.
    [RemoveByName] of a registered name, when it returns, erases the member
    and the ring entries at its virtual-node hashes; a second call returns
    at once. *)
Theorem mutators_registry member name c :
  (members_ c !! Member_String member = None →
   match Add member c with
   | Returned c' | Raised _ c' =>
       members_ c' = <[Member_String member:=member]> (members_ c)
       ∧ (∀ h, h ∈ vnode_hashes c (Member_String member) →
            ring_ c' !! h = Some (Member_String member))
       ∧ length (sorted_set_ c')
         = length (sorted_set_ c) + replication_factor (config_ c)
       ∧ Add member c' = Returned c'
   | Stuck => False
   end)
  ∧ (is_Some (members_ c !! name) →
     match RemoveByName name c with
     | Returned c' =>
         members_ c' = delete name (members_ c)
         ∧ (∀ h, h ∈ vnode_hashes c name → ring_ c' !! h = None)
         ∧ RemoveByName name c' = Returned c'
     | Raised _ c' => c' = c
     | Stuck => False
     end).
Proof.
  destruct (mutators_terminate [] (config_ c) member name c) as (_ & Hna & Hnr).
  split.
  - intros Hm.
    assert (∀ c1, Add member c = Returned c1 ∨ (∃ e, Add member c = Raised e c1) →
              members_ c1 = <[Member_String member:=member]> (members_ c)
              ∧ (∀ h, h ∈ vnode_hashes c (Member_String member) →
                   ring_ c1 !! h = Some (Member_String member))
              ∧ length (sorted_set_ c1)
                = length (sorted_set_ c) + replication_factor (config_ c)
              ∧ Add member c1 = Returned c1) as Hboth.
    { intros c1 Hadd. destruct (Add_state _ _ _ Hm Hadd) as (A1 & A2 & A3 & A4 & A5).
      split; [done|]. split; [|split].
      - intros h Hh. rewrite A5, ring_insert_all_lookup. by rewrite decide_True.
      - rewrite A4, sort_Permutation, length_app, vnode_hashes_length. done.
      - unfold Add. by rewrite A3, lookup_insert_eq. }
    destruct (Add member c) as [c1|e c1|]; [apply Hboth; by left|apply Hboth; eauto|done].
  - intros Hm. destruct (RemoveByName name c) as [c1|e c1|] eqn:Hrem; [| |done].
    + apply RemoveByName_state in Hrem as (R1 & R2 & R3 & R4 & R5); [|done].
      split; [done|]. split.
      * intros h Hh. rewrite R5, ring_delete_all_lookup. by rewrite decide_True.
      * unfold RemoveByName. by rewrite R3, lookup_delete_eq.
    + by apply RemoveByName_raised_unchanged in Hrem.
Qed.

(** X21.  [Add] of a new member followed by [RemoveByName] of its name
    restores the registry and the sorted array; the ring map loses the
    entries at the virtual-node hashes of the member, and is restored when
    none of them was on the ring before. *)
Theorem Add_then_RemoveByName_restores member c c1 c2 :
  reachable c →
  members_ c !! Member_String member = None →
  Add member c = Raised SystemError c1 →
  RemoveByName (Member_String member) c1 = Returned c2 →
  config_ c2 = config_ c ∧ partition_count_ c2 = partition_count_ c
  ∧ members_ c2 = members_ c
  ∧ sorted_set_ c2 = sorted_set_ c
  ∧ (∀ k, ring_ c2 !! k
          = if decide (k ∈ vnode_hashes c (Member_String member)) then None
            else ring_ c !! k)
  ∧ ((∀ h, h ∈ vnode_hashes c (Member_String member) → ring_ c !! h = None) →
     ring_ c2 = ring_ c).
Proof.
  intros Hreach Hm Hadd. apply Add_then_RemoveByName; [by apply reachable_sorted|done|].
  right. eauto.
Qed.

(** X22.  [RemoveByName] of the only member returns and leaves the empty
    ring: no member, no virtual node, no partition table, no load map. *)
Theorem RemoveByName_last_member_empties name c :
  reachable c → is_Some (members_ c !! name) → size (members_ c) = 1 →
  ∃ c', RemoveByName name c = Returned c'
        ∧ members_ c' = ∅ ∧ partitions_ c' = ∅ ∧ loads_ c' = ∅ ∧ ring_ c' = ∅.
Proof. intros Hreach. apply RemoveByName_last. by apply reachable_references. Qed.

(** X23.  The queries on a ring without members: [LocateKey] is none,
    [GetClosestN] of a positive count raises InsufficientMemberCount and
    of another count returns nothing, [GetAverageLoad] is 0. *)
Theorem empty_ring_queries c fuel (key : list byte) (key_string : string) (count : Z) :
  members_ c = ∅ → ring_ c = ∅ →
  LocateKey c key = None ∧ LocateKey_string c key_string = None
  ∧ ((0 < count)%Z →
     GetClosestN fuel c key count = Throw InsufficientMemberCountException
     ∧ GetClosestN_string fuel c key_string count = Throw InsufficientMemberCountException)
  ∧ ((count ≤ 0)%Z →
     GetClosestN fuel c key count = Ok [] ∧ GetClosestN_string fuel c key_string count = Ok [])
  ∧ GetAverageLoad c = S754_zero false.
Proof. apply queries_without_members. Qed.

(** X24.  The members [GetClosestN] returns are registered members found
    on the ring; asked for as many as are registered, it returns each
    registered name once. *)
Theorem GetClosestN_members_registered c (fuel : nat) (key : list byte) (count : Z) :
  reachable c →
  (0 < count ≤ Z.of_nat (size (members_ c)))%Z →
  ring_covers (ring_ c) (sorted_set_ c) →
  size (members_ c) ≤ size (ring_names (ring_ c) (sorted_set_ c)) →
  is_Some (partitions_ c !! GetPartitionID c key) →
  length (sorted_set_ c) < fuel →
  ∃ res, GetClosestN fuel c key count = Ok res
         ∧ Z.of_nat (length res) = count ∧ NoDup res
         ∧ (∀ x, x ∈ res →
              x ∈ ring_names (ring_ c) (sorted_set_ c) ∧ is_Some (members_ c !! x))
         ∧ (count = Z.of_nat (size (members_ c)) → res ≡ₚ member_names c).
Proof.
  intros Hreach Hcount Hcov Hnames Howner Hfuel.
  unfold GetClosestN.
  destruct (count <=? 0)%Z eqn:E1; [apply Z.leb_le in E1; lia|].
  destruct (Z.of_nat (size (members_ c)) <? count)%Z eqn:E2; [apply Z.ltb_lt in E2; lia|].
  destruct (GetClosestN_part_total c fuel (GetPartitionID c key) (Z.to_nat count))
    as (res & Hres & _); [lia|lia|done..|].
  exists res. split; [done|].
  destruct (GetClosestN_part_Ok c fuel _ _ res (reachable_references c Hreach) Hres)
    as (Hlen & Hnd & Hreg & Hall).
  split; [lia|]. split; [exact Hnd|]. split; [exact Hreg|].
  intros Hc. apply Hall. lia.
Qed.

(** X25.  [GetMembers] on a ring whose cache is in step with the registry
    returns a clone of every registered member, leaves the ring as it is
    and the cache in step, and a second call returns the same. *)
Theorem GetMembers_returns_registered (s : Cached A) :
  cache_coherent s →
  (∃ l, (GetMembers s).1 = Ok l
        ∧ l ≡ₚ Clone <$> (map_to_list (members_ (ring_state s))).*2)
  ∧ ring_state (GetMembers s).2 = ring_state s
  ∧ cache_coherent (GetMembers s).2
  ∧ GetMembers (GetMembers s).2 = GetMembers s.
Proof. apply GetMembers_coherent. Qed.

(** X26.  The cache is in step with the registry after the constructor,
    after every [Add] and [RemoveByName] that returns, and after a
    [RemoveByName] that raises. *)
Theorem cache_in_step_on_return (members : list A) config member name (s : Cached A) :
  (∀ s0, Cached_new members config = Ok s0 → cache_coherent s0)
  ∧ (cache_coherent s →
     (∀ s', Add_cached member s = Returned_cached s' → cache_coherent s')
     ∧ (∀ s', RemoveByName_cached name s = Returned_cached s' → cache_coherent s')
     ∧ (∀ e s', RemoveByName_cached name s = Raised_cached e s' → cache_coherent s')).
Proof. apply cache_coherent_kept. Qed.

(** X27.  After an [Add] that raised, on a ring whose cache was clean,
    [GetMembers] returns the members of before the call: the new member is
    registered and missing from the result, [members_dirty_] being set in
    the last statement of [Add] only. *)
Theorem GetMembers_misses_added_member member e (s s' : Cached A) :
  cache_coherent s → members_dirty_ s = false → cached_members_ s ≠ [] →
  Add_cached member s = Raised_cached e s' →
  members_ (ring_state s')
  = <[Member_String member:=member]> (members_ (ring_state s))
  ∧ members_ (ring_state s) !! Member_String member = None
  ∧ ∃ l, (GetMembers s').1 = Ok l
         ∧ l ≡ₚ Clone <$> (map_to_list (members_ (ring_state s))).*2
         ∧ S (length l) = size (members_ (ring_state s')).
Proof. apply GetMembers_after_raised_Add. Qed.

End Further.

(** ** The properties on concrete rings *)

Lemma ring_of_Ok r config : is_Ok r = true → r = Ok (ring_of r config).
Proof. by destruct r. Qed.

Lemma state_of_returns o c : returns o = true → o = Returned (state_of o c).
Proof. by destruct o. Qed.

Lemma state_of_raises e o c : raises e o = true → o = Raised e (state_of o c).
Proof.
  destruct o as [c'|e' c'|]; simpl; [done| |done].
  intros He. apply bool_decide_eq_true_1 in He. by subst.
Qed.

(** The FNV-1a test vectors for the empty input, "a" and "foobar". *)
Lemma FNV_test_vectors :
  FNV_Sum64 [] = 14695981039346656037%N
  ∧ Sum64_string FNVHasher "a" = 12638187200555641996%N
  ∧ Sum64_string FNVHasher "foobar" = 9625390261332436968%N.
Proof. split_and!; vm_compute; reflexivity. Qed.

(** The positions that decide the examples: the virtual nodes of the
    gateways, the keys of the partitions, and the keys of the queries. *)
Lemma example_positions :
  Member_String (gateway 1) = gateway_1
  ∧ Member_String (gateway 2) = gateway_2
  ∧ Member_String (gateway 9) = gateway_9
  ∧ vnode_hashes ring_2_2 gateway_1 = [14942478383758218156; 14942479483269846367]%N
  ∧ vnode_hashes ring_2_2 gateway_2 = [17341217911881652944; 17341219011393281155]%N
  ∧ vnode_hashes ring_2_2 gateway_9 = [7813712200726251804; 7813713300237880015]%N
  ∧ (λ p, hash_bytes ring_2_2 (partition_bytes p)) <$> seq 0 2
    = [12161962213042174405; 9929646806074584996]%N
  ∧ hash_string ring_2_2 "k1" = 629957523660743873%N
  ∧ hash_string ring_2_2 gateway_2 = 12340974931061518784%N
  ∧ sorted_set_ ring_2_2
    = [14942478383758218156; 14942479483269846367;
       17341217911881652944; 17341219011393281155]%N
  ∧ sorted_set_ ring_2_2_added
    = [7813712200726251804; 7813713300237880015;
       14942478383758218156; 14942479483269846367;
       17341217911881652944; 17341219011393281155]%N
  ∧ sorted_set_ ring_whole_2
    = [14942478383758218156; 14942479483269846367;
       17341217911881652944; 17341219011393281155]%N.
Proof. split_and!; vm_compute; reflexivity. Qed.

(** The average load in double arithmetic: [96.0 / 47 * 1.46875] is
    2.9999999999999996, not 3; [1.0 / 49 * 49] is 0.9999999999999999;
    [116.0 / 7 * 1.75] is 29.000000000000004, whose ceiling is 30; and
    [58.0 / 7 * 7.0] is 58.00000000000001, so that seven members with
    P = 58, R = 29 and L = 7 are refused by [ValidateConfig]. *)
Lemma double_rounding_examples :
  double_mul (double_div (double_of_nat 96) (double_of_nat 47)) (double_ratio 47 32)
  = S754_finite false 6755399441055743 (-51)
  ∧ double_of_nat 3 = S754_finite false 6755399441055744 (-51)
  ∧ double_mul (double_div (double_of_nat 1) (double_of_nat 49)) (double_of_nat 49)
    = S754_finite false 9007199254740991 (-53)
  ∧ double_of_nat 1 = S754_finite false 4503599627370496 (-52)
  ∧ ceil_avg_load (empty_ring (mkConfig CreateFNVHasher 116 2 (double_ratio 7 4))) 7
    = ext_fin 30
  ∧ load_cap 116 7 (double_Q (double_ratio 7 4)) = 29
  ∧ ValidateConfig 7 (mkConfig CreateFNVHasher 58 29 (double_of_nat 7))
    = Throw InvalidArgument.
Proof. split_and!; vm_compute; reflexivity. Qed.

Lemma ring_2_2_new : Consistent_new [gateway 1; gateway 2] config_2_2 = Ok ring_2_2.
Proof. apply ring_of_Ok. vm_compute. reflexivity. Qed.

Lemma ring_2_2_reachable : reachable ring_2_2.
Proof. eapply reachable_new. exact ring_2_2_new. Qed.

Lemma ring_2_2_add_raises : Add (gateway 9) ring_2_2 = Raised SystemError ring_2_2_added.
Proof. apply state_of_raises. vm_compute. reflexivity. Qed.

Lemma ring_2_2_remove_returns :
  RemoveByName (Member_String (gateway 9)) ring_2_2_added = Returned ring_2_2_removed.
Proof. apply state_of_returns. vm_compute. reflexivity. Qed.

Lemma ring_half_new : Consistent_new [] config_half = Ok ring_half.
Proof. apply ring_of_Ok. vm_compute. reflexivity. Qed.

Lemma ring_half_add_raises : Add (gateway 1) ring_half = Raised SystemError ring_half_1.
Proof. apply state_of_raises. vm_compute. reflexivity. Qed.

Lemma ring_half_1_reachable : reachable ring_half_1.
Proof.
  eapply reachable_Add_raised; [|exact ring_half_add_raises].
  eapply reachable_new. exact ring_half_new.
Qed.

Lemma ring_whole_new : Consistent_new [gateway 1] config_whole = Ok ring_whole.
Proof. apply ring_of_Ok. vm_compute. reflexivity. Qed.

Lemma ring_whole_add_raises : Add (gateway 2) ring_whole = Raised SystemError ring_whole_2.
Proof. apply state_of_raises. vm_compute. reflexivity. Qed.

Lemma ring_whole_2_reachable : reachable ring_whole_2.
Proof.
  eapply reachable_Add_raised; [|exact ring_whole_add_raises].
  eapply reachable_new. exact ring_whole_new.
Qed.

Lemma ring_shared_new :
  Consistent_new [member_90; member_901] config_shared = Ok ring_shared.
Proof. apply ring_of_Ok. vm_compute. reflexivity. Qed.

Lemma ring_shared_remove_returns :
  RemoveByName (Member_String member_90) ring_shared = Returned ring_shared_removed.
Proof. apply state_of_returns. vm_compute. reflexivity. Qed.

Lemma ring_shared_removed_reachable : reachable ring_shared_removed.
Proof.
  eapply reachable_Remove_returned; [|exact ring_shared_remove_returns].
  eapply reachable_new. exact ring_shared_new.
Qed.

(** C1, as stated, fails: a configuration that [ValidateConfig] accepts
    (one member, four partitions, two virtual nodes, load factor 0.5: the
    cap 2 is at most 2·R = 4) and whose construction raises
    InsufficientSpace at the third partition, the only member being full. *)
Lemma validated_construction_raises :
  ValidateConfig (length [gateway 1]) config_half_2 = Ok tt
  ∧ Consistent_new [gateway 1] config_half_2 = Throw InsufficientSpaceException.
Proof. split; vm_compute; reflexivity. Qed.

(** The reference scenario of the specification (three members, P = 7,
    R = 4, L = 1.25) is accepted by [ValidateConfig] and raises as well:
    [DistributeWithLoad] compares with the average 2.9166..., so that three
    members take six partitions. *)
Lemma reference_scenario_raises :
  ValidateConfig 3 config_7_4 = Ok tt
  ∧ Consistent_new [gateway 1; gateway 2; gateway 3] config_7_4
    = Throw InsufficientSpaceException.
Proof. split; vm_compute; reflexivity. Qed.

(** A configuration that [ValidateConfig] accepts and whose average load
    is rounded below an integer: 47 gateways, P = 96, R = 2, L = 1.46875.
    The average is 2.9999999999999996, each member takes two partitions,
    and the construction raises InsufficientSpace. *)
Lemma rounded_average_construction_raises :
  length gateways_47 = 47
  ∧ ValidateConfig (length gateways_47) config_47 = Ok tt
  ∧ Consistent_new gateways_47 config_47 = Throw InsufficientSpaceException.
Proof. split_and!; vm_compute; reflexivity. Qed.

(** The conditions of the amended C1 hold on the ring of two gateways, for
    the construction path and for the add/remove path. *)
Lemma placement_succeeds_with_room_witness :
  (ring_covers (ring_ ring_2_2) (sorted_set_ ring_2_2)
   ∧ twice_on_ring (ring_ ring_2_2) (sorted_set_ ring_2_2)
   ∧ partition_count_ ring_2_2
       ≤ size (ring_names (ring_ ring_2_2) (sorted_set_ ring_2_2))
         * capacity (double_value (AverageLoad ring_2_2))
   ∧ partition_count_ ring_2_2
       ≤ size (ring_names (ring_ ring_2_2) (sorted_set_ ring_2_2))
         * capacity (ceil_avg_load ring_2_2 2))
  ∧ (∃ c', DistributePartitions ring_2_2 = Ok c'
           ∧ ∀ p, p < partition_count_ ring_2_2 → is_Some (partitions_ c' !! p))
  ∧ (∃ s, CalculatePartitionsWithRingAndMemberCount ring_2_2 (ring_ ring_2_2)
            (sorted_set_ ring_2_2) 2 = Ok s
          ∧ (2 ≠ 0 → ∀ p, p < partition_count_ ring_2_2 → is_Some (s.1 !! p))).
Proof.
  assert (ring_covers (ring_ ring_2_2) (sorted_set_ ring_2_2)) as H1 by by_computation.
  assert (twice_on_ring (ring_ ring_2_2) (sorted_set_ ring_2_2)) as H2 by by_computation.
  assert (partition_count_ ring_2_2
            ≤ size (ring_names (ring_ ring_2_2) (sorted_set_ ring_2_2))
              * capacity (double_value (AverageLoad ring_2_2))) as H3 by by_computation.
  assert (partition_count_ ring_2_2
            ≤ size (ring_names (ring_ ring_2_2) (sorted_set_ ring_2_2))
              * capacity (ceil_avg_load ring_2_2 2)) as H4 by by_computation.
  destruct (placement_succeeds_with_room ring_2_2 (ring_ ring_2_2) (sorted_set_ ring_2_2) 2)
    as [Hd Hc].
  split; [exact (conj H1 (conj H2 (conj H3 H4)))|].
  split; [exact (Hd H1 H2 H3) | exact (Hc H1 H2 H4)].
Defined.

(** C2, at failing inputs.  [Add] of a new member stores the member and its
    virtual nodes and then raises from its placement step: the registry,
    the ring map and the sorted array keep the new member, the partition
    table and the load map stay as before.  The exception is the
    std::system_error of the shared lock that
    [CalculatePartitionsWithNewMember] takes while [Add] holds the exclusive
    lock, so every [Add] of a name that is not registered ends this way.
    - the ring constructed from two gateways (P = 2, R = 2, L = 1.25) and
      [Add] of a third;
    - a ring constructed without members (P = 4, R = 1, L = 0.5) and [Add]
      of a first member.
    [RemoveByName] computes its tables before it changes anything and
    leaves the state as it was when its placement raises. *)
Theorem Add_raised_not_rolled_back :
  (Consistent_new [gateway 1; gateway 2] config_2_2 = Ok ring_2_2
   ∧ members_ ring_2_2 !! Member_String (gateway 9) = None
   ∧ Add (gateway 9) ring_2_2 = Raised SystemError ring_2_2_added
   ∧ size (members_ ring_2_2) = 2 ∧ size (members_ ring_2_2_added) = 3
   ∧ members_ ring_2_2_added !! gateway_9 = Some (gateway 9)
   ∧ length (sorted_set_ ring_2_2) = 4 ∧ length (sorted_set_ ring_2_2_added) = 6
   ∧ size (ring_ ring_2_2) = 4 ∧ size (ring_ ring_2_2_added) = 6
   ∧ ring_ ring_2_2_added !! 7813712200726251804%N = Some gateway_9
   ∧ partitions_ ring_2_2_added = partitions_ ring_2_2
   ∧ loads_ ring_2_2_added = loads_ ring_2_2)
  ∧ (Consistent_new [] config_half = Ok ring_half
     ∧ Add (gateway 1) ring_half = Raised SystemError ring_half_1
     ∧ map_to_list (members_ ring_half) = []
     ∧ map_to_list (ring_ ring_half) = []
     ∧ sorted_set_ ring_half = []
     ∧ map_to_list (members_ ring_half_1) = [(gateway_1, gateway 1)]
     ∧ map_to_list (ring_ ring_half_1) = [(14942478383758218156%N, gateway_1)]
     ∧ sorted_set_ ring_half_1 = [14942478383758218156%N]
     ∧ partitions_ ring_half_1 = partitions_ ring_half
     ∧ loads_ ring_half_1 = loads_ ring_half)
  ∧ (∀ (member : GatewayMember) (c : Consistent GatewayMember),
       members_ c !! Member_String member = None →
       ∃ c', Add member c = Raised SystemError c'
             ∧ members_ c' = <[Member_String member:=member]> (members_ c)
             ∧ members_ c' ≠ members_ c
             ∧ partitions_ c' = partitions_ c ∧ loads_ c' = loads_ c)
  ∧ (∀ name e (c c' : Consistent GatewayMember),
       RemoveByName name c = Raised e c' → c' = c).
Proof.
  split; [|split; [|split]].
  - destruct (Add_raised_registered _ _ _ _ ring_2_2_add_raises)
      as (_ & Hnone & _ & _ & Hp & Hl).
    split; [exact ring_2_2_new|]. split; [exact Hnone|].
    split; [exact ring_2_2_add_raises|].
    do 8 (split; [vm_compute; reflexivity|]). exact (conj Hp Hl).
  - destruct (Add_raised_registered _ _ _ _ ring_half_add_raises)
      as (_ & _ & _ & _ & Hp & Hl).
    split; [exact ring_half_new|]. split; [exact ring_half_add_raises|].
    do 6 (split; [vm_compute; reflexivity|]). exact (conj Hp Hl).
  - intros member c Hnone. eexists. split; [by apply Add_new|].
    simpl. split; [done|]. split; [|done].
    intros Heq. rewrite <- Heq, lookup_insert_eq in Hnone. done.
  - intros name e c c'. apply RemoveByName_raised_unchanged.
Qed.

(** C3, at a failing input.  The ring constructed from two gateways with
    P = 2, R = 2, L = 1.25 (FNV-1a) gives one partition to each member:
    [DistributeWithLoad] compares with the average 1.25.  [Add] of a third
    gateway registers it and raises at the lock, and [RemoveByName] of it
    returns; afterwards both partitions belong to the first member: the
    recomputation compares with the ceiling 2.  The registry, the ring map
    and the sorted array are the ones before the [Add]. *)
Theorem add_remove_changes_constructed_ring :
  Consistent_new [gateway 1; gateway 2] config_2_2 = Ok ring_2_2
  ∧ members_ ring_2_2 !! Member_String (gateway 9) = None
  ∧ Add (gateway 9) ring_2_2 = Raised SystemError ring_2_2_added
  ∧ RemoveByName (Member_String (gateway 9)) ring_2_2_added = Returned ring_2_2_removed
  ∧ double_value (AverageLoad ring_2_2) = ext_fin (5 # 4)
  ∧ ceil_avg_load ring_2_2_added 2 = ext_fin 2
  ∧ map_to_list (partitions_ ring_2_2) = [(1, gateway_2); (0, gateway_1)]
  ∧ map_to_list (loads_ ring_2_2) = [(gateway_1, 1); (gateway_2, 1)]
  ∧ map_to_list (partitions_ ring_2_2_removed) = [(1, gateway_1); (0, gateway_1)]
  ∧ map_to_list (loads_ ring_2_2_removed) = [(gateway_1, 2)]
  ∧ partitions_ ring_2_2_removed ≠ partitions_ ring_2_2
  ∧ loads_ ring_2_2_removed ≠ loads_ ring_2_2
  ∧ map_to_list (members_ ring_2_2_removed) = map_to_list (members_ ring_2_2)
  ∧ map_to_list (ring_ ring_2_2_removed) = map_to_list (ring_ ring_2_2)
  ∧ sorted_set_ ring_2_2_removed = sorted_set_ ring_2_2.
Proof.
  split; [exact ring_2_2_new|]. split; [vm_compute; reflexivity|].
  split; [exact ring_2_2_add_raises|]. split; [exact ring_2_2_remove_returns|].
  do 6 (split; [vm_compute; reflexivity|]).
  split.
  { assert (partitions_ ring_2_2 !! 1 = Some gateway_2) as H1
      by (vm_compute; reflexivity).
    assert (partitions_ ring_2_2_removed !! 1 = Some gateway_1) as H2
      by (vm_compute; reflexivity).
    intros Heq. rewrite Heq, H1 in H2. clear -H2. by injection H2. }
  split.
  { assert (load_of (loads_ ring_2_2) gateway_2 = 1) as H1
      by (vm_compute; reflexivity).
    assert (load_of (loads_ ring_2_2_removed) gateway_2 = 0) as H2
      by (vm_compute; reflexivity).
    intros Heq. rewrite Heq, H1 in H2. clear -H2. lia. }
  do 2 (split; [vm_compute; reflexivity|]). vm_compute. reflexivity.
Qed.

(** C4, at a failing input.  In the ring of two gateways (P = 2, R = 2,
    L = 1.25, FNV-1a) the key "k1" falls in partition 1, whose owner is the
    second gateway; the walk of [GetClosestN] starts at the first virtual
    node not below the hash of the owner's name, which belongs to the first
    gateway.  The fuel is the length of the sorted array plus one; more fuel
    gives the same results ([GetClosestN_loop_more_fuel]). *)
Theorem closest_first_is_not_primary :
  reachable ring_2_2
  ∧ GetPartitionID_string ring_2_2 "k1" = 1
  ∧ LocateKey_string ring_2_2 "k1" = Some gateway_2
  ∧ GetClosestN_string 5 ring_2_2 "k1" 1 = Ok [gateway_1]
  ∧ GetClosestN_string 5 ring_2_2 "k1" 2 = Ok [gateway_1; gateway_2].
Proof.
  split; [exact ring_2_2_reachable|]. split_and!; vm_compute; reflexivity.
Qed.

(** C5, at failing inputs.  After an [Add] that raised, the ring has the new
    member and the load map of before.
    - a ring constructed without members (P = 4, R = 1, L = 0.5), then one
      gateway added: one member, and the loads sum to 0, not to 4;
    - the ring constructed from one gateway (P = 2, R = 2, L = 1), then a
      second gateway added: two members, the cap is ⌈2/2 · 1⌉ = 1, and the
      first gateway holds both partitions. *)
Theorem loads_invariant_broken_by_raised_Add :
  (Consistent_new [] config_half = Ok ring_half
   ∧ Add (gateway 1) ring_half = Raised SystemError ring_half_1
   ∧ reachable ring_half_1
   ∧ size (members_ ring_half_1) = 1
   ∧ partition_count_ ring_half_1 = 4
   ∧ total_load (loads_ ring_half_1) = 0
   ∧ ¬ loads_invariant ring_half_1)
  ∧ (Consistent_new [gateway 1] config_whole = Ok ring_whole
     ∧ Add (gateway 2) ring_whole = Raised SystemError ring_whole_2
     ∧ reachable ring_whole_2
     ∧ size (members_ ring_whole_2) = 2
     ∧ partition_count_ ring_whole_2 = 2
     ∧ load_cap (partition_count_ ring_whole_2) (size (members_ ring_whole_2))
         (double_Q (load (config_ ring_whole_2))) = 1
     ∧ ceil_avg_load ring_whole_2 (size (members_ ring_whole_2)) = ext_fin 1
     ∧ load_of (loads_ ring_whole_2) gateway_1 = 2
     ∧ ¬ loads_invariant ring_whole_2).
Proof.
  split.
  - split; [exact ring_half_new|]. split; [exact ring_half_add_raises|].
    split; [exact ring_half_1_reachable|].
    assert (size (members_ ring_half_1) = 1) as Hsize by (vm_compute; reflexivity).
    assert (partition_count_ ring_half_1 = 4) as HP by (vm_compute; reflexivity).
    assert (total_load (loads_ ring_half_1) = 0) as Htotal by (vm_compute; reflexivity).
    split; [exact Hsize|]. split; [exact HP|]. split; [exact Htotal|].
    intros Hinv. destruct Hinv as [Hsum _].
    { intros Hempty. rewrite Hempty, map_size_empty in Hsize. clear -Hsize. lia. }
    rewrite HP, Htotal in Hsum. clear -Hsum. lia.
  - split; [exact ring_whole_new|]. split; [exact ring_whole_add_raises|].
    split; [exact ring_whole_2_reachable|].
    assert (size (members_ ring_whole_2) = 2) as Hsize by (vm_compute; reflexivity).
    assert (load_cap (partition_count_ ring_whole_2) (size (members_ ring_whole_2))
              (double_Q (load (config_ ring_whole_2))) = 1) as Hcap
      by (vm_compute; reflexivity).
    assert (load_of (loads_ ring_whole_2) gateway_1 = 2) as Hload
      by (vm_compute; reflexivity).
    split; [exact Hsize|]. split; [vm_compute; reflexivity|]. split; [exact Hcap|].
    split; [vm_compute; reflexivity|]. split; [exact Hload|].
    intros Hinv. destruct Hinv as [_ Hle].
    { intros Hempty. rewrite Hempty, map_size_empty in Hsize. clear -Hsize. lia. }
    specialize (Hle gateway_1). rewrite Hcap, Hload in Hle. clear -Hle. lia.
Qed.

(** C6, at a failing input.  A ring constructed without members (P = 4,
    R = 1, L = 0.5), then one gateway added: [Add] registers the member and
    raises before any placement, the ring has one member and an empty
    partition table, and [LocateKey] is none for every key.
    On every state of a ring object, [LocateKey] is none when the ring has
    no member, and it is the entry of the partition table at index
    [hasher(key) mod P] when the ring has members; this entry is a
    registered member unless the partition table is empty. *)
Theorem LocateKey_partition_owner :
  (Consistent_new [] config_half = Ok ring_half
   ∧ Add (gateway 1) ring_half = Raised SystemError ring_half_1
   ∧ reachable ring_half_1
   ∧ size (members_ ring_half_1) = 1
   ∧ ring_ ring_half_1 ≠ ∅
   ∧ partitions_ ring_half_1 = ∅
   ∧ ∀ (key : list byte) (key_string : string),
       LocateKey ring_half_1 key = None
       ∧ LocateKey_string ring_half_1 key_string = None)
  ∧ (∀ (c : Consistent GatewayMember) (key : list byte) (key_string : string),
       reachable c →
       (members_ c = ∅ → LocateKey c key = None ∧ LocateKey_string c key_string = None)
       ∧ (members_ c ≠ ∅ →
          GetPartitionID c key < partition_count_ c
          ∧ GetPartitionID_string c key_string < partition_count_ c
          ∧ LocateKey c key = partitions_ c !! GetPartitionID c key
          ∧ LocateKey_string c key_string
            = partitions_ c !! GetPartitionID_string c key_string)
       ∧ (members_ c ≠ ∅ → partitions_ c ≠ ∅ →
          (∃ name member, LocateKey c key = Some name
                          ∧ members_ c !! name = Some member)
          ∧ (∃ name member, LocateKey_string c key_string = Some name
                            ∧ members_ c !! name = Some member)))
  ∧ (reachable ring_2_2
     ∧ GetPartitionID_string ring_2_2 "k1" = 1
     ∧ LocateKey_string ring_2_2 "k1" = Some gateway_2
     ∧ members_ ring_2_2 !! gateway_2 = Some (gateway 2)).
Proof.
  split; [|split].
  - split; [exact ring_half_new|]. split; [exact ring_half_add_raises|].
    split; [exact ring_half_1_reachable|]. split; [vm_compute; reflexivity|].
    assert (partitions_ ring_half_1 = ∅) as Hp by (vm_compute; reflexivity).
    split.
    { assert (ring_ ring_half_1 !! 14942478383758218156%N = Some gateway_1) as Hr
        by (vm_compute; reflexivity).
      intros He. rewrite He, lookup_empty in Hr. done. }
    split; [exact Hp|]. intros key key_string.
    unfold LocateKey, LocateKey_string, GetPartitionOwner. rewrite Hp.
    split; case_decide; by rewrite ?lookup_empty.
  - intros c key key_string. apply LocateKey_reachable.
  - split; [exact ring_2_2_reachable|]. split_and!; vm_compute; reflexivity.
Qed.

(** C7, as stated, fails: a ring with one member on which [GetClosestN] of
    one member raises InsufficientMemberCount.  The member was registered
    by an [Add] that raised, and the partition of the key has no owner. *)
Lemma closest_n_raises_within_member_count :
  reachable ring_half_1
  ∧ size (members_ ring_half_1) = 1
  ∧ (∀ fuel, GetClosestN_string fuel ring_half_1 "k1" 1
             = Throw InsufficientMemberCountException).
Proof.
  split; [exact ring_half_1_reachable|]. split; [vm_compute; reflexivity|].
  intros fuel. vm_compute. reflexivity.
Qed.

(** The four cases of the amended C7: counts 0, 3 and 2 on the ring of two
    gateways, count 1 on the ring whose partition table is empty. *)
Lemma GetClosestN_outcomes_witness :
  GetClosestN_string 5 ring_2_2 "k1" 0 = Ok []
  ∧ GetClosestN_string 5 ring_2_2 "k1" 3 = Throw InsufficientMemberCountException
  ∧ GetClosestN_string 5 ring_half_1 "k1" 1 = Throw InsufficientMemberCountException
  ∧ ∃ res, GetClosestN_string 5 ring_2_2 "k1" 2 = Ok res
           ∧ Z.of_nat (length res) = 2%Z ∧ NoDup res.
Proof.
  pose proof (λ (c : Consistent GatewayMember) count,
    GetClosestN_outcomes c 5 [] "k1" (GetClosestN_string 5 c "k1")
      (GetPartitionID_string c "k1") count (or_intror (conj eq_refl eq_refl))) as Hthm.
  split; [|split; [|split]].
  - destruct (Hthm ring_2_2 0%Z) as (H1 & _). apply H1. by_computation.
  - destruct (Hthm ring_2_2 3%Z) as (_ & H2 & _). apply H2. by_computation.
  - destruct (Hthm ring_half_1 1%Z) as (_ & _ & H3 & _).
    apply H3; [by_computation|]. right. vm_compute. reflexivity.
  - destruct (Hthm ring_2_2 2%Z) as (_ & _ & _ & H4). apply H4; by_computation.
Defined.

(** C8 on the ring of two gateways: [Add] of the first gateway again and
    [RemoveByName] of a name that is not registered. *)
Lemma Add_RemoveByName_noop_witness :
  (is_Some (members_ ring_2_2 !! Member_String (gateway 1))
   ∧ Add (gateway 1) ring_2_2 = Returned ring_2_2)
  ∧ (members_ ring_2_2 !! "gateway-7" = None
     ∧ RemoveByName "gateway-7" ring_2_2 = Returned ring_2_2).
Proof.
  assert (is_Some (members_ ring_2_2 !! Member_String (gateway 1))) as H1
    by by_computation.
  assert (members_ ring_2_2 !! "gateway-7" = None) as H2 by (vm_compute; reflexivity).
  destruct (Add_RemoveByName_noop ring_2_2 (gateway 1) "gateway-7") as [Ha Hr].
  split; [exact (conj H1 (Ha H1)) | exact (conj H2 (Hr H2))].
Defined.


(** The three ends of the walk, on the examples: an assignment on the ring
    of two gateways, InsufficientSpace on a sorted array of one entry, and
    the walks of the constructor and of [RemoveByName] run on sorted arrays
    whose entries have ring entries. *)
Lemma placement_walk_examples :
  CalculatePartitions_walk ring_2_2 (ring_ ring_2_2) (sorted_set_ ring_2_2)
    (ceil_avg_load ring_2_2 2) 0 (∅, ∅)
  = (1, Ok ({[0 := gateway_1]}, {[gateway_1 := 1]}))
  ∧ (length (sorted_set_ ring_half_1) = 1
     ∧ DistributePartitions_walk ring_half_1 0 (∅, ∅)
       = (1, Throw InsufficientSpaceException))
  ∧ ring_covers (ring_ ring_2_2) (sorted_set_ ring_2_2)
  ∧ ring_covers (ring_ ring_shared) (sorted_set_ ring_shared).
Proof.
  split; [vm_compute; reflexivity|]. split; [split; vm_compute; reflexivity|].
  split; by_computation.
Qed.

(** ** The further properties on concrete inputs *)

Lemma ring_2_2_added_reachable : reachable ring_2_2_added.
Proof. eapply reachable_Add_raised; [exact ring_2_2_reachable | exact ring_2_2_add_raises]. Qed.

Lemma ring_2_2_removed_reachable : reachable ring_2_2_removed.
Proof.
  eapply reachable_Remove_returned;
    [exact ring_2_2_added_reachable | exact ring_2_2_remove_returns].
Qed.

(** X2 on the one-byte inputs 0 and 1. *)
Lemma CalculateCRC64_separates_one_byte_witness :
  Byte.x00 ≠ Byte.x01
  ∧ Sum64 CRC64Hasher ([] ++ Byte.x00 :: []) ≠ Sum64 CRC64Hasher ([] ++ Byte.x01 :: [])
  ∧ (Sum64 CRC64Hasher ([] ++ Byte.x00 :: []) < 2 ^ 64)%N.
Proof.
  assert (Byte.x00 ≠ Byte.x01) as Hne by discriminate.
  exact (conj Hne (CalculateCRC64_separates_one_byte [] [] Byte.x00 Byte.x01 Hne)).
Defined.

(** X4 on the one-byte inputs 0 and 1. *)
Lemma FNV_Sum64_separates_one_byte_witness :
  Byte.x00 ≠ Byte.x01
  ∧ Sum64 FNVHasher ([] ++ Byte.x00 :: []) ≠ Sum64 FNVHasher ([] ++ Byte.x01 :: [])
  ∧ (Sum64 FNVHasher ([] ++ Byte.x00 :: []) < 2 ^ 64)%N.
Proof.
  assert (Byte.x00 ≠ Byte.x01) as Hne by discriminate.
  exact (conj Hne (FNV_Sum64_separates_one_byte [] [] Byte.x00 Byte.x01 Hne)).
Defined.

(** X6 on the vector [1; 2; 2; 3] and the value 2. *)
Lemma DelSlice_removes_one_occurrence_witness :
  StronglySorted N.le (sort [3; 1; 2; 2]%N)
  ∧ DelSlice 2 (sort [3; 1; 2; 2]%N) = [1; 2; 3]%N
  ∧ StronglySorted N.le (DelSlice 2 (sort [3; 1; 2; 2]%N)).
Proof.
  pose proof (sort_sorted [3; 1; 2; 2]%N) as Hs.
  destruct (DelSlice_removes_one_occurrence 2 (sort [3; 1; 2; 2]%N) Hs) as [H1 _].
  split; [exact Hs|]. split; [vm_compute; reflexivity | exact H1].
Defined.

(** X8 on the two members that share a virtual node. *)
Lemma BuildVirtualNodeKey_shared_witness :
  0 < 1 ∧ 0 < 10
  ∧ Member_String member_901 = (Member_String member_90 +:+ to_string (N.of_nat 1))%string
  ∧ BuildVirtualNodeKey (Member_String member_90 +:+ to_string (N.of_nat 1)) 0
    = BuildVirtualNodeKey (Member_String member_90) (10 * 1 + 0).
Proof.
  assert (0 < 1) as H1 by lia. assert (0 < 10) as H2 by lia.
  split; [exact H1|]. split; [exact H2|]. split; [vm_compute; reflexivity|].
  exact (BuildVirtualNodeKey_shared (Member_String member_90) 1 0 H1 H2).
Defined.

(** X10 on the ring of two gateways. *)
Lemma Consistent_new_registers_members_witness :
  Consistent_new [gateway 1; gateway 2] config_2_2 = Ok ring_2_2
  ∧ (is_Some (members_ ring_2_2 !! gateway_1)
     ↔ gateway_1 ∈ (Member_String ∘ Clone <$> [gateway 1; gateway 2]))
  ∧ size (members_ ring_2_2) ≤ 2.
Proof.
  split; [exact ring_2_2_new|].
  exact (Consistent_new_registers_members [gateway 1; gateway 2] config_2_2 ring_2_2
           gateway_1 ring_2_2_new).
Defined.

(** X11 on the ring of two gateways. *)
Lemma Consistent_new_virtual_nodes_witness :
  NoDup (Member_String ∘ Clone <$> [gateway 1; gateway 2])
  ∧ Consistent_new [gateway 1; gateway 2] config_2_2 = Ok ring_2_2
  ∧ StronglySorted N.le (sorted_set_ ring_2_2)
  ∧ size (members_ ring_2_2) = 2
  ∧ length (sorted_set_ ring_2_2) = 2 * replication_factor (config_ ring_2_2).
Proof.
  assert (NoDup (Member_String ∘ Clone <$> [gateway 1; gateway 2])) as Hnd
    by by_computation.
  destruct (Consistent_new_virtual_nodes [gateway 1; gateway 2] config_2_2 ring_2_2
              Hnd ring_2_2_new) as (H1 & _ & H3 & H4).
  exact (conj Hnd (conj ring_2_2_new (conj H1 (conj H3 H4)))).
Defined.

(** X12 on the ring of two gateways, with [Add] of a third gateway and
    [RemoveByName] of the first. *)
Lemma virtual_nodes_kept_by_mutators_witness :
  sorted_set_invariant ring_2_2
  ∧ length (sorted_set_ ring_2_2)
    = size (members_ ring_2_2) * replication_factor (config_ ring_2_2)
  ∧ sorted_set_invariant ring_2_2_added.
Proof.
  assert (sorted_set_invariant ring_2_2) as Hinv.
  { apply (Consistent_new_sorted_set_invariant [gateway 1; gateway 2] config_2_2);
      [by_computation | exact ring_2_2_new]. }
  destruct (virtual_nodes_kept_by_mutators (gateway 9) gateway_1 ring_2_2 Hinv)
    as (H1 & H2 & _).
  rewrite ring_2_2_add_raises in H2.
  exact (conj Hinv (conj H1 H2)).
Defined.

(** X13 on the ring of two gateways. *)
Lemma sorted_set_sorted_at_every_search_witness :
  reachable ring_2_2
  ∧ StronglySorted N.le (sorted_set_ ring_2_2)
  ∧ lower_bound (sorted_set_ ring_2_2) 14942479483269846367 = 1.
Proof.
  destruct (sorted_set_sorted_at_every_search ring_2_2 14942479483269846367
              ring_2_2_reachable) as (H1 & _).
  split; [exact ring_2_2_reachable|]. split; [exact H1 | vm_compute; reflexivity].
Defined.

(** X14 on the ring of two gateways after the [Add] that raised. *)
Lemma no_stale_references_witness :
  reachable ring_2_2_added ∧ references_registered ring_2_2_added.
Proof.
  exact (conj ring_2_2_added_reachable
           (no_stale_references ring_2_2_added ring_2_2_added_reachable)).
Defined.

(** X15 on the ring of two gateways after [Add] and [RemoveByName]. *)
Lemma load_map_counts_partitions_witness :
  reachable ring_2_2_removed
  ∧ load_of (LoadDistribution ring_2_2_removed) gateway_1
    = partitions_owned (partitions_ ring_2_2_removed) gateway_1
  ∧ partitions_owned (partitions_ ring_2_2_removed) gateway_1 = 2.
Proof.
  destruct (load_map_counts_partitions ring_2_2_removed ring_2_2_removed_reachable)
    as (_ & _ & H3).
  split; [exact ring_2_2_removed_reachable|]. split; [exact (H3 gateway_1)|].
  vm_compute. reflexivity.
Defined.

(** X18 on the ring of one gateway, whose average load is 2. *)
Lemma placement_paths_agree_on_integral_average_witness :
  ring_covers (ring_ ring_whole) (sorted_set_ ring_whole)
  ∧ members_ ring_whole ≠ ∅
  ∧ double_value (AverageLoad ring_whole) = ext_fin 2
  ∧ DistributePartitions ring_whole = Ok ring_whole
  ∧ CalculatePartitionsWithRingAndMemberCount ring_whole (ring_ ring_whole)
      (sorted_set_ ring_whole) (size (members_ ring_whole))
    = Ok (partitions_ ring_whole, loads_ ring_whole).
Proof.
  assert (ring_covers (ring_ ring_whole) (sorted_set_ ring_whole)) as H1 by by_computation.
  assert (members_ ring_whole ≠ ∅) as H2.
  { assert (members_ ring_whole !! gateway_1 = Some (gateway 1)) as Hg
      by (vm_compute; reflexivity).
    intros He. rewrite He, lookup_empty in Hg. discriminate Hg. }
  assert (double_value (AverageLoad ring_whole) = ext_fin 2) as H3
    by (vm_compute; reflexivity).
  assert (ext_ceil (double_value (AverageLoad ring_whole))
          = double_value (AverageLoad ring_whole)) as H4 by (vm_compute; reflexivity).
  assert (DistributePartitions ring_whole = Ok ring_whole) as H5
    by (vm_compute; reflexivity).
  pose proof (placement_paths_agree_on_integral_average ring_whole H1 H2 H4) as H6.
  rewrite H5 in H6.
  exact (conj H1 (conj H2 (conj H3 (conj H5 H6)))).
Defined.

(** X21 on the ring of two gateways and a third gateway. *)
Lemma Add_then_RemoveByName_restores_witness :
  reachable ring_2_2
  ∧ members_ ring_2_2 !! Member_String (gateway 9) = None
  ∧ Add (gateway 9) ring_2_2 = Raised SystemError ring_2_2_added
  ∧ RemoveByName (Member_String (gateway 9)) ring_2_2_added = Returned ring_2_2_removed
  ∧ members_ ring_2_2_removed = members_ ring_2_2
  ∧ sorted_set_ ring_2_2_removed = sorted_set_ ring_2_2.
Proof.
  assert (members_ ring_2_2 !! Member_String (gateway 9) = None) as Hm
    by (vm_compute; reflexivity).
  destruct (Add_then_RemoveByName_restores (gateway 9) ring_2_2 ring_2_2_added
              ring_2_2_removed ring_2_2_reachable Hm ring_2_2_add_raises
              ring_2_2_remove_returns) as (_ & _ & H3 & H4 & _).
  exact (conj ring_2_2_reachable (conj Hm (conj ring_2_2_add_raises
           (conj ring_2_2_remove_returns (conj H3 H4))))).
Defined.

(** X22 on the ring with one gateway and no partition table. *)
Lemma RemoveByName_last_member_empties_witness :
  reachable ring_half_1
  ∧ is_Some (members_ ring_half_1 !! gateway_1)
  ∧ size (members_ ring_half_1) = 1
  ∧ ∃ c', RemoveByName gateway_1 ring_half_1 = Returned c'
          ∧ members_ c' = ∅ ∧ partitions_ c' = ∅ ∧ loads_ c' = ∅ ∧ ring_ c' = ∅.
Proof.
  assert (is_Some (members_ ring_half_1 !! gateway_1)) as H2 by by_computation.
  assert (size (members_ ring_half_1) = 1) as H3 by (vm_compute; reflexivity).
  exact (conj ring_half_1_reachable (conj H2 (conj H3
           (RemoveByName_last_member_empties gateway_1 ring_half_1
              ring_half_1_reachable H2 H3)))).
Defined.

(** X23 on the ring constructed without members. *)
Lemma empty_ring_queries_witness :
  members_ ring_half = ∅ ∧ ring_ ring_half = ∅
  ∧ LocateKey_string ring_half "k1" = None
  ∧ GetAverageLoad ring_half = S754_zero false.
Proof.
  assert (members_ ring_half = ∅) as H1 by (vm_compute; reflexivity).
  assert (ring_ ring_half = ∅) as H2 by (vm_compute; reflexivity).
  destruct (empty_ring_queries ring_half 5 [] "k1" 1 H1 H2) as (_ & H4 & _ & _ & H5).
  exact (conj H1 (conj H2 (conj H4 H5))).
Defined.

(** X24 on the ring of two gateways, asked for both members. *)
Lemma GetClosestN_members_registered_witness :
  reachable ring_2_2
  ∧ (0 < 2 ≤ Z.of_nat (size (members_ ring_2_2)))%Z
  ∧ ring_covers (ring_ ring_2_2) (sorted_set_ ring_2_2)
  ∧ size (members_ ring_2_2) ≤ size (ring_names (ring_ ring_2_2) (sorted_set_ ring_2_2))
  ∧ is_Some (partitions_ ring_2_2 !! GetPartitionID ring_2_2 [Byte.x6b; Byte.x31])
  ∧ length (sorted_set_ ring_2_2) < 5
  ∧ ∃ res, GetClosestN 5 ring_2_2 [Byte.x6b; Byte.x31] 2 = Ok res
           ∧ Z.of_nat (length res) = 2%Z ∧ NoDup res
           ∧ (∀ x, x ∈ res →
                x ∈ ring_names (ring_ ring_2_2) (sorted_set_ ring_2_2)
                ∧ is_Some (members_ ring_2_2 !! x))
           ∧ (2%Z = Z.of_nat (size (members_ ring_2_2)) → res ≡ₚ member_names ring_2_2).
Proof.
  assert ((0 < 2 ≤ Z.of_nat (size (members_ ring_2_2)))%Z) as H2 by by_computation.
  assert (ring_covers (ring_ ring_2_2) (sorted_set_ ring_2_2)) as H3 by by_computation.
  assert (size (members_ ring_2_2)
          ≤ size (ring_names (ring_ ring_2_2) (sorted_set_ ring_2_2))) as H4
    by by_computation.
  assert (is_Some (partitions_ ring_2_2 !! GetPartitionID ring_2_2 [Byte.x6b; Byte.x31]))
    as H5 by by_computation.
  assert (length (sorted_set_ ring_2_2) < 5) as H6 by by_computation.
  exact (conj ring_2_2_reachable (conj H2 (conj H3 (conj H4 (conj H5 (conj H6
           (GetClosestN_members_registered ring_2_2 5 [Byte.x6b; Byte.x31] 2
              ring_2_2_reachable H2 H3 H4 H5 H6))))))).
Defined.

(** X25 on the ring of two gateways before the first [GetMembers]. *)
Lemma GetMembers_returns_registered_witness :
  cache_coherent (mkCached ring_2_2 [] true)
  ∧ (GetMembers (mkCached ring_2_2 [] true)).2 = cached_2_2
  ∧ cache_coherent cached_2_2
  ∧ (GetMembers (mkCached ring_2_2 [] true)).1 = Ok [gateway 1; gateway 2].
Proof.
  assert (cache_coherent (mkCached ring_2_2 [] true)) as Hco by (intros Hd; discriminate Hd).
  destruct (GetMembers_returns_registered (mkCached ring_2_2 [] true) Hco)
    as (_ & _ & H3 & _).
  split; [exact Hco|]. split; [reflexivity|]. split; [exact H3|].
  vm_compute. reflexivity.
Defined.

(** X27 on the ring of two gateways with a clean cache, and a third
    gateway: [GetMembers] still returns two members of three. *)
Lemma GetMembers_misses_added_member_witness :
  cache_coherent cached_2_2 ∧ members_dirty_ cached_2_2 = false
  ∧ cached_members_ cached_2_2 ≠ []
  ∧ Add_cached (gateway 9) cached_2_2 = Raised_cached SystemError cached_2_2_added
  ∧ size (members_ (ring_state cached_2_2_added)) = 3
  ∧ (GetMembers cached_2_2_added).1 = Ok [gateway 1; gateway 2].
Proof.
  assert (cache_coherent (mkCached ring_2_2 [] true)) as Hco0
    by (intros Hd; discriminate Hd).
  assert (cache_coherent cached_2_2) as Hco
    by exact (proj1 (proj2 (proj2 (GetMembers_coherent _ Hco0)))).
  assert (members_dirty_ cached_2_2 = false) as Hd by (vm_compute; reflexivity).
  assert (cached_members_ cached_2_2 ≠ []) as Hn by (vm_compute; discriminate).
  assert (Add_cached (gateway 9) cached_2_2 = Raised_cached SystemError cached_2_2_added)
    as Ha by (vm_compute; reflexivity).
  destruct (GetMembers_misses_added_member (gateway 9) SystemError cached_2_2
              cached_2_2_added Hco Hd Hn Ha) as (_ & _ & l & Hl & _ & Hlen).
  split; [exact Hco|]. split; [exact Hd|]. split; [exact Hn|]. split; [exact Ha|].
  split; vm_compute; reflexivity.
Defined.
